(** * gildas-ai: input composition and anchor geometry of the Mask R-CNN wrapper

    A shallow embedding of [mask/mask.go] and of the pixel normalisers of
    [cmd/folder/folder.go].

    Go's [float32] and [float64] are modelled by [spec_float] (the Standard
    Library's specification of IEEE 754 binary arithmetic) at precision 24,
    maximal exponent 128, and at precision 53, maximal exponent 1024.  Every
    operation rounds to nearest, ties to even, as the Go compiler does on
    amd64 (no fused multiply-add).  Go's [int] is a 64-bit integer, carried
    by [Z]; the only integer arithmetic of the program is the subtraction in
    [Rectangle.Dx] and [Rectangle.Dy], which wraps.

    A Go function can return, return an error, panic, or loop for ever; the
    type [outcome] keeps the four apart, and loops take a [fuel]. *)

From Stdlib Require Import ZArith List Bool Lia.
From Stdlib Require Import Floats.SpecFloat.
From Stdlib Require Import Permutation.
From Stdlib Require String.
Import ListNotations.
Import String.StringSyntax.
Open Scope Z_scope.
Set Warnings "-register-all".

(** ** Outcomes of a call *)

Inductive outcome (A : Type) : Type :=
| Ret (a : A)      (* normal return *)
| Fail             (* a non-nil error is returned *)
| Panic            (* run-time panic: index out of range, negative length *)
| OutOfFuel.         (* the fuel of a loop ran out before the loop ended *)

Arguments Ret {A} a.
Arguments Fail {A}.
Arguments Panic {A}.
Arguments OutOfFuel {A}.

Definition bind {A B : Type} (o : outcome A) (k : A -> outcome B) : outcome B :=
  match o with
  | Ret a => k a
  | Fail => Fail
  | Panic => Panic
  | OutOfFuel => OutOfFuel
  end.

Notation "x <- o ;; k" := (bind o (fun x => k))
  (at level 61, o at next level, right associativity).

(** [s[n]] on a slice: a panic when [n] is out of range. *)
Definition index {A : Type} (s : list A) (n : nat) : outcome A :=
  match nth_error s n with
  | Some x => Ret x
  | None => Panic
  end.

(** ** Floating-point types *)

Module F32.
Definition prec : Z := 24.
Definition emax : Z := 128.

Definition add := SFadd prec emax.
Definition sub := SFsub prec emax.
Definition mul := SFmul prec emax.
Definition div := SFdiv prec emax.

(** [float32(n)] for an integer [n]. *)
Definition of_int (n : Z) : spec_float := binary_normalize prec emax n 0 false.

(** [float32(x)] for a [float64] [x]. *)
Definition of_f64 (x : spec_float) : spec_float :=
  match x with
  | S754_finite s m e => binary_round prec emax s m e
  | _ => x
  end.

(** A decimal constant [n / d] of the source, converted to [float32]: the
    correctly rounded quotient of two integers that [float32] holds
    exactly. *)
Definition of_ratio (n d : Z) : spec_float := div (of_int n) (of_int d).

Definition zero : spec_float := S754_zero false.
Definition half : spec_float := binary_normalize prec emax 1 (-1) false.
End F32.

Module F64.
Definition prec : Z := 53.
Definition emax : Z := 1024.

Definition div := SFdiv prec emax.
Definition sqrt := SFsqrt prec emax.

(** [float64(n)] for an integer [n]. *)
Definition of_int (n : Z) : spec_float := binary_normalize prec emax n 0 false.

(** [float64(x)] for a [float32] [x]: exact. *)
Definition of_f32 (x : spec_float) : spec_float :=
  match x with
  | S754_finite s m e => binary_round prec emax s m e
  | _ => x
  end.

(** [math.Ceil]: the least integer value not below [x]; zeros, infinities
    and NaN are returned as they are, and a negative fraction above -1
    gives -0. *)
Definition ceil (x : spec_float) : spec_float :=
  match x with
  | S754_finite s m e =>
      if 0 <=? e then x
      else binary_normalize prec emax
             (- ((- cond_Zopp s (Zpos m)) / 2 ^ (- e))) 0 s
  | _ => x
  end.
End F64.

(** ** Geometry: [image.Point], [image.Rectangle] *)

Definition wrap64 (z : Z) : Z := (z + 2 ^ 63) mod 2 ^ 64 - 2 ^ 63.

Record Point : Type := { X : Z; Y : Z }.
Record Rectangle : Type := { Min : Point; Max : Point }.

Definition Dx (r : Rectangle) : Z := wrap64 (X (Max r) - X (Min r)).
Definition Dy (r : Rectangle) : Z := wrap64 (Y (Max r) - Y (Min r)).

(** [image.Rect(0, 0, w, h)] *)
Definition Rect0 (w h : Z) : Rectangle :=
  {| Min := {| X := 0; Y := 0 |}; Max := {| X := w; Y := h |} |}.

(** An image: its bounds and the [RGBA()] samples [(r, g, b, a)] of the
    colour at a coordinate, each a [uint32] within [0, 0xffff]. *)
Record Image : Type := {
  Bounds : Rectangle;
  At : Z -> Z -> Z * Z * Z * Z
}.

(** ** Tensors: nested Go arrays and slices of [float32] *)

Inductive tensor : Type :=
| Scalar (x : spec_float)
| Arr (l : list tensor).

Fixpoint shape_of (t : tensor) : list nat :=
  match t with
  | Scalar _ => []
  | Arr l => length l :: match l with
                         | [] => []
                         | x :: _ => shape_of x
                         end
  end.

Definition vector (l : list spec_float) : tensor := Arr (map Scalar l).

(** ** Pixel normalisers *)

(** mask.go, [convert] *)
Definition convert (value : Z) : spec_float :=
  F32.div (F32.sub (F32.of_int (Z.shiftr value 8)) (F32.of_ratio 255 2))
          (F32.of_ratio 255 2).

(** folder.go, [convertTF] *)
Definition convertTF (value : Z) : spec_float :=
  F32.div (F32.sub (F32.of_int (Z.shiftr value 8)) (F32.of_ratio 255 2))
          (F32.of_ratio 255 2).

(** folder.go, [convertCaffe] *)
Definition convertCaffe (value : Z) : spec_float :=
  F32.of_int (Z.shiftr value 8).

Definition mean_blue : spec_float := F32.of_ratio 103939 1000.
Definition mean_green : spec_float := F32.of_ratio 116779 1000.
Definition mean_red : spec_float := F32.of_ratio 12368 100.

(** The three channels that [imageToTensorCaffe] stores at [image[0][i][j]]. *)
Definition caffePixel (img : Image) (i j : Z) : list spec_float :=
  let '(r, g, b, _) := At img i j in
  [ F32.sub (convertCaffe b) mean_blue;
    F32.sub (convertCaffe g) mean_green;
    F32.sub (convertCaffe r) mean_red ].

(** The three channels that [imageToTensorTF] stores at [image[0][i][j]]. *)
Definition tfPixel (img : Image) (i j : Z) : list spec_float :=
  let '(r, g, b, _) := At img i j in
  [ convertTF r; convertTF g; convertTF b ].

(** The three channels that mask.go's [imageToTensor] stores at
    [image[0][j][i]]. *)
Definition maskPixel (img : Image) (i j : Z) : list spec_float :=
  let '(r, g, b, _) := At img i j in
  [ convert r; convert g; convert b ].

Definition upto (n : nat) : list Z := map Z.of_nat (seq 0 n).

(** The value of [image] at the end of the two loops of
    [imageToTensorCaffe]: a 1 x 224 x 224 x 3 array. *)
Definition caffeArray (img : Image) : tensor :=
  Arr [ Arr (map (fun i => Arr (map (fun j => vector (caffePixel img i j))
                                    (upto 224)))
             (upto 224)) ].

(** The same for [imageToTensorTF]: a 1 x 299 x 299 x 3 array. *)
Definition tfArray (img : Image) : tensor :=
  Arr [ Arr (map (fun i => Arr (map (fun j => vector (tfPixel img i j))
                                    (upto 299)))
             (upto 299)) ].

(** ** Anchors *)

(** An anchor [[4]float32{y1, x1, y2, x2}]. *)
Definition box : Type := (spec_float * spec_float * spec_float * spec_float)%type.

Definition box_y1 (b : box) : spec_float := let '(y1, _, _, _) := b in y1.
Definition box_x1 (b : box) : spec_float := let '(_, x1, _, _) := b in x1.
Definition box_y2 (b : box) : spec_float := let '(_, _, y2, _) := b in y2.
Definition box_x2 (b : box) : spec_float := let '(_, _, _, x2) := b in x2.

Definition box_tensor (b : box) : tensor :=
  vector [box_y1 b; box_x1 b; box_y2 b; box_x2 b].

(** A value of type [[1][][4]float32]. *)
Definition anchors_tensor (boxes : list box) : tensor :=
  Arr [ Arr (map box_tensor boxes) ].

(** [scales / sqrt(ratio)] and [scales * sqrt(ratio)] as generateAnchors
    computes them: the square root in [float64], the rest in [float32]. *)
Definition sqrt32 (ratio : spec_float) : spec_float :=
  F32.of_f64 (F64.sqrt (F64.of_f32 ratio)).

Definition anchorHeight (scales : Z) (ratio : spec_float) : spec_float :=
  F32.div (F32.of_int scales) (sqrt32 ratio).

Definition anchorWidth (scales : Z) (ratio : spec_float) : spec_float :=
  F32.mul (F32.of_int scales) (sqrt32 ratio).

(** The box appended for the cell [(j, i)] and the height and width [h], [w]. *)
Definition anchorBox (featureStride : Z) (j i h w : spec_float) : box :=
  ( F32.sub (F32.mul j (F32.of_int featureStride)) (F32.mul F32.half h),
    F32.sub (F32.mul i (F32.of_int featureStride)) (F32.mul F32.half w),
    F32.add (F32.mul j (F32.of_int featureStride)) (F32.mul F32.half h),
    F32.add (F32.mul i (F32.of_int featureStride)) (F32.mul F32.half w) ).

(** The loop on [k]: three boxes appended, whatever [len(ratios)]. *)
Definition cellBoxes (heights widths : list spec_float) (featureStride : Z)
    (j i : spec_float) : list box :=
  map (fun k => anchorBox featureStride j i
                  (nth k heights S754_nan) (nth k widths S754_nan))
      [0%nat; 1%nat; 2%nat].

(** The loop on [i], from the counter [i], with [boxes] as it stands. *)
Fixpoint colLoop (fuel : nat) (heights widths shape : list spec_float)
    (featureStride anchorStride : Z) (j i : spec_float) (boxes : list box)
    : outcome (list box) :=
  match fuel with
  | O => OutOfFuel
  | S fuel' =>
      s1 <- index shape 1 ;;
      if SFltb i s1 then
        colLoop fuel' heights widths shape featureStride anchorStride j
          (F32.add i (F32.of_int anchorStride))
          (boxes ++ cellBoxes heights widths featureStride j i)
      else Ret boxes
  end.

(** The loop on [j], from the counter [j], with [boxes] as it stands. *)
Fixpoint rowLoop (fuel : nat) (heights widths shape : list spec_float)
    (featureStride anchorStride : Z) (j : spec_float) (boxes : list box)
    : outcome (list box) :=
  match fuel with
  | O => OutOfFuel
  | S fuel' =>
      s0 <- index shape 0 ;;
      if SFltb j s0 then
        boxes' <- colLoop fuel' heights widths shape featureStride
                    anchorStride j F32.zero boxes ;;
        rowLoop fuel' heights widths shape featureStride anchorStride
          (F32.add j (F32.of_int anchorStride)) boxes'
      else Ret boxes
  end.

Definition generateAnchors (fuel : nat) (scales : Z) (ratios shape : list spec_float)
    (featureStride anchorStride : Z) : outcome (list box) :=
  r0 <- index ratios 0 ;;
  r1 <- index ratios 1 ;;
  r2 <- index ratios 2 ;;
  let heights := [anchorHeight scales r0; anchorHeight scales r1; anchorHeight scales r2] in
  let widths := [anchorWidth scales r0; anchorWidth scales r1; anchorWidth scales r2] in
  rowLoop fuel heights widths shape featureStride anchorStride F32.zero [].

(** The loop of generatePyramidAnchors: [i] runs over [range scales], and
    [featureShapes[i]], [featureStrides[i]] panic when they are missing. *)
Fixpoint pyramidLoop (fuel : nat) (scales : list Z) (ratios : list spec_float)
    (featureShapes : list (list spec_float)) (featureStrides : list Z)
    (anchorStride : Z) (anchors : list box) : outcome (list box) :=
  match scales with
  | [] => Ret anchors
  | scale :: scales' =>
      shape <- index featureShapes 0 ;;
      stride <- index featureStrides 0 ;;
      level <- generateAnchors fuel scale ratios shape stride anchorStride ;;
      pyramidLoop fuel scales' ratios (tl featureShapes) (tl featureStrides)
        anchorStride (anchors ++ level)
  end.

Definition generatePyramidAnchors (fuel : nat) (scales : list Z)
    (ratios : list spec_float) (featureShapes : list (list spec_float))
    (featureStrides : list Z) (anchorStride : Z) : outcome (list box) :=
  pyramidLoop fuel scales ratios featureShapes featureStrides anchorStride [].

Definition computeBackboneShapes (imageBounds : Rectangle) (backboneStrides : list Z)
    : list (list spec_float) :=
  map (fun s =>
         [ F32.of_f64 (F64.ceil (F64.div (F64.of_int (Dy imageBounds)) (F64.of_int s)));
           F32.of_f64 (F64.ceil (F64.div (F64.of_int (Dx imageBounds)) (F64.of_int s))) ])
      backboneStrides.

Definition backboneStrides : list Z := [4; 8; 16; 32; 64].
Definition anchorScales : list Z := [32; 64; 128; 256; 512].
Definition anchorRatios : list spec_float :=
  [F32.of_ratio 1 2; F32.of_int 1; F32.of_int 2].

Definition getAnchors (fuel : nat) (imageBounds : Rectangle) : outcome (list box) :=
  generatePyramidAnchors fuel anchorScales anchorRatios
    (computeBackboneShapes imageBounds backboneStrides) backboneStrides 1.

(** ** Inputs of the model *)

Section Inputs.
(** [imageutils.Scaled] and [tf.NewTensor] are not part of these sources.
    The resizer is any function to images; the tensor constructor either
    refuses its argument ([tensor_ok] is false) or wraps it as it is. *)
Variable Scaled : Image -> Z -> Z -> Image.
Variable tensor_ok : tensor -> bool.

Definition NewTensor (v : tensor) : outcome tensor :=
  if tensor_ok v then Ret v else Fail.

(** folder.go, [imageToTensorTF] and [imageToTensorCaffe]: the filled
    array goes to the tensor constructor. *)
Definition imageToTensorTF (img : Image) : outcome tensor :=
  NewTensor (tfArray img).

Definition imageToTensorCaffe (img : Image) : outcome tensor :=
  NewTensor (caffeArray img).

(** The slice [meta[0]] before the class-activity entries are appended. *)
Definition metaHead (imageID : Z) (originalBounds resizedBounds window : Rectangle)
    (scale : spec_float) : list spec_float :=
  let meta := [] ++ [F32.of_int imageID] in
  let meta := meta ++ [F32.of_int (Dy originalBounds); F32.of_int (Dx originalBounds);
                       F32.of_int 3] in
  let meta := meta ++ [F32.of_int (Dy resizedBounds); F32.of_int (Dx resizedBounds);
                       F32.of_int 3] in
  let meta := meta ++ [F32.of_int (Y (Min window)); F32.of_int (X (Min window));
                       F32.of_int (Y (Max window)); F32.of_int (X (Max window))] in
  meta ++ [scale].

(** The slice [meta[0]] when composeImageMeta reaches [tf.NewTensor];
    [make([]float32, numClasses)] panics on a negative length. *)
Definition metaVector (imageID : Z) (originalBounds resizedBounds window : Rectangle)
    (scale : spec_float) (numClasses : Z) : outcome (list spec_float) :=
  if numClasses <? 0 then Panic
  else Ret (metaHead imageID originalBounds resizedBounds window scale
            ++ repeat F32.zero (Z.to_nat numClasses)).

Definition composeImageMeta (imageID : Z) (originalBounds resizedBounds window : Rectangle)
    (scale : spec_float) (numClasses : Z) : outcome tensor :=
  meta0 <- metaVector imageID originalBounds resizedBounds window scale numClasses ;;
  NewTensor (Arr [vector meta0]).

(** mask.go, [imageToTensor]: [imageHeight] rows of [imageWidth] pixels
    are allocated ([make] panics on a negative width), then filled. *)
Definition imageToTensor (img : Image) : outcome tensor :=
  let imageHeight := Dy (Bounds img) in
  let imageWidth := Dx (Bounds img) in
  if (0 <? imageHeight) && (imageWidth <? 0) then Panic
  else NewTensor
         (Arr [ Arr (map (fun j => Arr (map (fun i => vector (maskPixel img i j))
                                            (upto (Z.to_nat imageWidth))))
                         (upto (Z.to_nat imageHeight))) ]).

(** The [[1][]float32] value that makeInputs passes to [tf.NewTensor] for
    its third result. *)
Definition windowArray (b : Rectangle) : tensor :=
  Arr [ vector [F32.of_int (Y (Min b)); F32.of_int (X (Min b));
                F32.of_int (Y (Max b)); F32.of_int (X (Max b))] ].

Definition makeInputs (img : Image) : outcome (tensor * tensor * tensor) :=
  let resized := Scaled img 800 800 in
  imgTensor <- imageToTensor resized ;;
  meta <- composeImageMeta 0 (Bounds img) (Bounds resized) (Bounds resized)
            (F32.div (F32.of_int (Dy (Bounds resized))) (F32.of_int (Dy (Bounds img))))
            81 ;;
  window <- NewTensor (windowArray (Bounds resized)) ;;
  Ret (imgTensor, meta, window).
End Inputs.

(** ** The anchor set as the specification words it *)

Definition ceil_div (a b : Z) : Z := (a + b - 1) / b.

(** [r] counters from the [k]-th on: [k s, (k+1) s, ...], as [float32] values. *)
Definition counters_from (anchorStride : Z) (k r : nat) : list spec_float :=
  map (fun q => F32.of_int (q * anchorStride)) (map Z.of_nat (seq k r)).

(** The counters [0, s, 2s, ...] below [n]. *)
Definition counters (n anchorStride : Z) : list spec_float :=
  counters_from anchorStride 0 (Z.to_nat (ceil_div n anchorStride)).

(** Row-major over the cells, the three ratios of a cell next to each other. *)
Definition gridAnchors (heights widths : list spec_float) (featureStride : Z)
    (rows cols : list spec_float) : list box :=
  flat_map (fun j => flat_map (fun i => cellBoxes heights widths featureStride j i) cols)
           rows.

Definition levelAnchors (scale : Z) (ratios : list spec_float) (rows cols : Z)
    (featureStride anchorStride : Z) : list box :=
  gridAnchors (map (anchorHeight scale) (firstn 3 ratios))
              (map (anchorWidth scale) (firstn 3 ratios))
              featureStride (counters rows anchorStride) (counters cols anchorStride).

(** One level per scale, levels in the order of the scales, for an image of
    height [H] and width [W]. *)
Definition pyramidAnchors (scales strides : list Z) (ratios : list spec_float)
    (H W anchorStride : Z) : list box :=
  concat (map (fun '(scale, stride) =>
                 levelAnchors scale ratios (ceil_div H stride) (ceil_div W stride)
                   stride anchorStride)
              (combine scales strides)).

(** [x] agrees with the decimal [c / 100] to two places: |100 x - c| <= 1/2. *)
Definition to_2_places (x : spec_float) (c : Z) : bool :=
  match x with
  | S754_zero _ => c =? 0
  | S754_finite s m e =>
      if 0 <=? e
      then Z.abs (200 * cond_Zopp s (Zpos m) * 2 ^ e - 2 * c) <=? 1
      else Z.abs (200 * cond_Zopp s (Zpos m) - 2 * c * 2 ^ (- e)) <=? 2 ^ (- e)
  | _ => false
  end.

Definition box_to_2_places (b : box) (y1 x1 y2 x2 : Z) : bool :=
  to_2_places (box_y1 b) y1 && to_2_places (box_x1 b) x1 &&
  to_2_places (box_y2 b) y2 && to_2_places (box_x2 b) x2.

(** A coordinate that is not a number. *)
Definition is_nan (x : spec_float) : bool :=
  match x with
  | S754_nan => true
  | _ => false
  end.

Definition box_has_nan (b : box) : bool :=
  is_nan (box_y1 b) || is_nan (box_x1 b) || is_nan (box_y2 b) || is_nan (box_x2 b).

(** [y1 <= y2] and [x1 <= x2], with Go's [<=] on [float32]. *)
Definition box_ordered (b : box) : bool :=
  SFleb (box_y1 b) (box_y2 b) && SFleb (box_x1 b) (box_x2 b).

(** A box without extent: [y2 <= y1] and [x2 <= x1], collapsed or turned
    inside out. *)
Definition box_inverted (b : box) : bool :=
  SFleb (box_y2 b) (box_y1 b) && SFleb (box_x2 b) (box_x1 b).


(** ** Rounding, taken apart

    [binary_round] shifts the mantissa to the exponent of the format, rounds
    it to nearest even, and renormalises; [rnd_shift] is the middle step on
    an integer mantissa, [finish] the last one. *)

Definition exact_record (m : Z) : shr_record :=
  {| shr_m := m; shr_r := false; shr_s := false |}.

Definition shr_iter (n : nat) (mrs : shr_record) : shr_record :=
  Nat.iter n shr_1 mrs.

(** [m / 2 ^ n] rounded to nearest even for [0 <= n], [m * 2 ^ (- n)]
    otherwise. *)
Definition rnd_shift (m n : Z) : Z :=
  if n <? 0 then m * 2 ^ (- n)
  else round_nearest_even (shr_m (shr_iter (Z.to_nat n) (exact_record m)))
         (loc_of_shr_record (shr_iter (Z.to_nat n) (exact_record m))).

Definition rne (mrs : shr_record) : Z :=
  round_nearest_even (shr_m mrs) (loc_of_shr_record mrs).

Definition finish (prec emax : Z) (sx : bool) (m e : Z) : spec_float :=
  let '(mrs, e') := shr_fexp prec emax m e loc_Exact in
  match shr_m mrs with
  | Z0 => S754_zero sx
  | Zpos m' => if e' <=? emax - prec then S754_finite sx m' e' else S754_infinity sx
  | Zneg _ => S754_nan
  end.

(** The order of two records of the same shift: by mantissa, then round bit,
    then sticky bit. *)
Definition shr_le (a b : shr_record) : Prop :=
  shr_m a < shr_m b \/
  (shr_m a = shr_m b /\
   (Bool.le (shr_r a) (shr_r b) /\ (shr_r a = shr_r b -> Bool.le (shr_s a) (shr_s b)))).

(** The four results of [finish] on a rounded mantissa [0 <= M <= 2 ^ prec]. *)
Inductive finish_result (prec emax : Z) (s : bool) (M t : Z) : spec_float -> Prop :=
| fr_zero : M = 0 -> finish_result prec emax s M t (S754_zero s)
| fr_finite (M' : positive) :
    M = Zpos M' -> M < 2 ^ prec -> t <= emax - prec ->
    finish_result prec emax s M t (S754_finite s M' t)
| fr_carry (M' : positive) :
    M = 2 ^ prec -> Zpos M' = 2 ^ (prec - 1) -> t + 1 <= emax - prec ->
    finish_result prec emax s M t (S754_finite s M' (t + 1))
| fr_inf :
    0 < M -> (M < 2 ^ prec -> emax - prec < t) -> (M = 2 ^ prec -> emax - prec < t + 1) ->
    finish_result prec emax s M t (S754_infinity s).

(** ** The cells that the two loops visit

    The same two loops, recording the pair of counters [(j, i)] of each
    iteration of the inner body in place of the boxes. *)

Fixpoint colCells (fuel : nat) (shape : list spec_float) (anchorStride : Z)
    (j i : spec_float) (cells : list (spec_float * spec_float))
    : outcome (list (spec_float * spec_float)) :=
  match fuel with
  | O => OutOfFuel
  | S fuel' =>
      s1 <- index shape 1 ;;
      if SFltb i s1 then
        colCells fuel' shape anchorStride j (F32.add i (F32.of_int anchorStride))
          (cells ++ [(j, i)])
      else Ret cells
  end.

Fixpoint rowCells (fuel : nat) (shape : list spec_float) (anchorStride : Z)
    (j : spec_float) (cells : list (spec_float * spec_float))
    : outcome (list (spec_float * spec_float)) :=
  match fuel with
  | O => OutOfFuel
  | S fuel' =>
      s0 <- index shape 0 ;;
      if SFltb j s0 then
        cells' <- colCells fuel' shape anchorStride j F32.zero cells ;;
        rowCells fuel' shape anchorStride (F32.add j (F32.of_int anchorStride)) cells'
      else Ret cells
  end.

Definition visitedCells (fuel : nat) (shape : list spec_float) (anchorStride : Z)
    : outcome (list (spec_float * spec_float)) :=
  rowCells fuel shape anchorStride F32.zero [].

Definition cellsBoxes (heights widths : list spec_float) (featureStride : Z)
    (cells : list (spec_float * spec_float)) : list box :=
  flat_map (fun c => cellBoxes heights widths featureStride (fst c) (snd c)) cells.

(** Signs: a value that is not below zero (or not a number), a value that is
    not above zero, a value above zero. *)
Definition nonneg_or_nan (x : spec_float) : Prop :=
  match x with
  | S754_zero s | S754_finite s _ _ | S754_infinity s => s = false
  | S754_nan => True
  end.

Definition nonpos (x : spec_float) : Prop :=
  match x with
  | S754_zero _ => True
  | S754_finite s _ _ | S754_infinity s => s = true
  | S754_nan => False
  end.

Definition positive_value (x : spec_float) : Prop :=
  match x with
  | S754_finite s _ _ | S754_infinity s => s = false
  | _ => False
  end.

(** A value under which no loop of generateAnchors is entered: zero, below
    zero, or not a number. *)
Definition not_above_zero (x : spec_float) : Prop :=
  match x with
  | S754_zero _ | S754_nan => True
  | S754_finite s _ _ | S754_infinity s => s = true
  end.

(** The count of section 8: three anchors for each cell of each level. *)
Definition anchorCount (strides : list Z) (H W : Z) : Z :=
  fold_right Z.add 0 (map (fun s => ceil_div H s * ceil_div W s * 3) strides).

(** The entry of a tensor at a list of indices. *)
Fixpoint tensor_at (t : tensor) (ix : list nat) : option tensor :=
  match ix with
  | [] => Some t
  | n :: ix' =>
      match t with
      | Scalar _ => None
      | Arr l => match nth_error l n with
                 | Some t' => tensor_at t' ix'
                 | None => None
                 end
      end
  end.

(** [x] is within half a unit in the last place of the decimal [n / d]: the
    [float32] constant that the compiler makes of it. *)
Definition nearest_to_ratio (x : spec_float) (n d : Z) : bool :=
  match x with
  | S754_finite false m e =>
      (e <? 0) && (Zpos (digits2_pos m) =? 24) &&
      (2 * Z.abs (d * Zpos m - n * 2 ^ (- e)) <=? d)
  | _ => false
  end.

(** A 2 x 2 image, for examples. *)
Definition sampleImage : Image :=
  {| Bounds := Rect0 2 2; At := fun x y => (257 * x, 257 * y, 65535, 65535) |}.

(** A table of arguments and values in which the values do not decrease
    with the arguments. *)
Definition monotone_table (l : list (Z * spec_float)) : bool :=
  forallb (fun p => forallb (fun q => (fst q <? fst p) || SFleb (snd p) (snd q)) l) l.

(** ** folder.go, second part: package tensor *)

Local Open Scope string_scope.
Local Close Scope string_scope.


(** All the numbers of a tensor, in order. *)
Fixpoint tensor_scalars (t : tensor) : list spec_float :=
  match t with
  | Scalar x => [x]
  | Arr l => flat_map tensor_scalars l
  end.

(** [-1 <= x <= 1], with Go's [<=] on [float32]. *)
Definition in_unit_range (x : spec_float) : bool :=
  SFleb (F32.of_int (-1)) x && SFleb x (F32.of_int 1).

(** The four [RGBA()] samples of every pixel are 16-bit values. *)
Definition samples_16bit (img : Image) : Prop :=
  forall x y,
    let '(r, g, b, a) := At img x y in
    0 <= r < 2 ^ 16 /\ 0 <= g < 2 ^ 16 /\ 0 <= b < 2 ^ 16 /\ 0 <= a < 2 ^ 16.

(** ** folder.go, first part: greedy clustering of face descriptors

    [descriptors.Descriptors] and its method [DistanceTo] are not part of
    these sources: the type is any type, the method any function that gives a
    distance or fails.  A Go map is iterated in an order that the language
    leaves open: the map [descrs] is the list of its entries in the order of
    the iteration, and [descrs[c]] is the first entry of key [c], the zero
    value when there is none. *)

Section Clusters.
Variable Descriptors : Type.
Variable zeroDescriptors : Descriptors.
Variable DistanceTo : Descriptors -> Descriptors -> option spec_float.

Fixpoint mapIndex (descrs : list (String.string * Descriptors)) (c : String.string)
  : Descriptors :=
match descrs with
| [] => zeroDescriptors
| (k, d) :: descrs' => if String.eqb k c then d else mapIndex descrs' c
end.

(** The loop on [c]: [true] when a member of [cc] is closer than [threshold]
  ([continue descrsloop] after the append), [false] when the loop ends. *)
Fixpoint memberLoop (descrs : list (String.string * Descriptors)) (threshold : spec_float)
  (descr : Descriptors) (cc : list String.string) : bool :=
match cc with
| [] => false
| c :: cc' =>
    match DistanceTo descr (mapIndex descrs c) with
    | None => memberLoop descrs threshold descr cc'
    | Some distance =>
        if SFltb distance threshold then true
        else memberLoop descrs threshold descr cc'
    end
end.

(** The loop on [i, cc]: the clusters after [clusters[i] = append(clusters[i],
  name)] for the first cluster with a close member, [None] when the loop
  ends without one. *)
Fixpoint clusterLoop (descrs : list (String.string * Descriptors)) (threshold : spec_float)
  (name : String.string) (descr : Descriptors) (clusters : list (list String.string))
  : option (list (list String.string)) :=
match clusters with
| [] => None
| cc :: clusters' =>
    if memberLoop descrs threshold descr cc then Some ((cc ++ [name]) :: clusters')
    else match clusterLoop descrs threshold name descr clusters' with
         | Some clusters'' => Some (cc :: clusters'')
         | None => None
         end
end.

(** The loop on [name, descr], over the entries [todo] that are left. *)
Fixpoint descrsLoop (descrs : list (String.string * Descriptors)) (threshold : spec_float)
  (todo : list (String.string * Descriptors)) (clusters : list (list String.string))
  : list (list String.string) :=
match todo with
| [] => clusters
| (name, descr) :: todo' =>
    descrsLoop descrs threshold todo'
      match clusterLoop descrs threshold name descr clusters with
      | Some clusters' => clusters'
      | None => clusters ++ [[name]]
      end
end.

Definition calculateClusters (descrs : list (String.string * Descriptors))
  (threshold : spec_float) : list (list String.string) :=
descrsLoop descrs threshold descrs [].

(** [descr] is closer than [threshold] to the entry of key [c]. *)
Definition close_to (descrs : list (String.string * Descriptors)) (threshold : spec_float)
  (descr : Descriptors) (c : String.string) : Prop :=
exists distance,
  DistanceTo descr (mapIndex descrs c) = Some distance /\
  SFltb distance threshold = true.
(** A cluster in which every member after the first is closer than
  [threshold] to a member placed before it, the members being entries of
  [processed]. *)
Definition linked (descrs : list (String.string * Descriptors)) (threshold : spec_float)
  (processed : list (String.string * Descriptors)) (cc : list String.string) : Prop :=
forall pre name post,
  cc = pre ++ name :: post -> pre <> [] ->
  exists descr c,
    In (name, descr) processed /\ In c pre /\ close_to descrs threshold descr c.

(** A cluster whose first member is an entry of [processed] that is closer
  than [threshold] to none of the keys before it in [processed]. *)
Definition head_apart (descrs : list (String.string * Descriptors)) (threshold : spec_float)
  (processed : list (String.string * Descriptors)) (cc : list String.string) : Prop :=
forall h rest,
  cc = h :: rest ->
  exists pre descr post,
    processed = pre ++ (h, descr) :: post /\
    forall c, In c (map fst pre) -> ~ close_to descrs threshold descr c.
End Clusters.

(** A table of arguments and values in which the values increase with the
    arguments and stay within [lo] and [hi]. *)
Definition strict_table (lo hi : spec_float) (l : list (Z * spec_float)) : bool :=
  forallb (fun p =>
             SFleb lo (snd p) && SFleb (snd p) hi &&
             forallb (fun q => negb (fst p <? fst q) || SFltb (snd p) (snd q)) l) l.

(** A 2 x 3 image of one colour, for examples. *)
Definition flatImage : Image :=
  {| Bounds := Rect0 2 3; At := fun _ _ => (65535, 32768, 0, 65535) |}.

(** Three faces on a line, for examples: the descriptors are integers and
    the distance is the absolute difference. *)
Local Open Scope string_scope.
Definition sampleDescrs : list (String.string * Z) := [("a", 0); ("b", 10); ("c", 20)].
Local Close Scope string_scope.

Definition sampleDistanceTo (a b : Z) : option spec_float := Some (F32.of_int (Z.abs (a - b))).

(** * Proofs *)

(** * Digits *)

Lemma digits2_pos_bounds (p : positive) :
  2 ^ (Zpos (digits2_pos p) - 1) <= Zpos p < 2 ^ Zpos (digits2_pos p).
Proof.
  induction p as [p IH | p IH | ]; cbn [digits2_pos].
  - rewrite Pos2Z.inj_succ, Z.pow_succ_r by lia.
    replace (Z.succ (Zpos (digits2_pos p)) - 1) with (Z.succ (Zpos (digits2_pos p) - 1)) by lia.
    rewrite Z.pow_succ_r by lia. lia.
  - rewrite Pos2Z.inj_succ, Z.pow_succ_r by lia.
    replace (Z.succ (Zpos (digits2_pos p)) - 1) with (Z.succ (Zpos (digits2_pos p) - 1)) by lia.
    rewrite Z.pow_succ_r by lia. lia.
  - cbn. lia.
Qed.

Lemma digits2_pos_unique (p : positive) (k : Z) :
  2 ^ (k - 1) <= Zpos p < 2 ^ k -> Zpos (digits2_pos p) = k.
Proof.
  intros [Hlo Hhi]. pose proof (digits2_pos_bounds p) as [Blo Bhi].
  destruct (Z.lt_trichotomy (Zpos (digits2_pos p)) k) as [Hlt | [Heq | Hgt]]; [ | exact Heq | ].
  - assert (2 ^ Zpos (digits2_pos p) <= 2 ^ (k - 1)) by (apply Z.pow_le_mono_r; lia). lia.
  - assert (0 <= k \/ k < 0) as [Hk | Hk] by lia.
    + assert (2 ^ k <= 2 ^ (Zpos (digits2_pos p) - 1)) by (apply Z.pow_le_mono_r; lia). lia.
    + rewrite (Z.pow_neg_r 2 k) in Hhi by lia. lia.
Qed.

Lemma digits2_pos_le (p q : positive) :
  (p <= q)%positive -> Zpos (digits2_pos p) <= Zpos (digits2_pos q).
Proof.
  intros Hpq. pose proof (digits2_pos_bounds p) as [Plo _].
  pose proof (digits2_pos_bounds q) as [_ Qhi].
  destruct (Z_le_gt_dec (Zpos (digits2_pos p)) (Zpos (digits2_pos q))) as [H | H]; [exact H | ].
  assert (2 ^ Zpos (digits2_pos q) <= 2 ^ (Zpos (digits2_pos p) - 1)) by (apply Z.pow_le_mono_r; lia).
  lia.
Qed.

Lemma pos_iter_xO (m d : positive) :
  Zpos (Pos.iter xO m d) = Zpos m * 2 ^ Zpos d.
Proof.
  induction d as [ | d IH] using Pos.peano_ind.
  - cbn. lia.
  - rewrite Pos.iter_succ, Pos2Z.inj_xO, IH, Pos2Z.inj_succ, Z.pow_succ_r by lia. lia.
Qed.

Lemma digits2_pos_shift (m m' : positive) (k : Z) :
  0 <= k -> Zpos m' = Zpos m * 2 ^ k ->
  Zpos (digits2_pos m') = Zpos (digits2_pos m) + k.
Proof.
  intros Hk Hm. apply digits2_pos_unique. rewrite Hm.
  pose proof (digits2_pos_bounds m) as [Lo Hi].
  replace (Zpos (digits2_pos m) + k - 1) with ((Zpos (digits2_pos m) - 1) + k) by lia.
  rewrite !Z.pow_add_r by lia.
  assert (0 < 2 ^ k) by (apply Z.pow_pos_nonneg; lia). nia.
Qed.

(** * Shifting to the right *)

Lemma iter_pos_nat {A : Type} (f : A -> A) (p : positive) (x : A) :
  iter_pos f p x = Nat.iter (Pos.to_nat p) f x.
Proof.
  revert x. induction p as [p IH | p IH | ]; intros x; cbn [iter_pos].
  - rewrite !IH.
    replace (Pos.to_nat p~1) with (Pos.to_nat p + (Pos.to_nat p + 1))%nat by lia.
    rewrite !Nat.iter_add. reflexivity.
  - rewrite !IH.
    replace (Pos.to_nat p~0) with (Pos.to_nat p + Pos.to_nat p)%nat by lia.
    rewrite Nat.iter_add. reflexivity.
  - reflexivity.
Qed.

Lemma shr_spec (mrs : shr_record) (e n : Z) :
  shr mrs e n = (shr_iter (Z.to_nat n) mrs, if 0 <? n then e + n else e).
Proof.
  destruct n as [ | p | p]; cbn [shr Z.to_nat Z.ltb Z.compare]; unfold shr_iter.
  - reflexivity.
  - rewrite iter_pos_nat. reflexivity.
  - reflexivity.
Qed.

Lemma shr_1_exact (m : Z) :
  0 <= m -> shr_1 (exact_record (2 * m)) = exact_record m.
Proof.
  intros Hm. destruct m as [ | p | p]; [reflexivity | reflexivity | lia].
Qed.

Lemma shr_iter_S (n : nat) (mrs : shr_record) :
  shr_iter (S n) mrs = shr_1 (shr_iter n mrs).
Proof. reflexivity. Qed.

Lemma shr_iter_S_r (n : nat) (mrs : shr_record) :
  shr_iter (S n) mrs = shr_iter n (shr_1 mrs).
Proof. unfold shr_iter. apply Nat.iter_succ_r. Qed.

Lemma shr_iter_add (n k : nat) (mrs : shr_record) :
  shr_iter (n + k) mrs = shr_iter n (shr_iter k mrs).
Proof. unfold shr_iter. apply Nat.iter_add. Qed.

Lemma shr_iter_exact (k : nat) (m : Z) :
  0 <= m -> shr_iter k (exact_record (m * 2 ^ Z.of_nat k)) = exact_record m.
Proof.
  intros Hm. induction k as [ | k IH].
  - cbn. f_equal. lia.
  - rewrite shr_iter_S_r.
    rewrite Nat2Z.inj_succ, Z.pow_succ_r by lia.
    replace (m * (2 * 2 ^ Z.of_nat k)) with (2 * (m * 2 ^ Z.of_nat k)) by lia.
    rewrite shr_1_exact; [exact IH | ].
    apply Z.mul_nonneg_nonneg; [lia | apply Z.pow_nonneg; lia].
Qed.

Lemma shr_iter_zero (k : nat) : shr_iter k (exact_record 0) = exact_record 0.
Proof.
  induction k as [ | k IH]; [reflexivity | rewrite shr_iter_S, IH; reflexivity].
Qed.

Lemma shr_1_m (mrs : shr_record) :
  0 <= shr_m mrs -> shr_m (shr_1 mrs) = shr_m mrs / 2.
Proof.
  destruct mrs as [m r s]. cbn [shr_m]. intros Hm.
  destruct m as [ | [p | p | ] | p]; cbn [shr_1 shr_m];
    Z.to_euclidean_division_equations; lia.
Qed.

Lemma shr_iter_m (n : nat) (mrs : shr_record) :
  0 <= shr_m mrs -> shr_m (shr_iter n mrs) = shr_m mrs / 2 ^ Z.of_nat n.
Proof.
  intros Hm. induction n as [ | n IH].
  - cbn. rewrite Z.div_1_r. reflexivity.
  - rewrite shr_iter_S, shr_1_m.
    + rewrite IH, Nat2Z.inj_succ, Z.pow_succ_r by lia.
      rewrite Z.div_div by (try apply Z.pow_pos_nonneg; lia).
      f_equal. lia.
    + rewrite IH. apply Z.div_pos; [lia | apply Z.pow_pos_nonneg; lia].
Qed.

Lemma shr_1_mono (a b : shr_record) :
  0 <= shr_m a -> shr_le a b -> shr_le (shr_1 a) (shr_1 b).
Proof.
  destruct a as [ma ra sa], b as [mb rb sb]. unfold shr_le. cbn [shr_m shr_r shr_s].
  intros Ha [Hlt | [Heq [Hr Hs]]].
  - assert (Hb : 0 <= mb) by lia.
    pose proof (shr_1_m {| shr_m := ma; shr_r := ra; shr_s := sa |} Ha) as Ea.
    pose proof (shr_1_m {| shr_m := mb; shr_r := rb; shr_s := sb |} Hb) as Eb.
    cbn [shr_m] in Ea, Eb.
    assert (ma / 2 <= mb / 2) by (apply Z.div_le_mono; lia).
    destruct (Z.eq_dec (ma / 2) (mb / 2)) as [E | NE].
    + right. split; [congruence | ].
      assert (Z.even ma = true /\ Z.even mb = false) as [Eva Evb].
      { pose proof (Z.div_mod ma 2 ltac:(lia)). pose proof (Z.div_mod mb 2 ltac:(lia)).
        pose proof (Z.mod_pos_bound ma 2 ltac:(lia)). pose proof (Z.mod_pos_bound mb 2 ltac:(lia)).
        rewrite !Zeven_mod. split; [apply Z.eqb_eq | apply Z.eqb_neq]; lia. }
      destruct ma as [ | [p | p | ] | p], mb as [ | [q | q | ] | q];
        cbn in Eva, Evb; try discriminate; try lia; cbn; split; intros; try discriminate; exact I.
    + left. rewrite Ea, Eb. lia.
  - subst mb. right.
    destruct ma as [ | [p | p | ] | p]; cbn [shr_1 shr_m shr_r shr_s]; try lia;
      (split; [reflexivity | split; [ destruct ra, sa, rb, sb; cbn in *; try exact I; try tauto
                                    | intros _; destruct ra, sa, rb, sb; cbn in *; try exact I; try tauto;
                                      try (specialize (Hs eq_refl); tauto) ] ]).
Qed.

Lemma shr_iter_nonneg (n : nat) (mrs : shr_record) :
  0 <= shr_m mrs -> 0 <= shr_m (shr_iter n mrs).
Proof.
  intros Hm. rewrite shr_iter_m by exact Hm.
  apply Z.div_pos; [lia | apply Z.pow_pos_nonneg; lia].
Qed.

Lemma shr_iter_mono (n : nat) (a b : shr_record) :
  0 <= shr_m a -> shr_le a b -> shr_le (shr_iter n a) (shr_iter n b).
Proof.
  intros Ha Hab. induction n as [ | n IH]; [exact Hab | ].
  rewrite !shr_iter_S. apply shr_1_mono; [apply shr_iter_nonneg; exact Ha | exact IH].
Qed.

Lemma exact_record_le (m m' : Z) : m <= m' -> shr_le (exact_record m) (exact_record m').
Proof.
  intros H. unfold shr_le, exact_record. cbn [shr_m shr_r shr_s].
  destruct (Z.eq_dec m m'); [right | left; lia]. repeat split; auto; exact I.
Qed.

(** * Rounding to nearest even *)

Lemma rne_bounds (mrs : shr_record) : shr_m mrs <= rne mrs <= shr_m mrs + 1.
Proof.
  destruct mrs as [m [ | ] [ | ]]; unfold rne; cbn; try lia.
  destruct (Z.even m); lia.
Qed.

Lemma rne_exact (m : Z) : rne (exact_record m) = m.
Proof. reflexivity. Qed.

Lemma rne_mono (a b : shr_record) : shr_le a b -> rne a <= rne b.
Proof.
  intros [Hlt | [Heq [Hr Hs]]].
  - pose proof (rne_bounds a). pose proof (rne_bounds b). lia.
  - destruct a as [ma ra sa], b as [mb rb sb]. cbn [shr_m shr_r shr_s] in *. subst mb.
    unfold rne. destruct ra, sa, rb, sb; cbn in *; try lia; try tauto;
      try (specialize (Hs eq_refl); tauto); destruct (Z.even ma); lia.
Qed.

Lemma rnd_shift_nonneg_shift (m n : Z) :
  0 <= n -> rnd_shift m n = rne (shr_iter (Z.to_nat n) (exact_record m)).
Proof.
  intros Hn. unfold rnd_shift. destruct (Z.ltb_spec n 0); [lia | reflexivity].
Qed.

Lemma rnd_shift_neg_shift (m n : Z) : n < 0 -> rnd_shift m n = m * 2 ^ (- n).
Proof.
  intros Hn. unfold rnd_shift. destruct (Z.ltb_spec n 0); [reflexivity | lia].
Qed.

Lemma rnd_shift_0 (m : Z) : rnd_shift m 0 = m.
Proof. reflexivity. Qed.

Lemma rnd_shift_mono (m m' n : Z) :
  0 <= m <= m' -> rnd_shift m n <= rnd_shift m' n.
Proof.
  intros Hm. destruct (Z.ltb_spec n 0) as [Hn | Hn].
  - rewrite !rnd_shift_neg_shift by exact Hn.
    apply Z.mul_le_mono_nonneg_r; [apply Z.pow_nonneg; lia | lia].
  - rewrite !rnd_shift_nonneg_shift by exact Hn.
    apply rne_mono, shr_iter_mono; [cbn; lia | apply exact_record_le; lia].
Qed.

Lemma rnd_shift_bounds (m n : Z) :
  0 <= m -> 0 <= n -> m / 2 ^ n <= rnd_shift m n <= m / 2 ^ n + 1.
Proof.
  intros Hm Hn. rewrite rnd_shift_nonneg_shift by exact Hn.
  pose proof (rne_bounds (shr_iter (Z.to_nat n) (exact_record m))) as B.
  rewrite shr_iter_m in B by (cbn; lia). rewrite Z2Nat.id in B by lia. exact B.
Qed.

Lemma rnd_shift_scale (m n k : Z) :
  0 <= m -> 0 <= k -> rnd_shift (m * 2 ^ k) (n + k) = rnd_shift m n.
Proof.
  intros Hm Hk. destruct (Z.ltb_spec n 0) as [Hn | Hn].
  - rewrite (rnd_shift_neg_shift m n) by exact Hn.
    destruct (Z.ltb_spec (n + k) 0) as [Hnk | Hnk].
    + rewrite rnd_shift_neg_shift by exact Hnk.
      rewrite <- Z.mul_assoc, <- Z.pow_add_r by lia. f_equal. f_equal. lia.
    + rewrite rnd_shift_nonneg_shift by exact Hnk.
      replace (m * 2 ^ k) with ((m * 2 ^ (- n)) * 2 ^ Z.of_nat (Z.to_nat (n + k))).
      * rewrite shr_iter_exact; [reflexivity | ].
        apply Z.mul_nonneg_nonneg; [lia | apply Z.pow_nonneg; lia].
      * rewrite Z2Nat.id by lia.
        rewrite <- Z.mul_assoc, <- Z.pow_add_r by lia. f_equal. f_equal. lia.
  - rewrite !rnd_shift_nonneg_shift by lia.
    replace (Z.to_nat (n + k)) with (Z.to_nat n + Z.to_nat k)%nat by lia.
    rewrite shr_iter_add.
    replace (m * 2 ^ k) with (m * 2 ^ Z.of_nat (Z.to_nat k)) by (rewrite Z2Nat.id by lia; reflexivity).
    rewrite shr_iter_exact by exact Hm. reflexivity.
Qed.

Section Format.
Variables prec emax : Z.
Hypothesis Hprec : 0 < prec.

Lemma fexp_spec (e : Z) :
  fexp prec emax e = Z.max (e - prec) (emin prec emax).
Proof. reflexivity. Qed.

Lemma fexp_lower (e : Z) : emin prec emax <= fexp prec emax e.
Proof. rewrite fexp_spec. lia. Qed.

Lemma fexp_mono (e e' : Z) : e <= e' -> fexp prec emax e <= fexp prec emax e'.
Proof. rewrite !fexp_spec. lia. Qed.

Lemma shl_align_spec (m : positive) (e e' : Z) :
  e' < e ->
  exists m', shl_align m e e' = (m', e') /\ Zpos m' = Zpos m * 2 ^ (e - e').
Proof.
  intros H. unfold shl_align. destruct (e' - e) as [ | d | d] eqn:E; try lia.
  exists (Pos.iter xO m d). split; [reflexivity | ].
  rewrite pos_iter_xO. f_equal. f_equal. lia.
Qed.

Lemma shl_align_id (m : positive) (e e' : Z) :
  e <= e' -> shl_align m e e' = (m, e).
Proof.
  intros H. unfold shl_align. destruct (e' - e) as [ | d | d] eqn:E; try lia; reflexivity.
Qed.

Lemma binary_round_aux_finish (s : bool) (m e : Z) (l : location) :
  binary_round_aux prec emax s m e l =
  finish prec emax s (rne (fst (shr_fexp prec emax m e l))) (snd (shr_fexp prec emax m e l)).
Proof.
  unfold binary_round_aux, finish, rne.
  destruct (shr_fexp prec emax m e l) as [mrs' e']. reflexivity.
Qed.

(** [binary_round] is the rounded shift to the exponent of the format,
    followed by [finish]. *)
Lemma binary_round_struct (s : bool) (m : positive) (e : Z) :
  binary_round prec emax s m e =
  finish prec emax s
    (rnd_shift (Zpos m) (fexp prec emax (Zpos (digits2_pos m) + e) - e))
    (fexp prec emax (Zpos (digits2_pos m) + e)).
Proof.
  unfold binary_round. set (t := fexp prec emax (Zpos (digits2_pos m) + e)).
  destruct (Z.ltb_spec t e) as [Hlt | Hge].
  - destruct (shl_align_spec m e t Hlt) as [m' [-> Hm']].
    rewrite binary_round_aux_finish. unfold shr_fexp. cbn [Zdigits2].
    rewrite (digits2_pos_shift m m' (e - t)) by (lia || exact Hm').
    replace (Zpos (digits2_pos m) + (e - t) + t) with (Zpos (digits2_pos m) + e) by lia.
    fold t. rewrite Z.sub_diag, shr_spec. cbn [fst snd Z.to_nat Z.ltb Z.compare shr_iter Nat.iter].
    rewrite rnd_shift_neg_shift by lia.
    replace (- (t - e)) with (e - t) by lia. rewrite <- Hm'. reflexivity.
  - rewrite shl_align_id by exact Hge.
    rewrite binary_round_aux_finish. unfold shr_fexp. cbn [Zdigits2]. fold t.
    rewrite shr_spec. cbn [fst snd shr_record_of_loc].
    rewrite rnd_shift_nonneg_shift by lia. fold (exact_record (Zpos m)).
    destruct (Z.ltb_spec 0 (t - e)) as [H0 | H0].
    + replace (e + (t - e)) with t by lia. reflexivity.
    + replace t with e by lia. reflexivity.
Qed.

(** What [finish] returns. *)
Lemma finish_zero (s : bool) (t : Z) : finish prec emax s 0 t = S754_zero s.
Proof.
  unfold finish, shr_fexp. rewrite shr_spec. cbn [shr_m fst shr_record_of_loc].
  fold (exact_record 0). rewrite shr_iter_zero. reflexivity.
Qed.

Lemma finish_small (s : bool) (M : positive) (t : Z) :
  emin prec emax <= t -> Zpos (digits2_pos M) <= prec ->
  finish prec emax s (Zpos M) t =
  if t <=? emax - prec then S754_finite s M t else S754_infinity s.
Proof.
  intros Ht Hd. unfold finish, shr_fexp. rewrite shr_spec. cbn [Zdigits2].
  assert (Hsh : fexp prec emax (Zpos (digits2_pos M) + t) - t <= 0)
    by (rewrite fexp_spec; lia).
  destruct (fexp prec emax (Zpos (digits2_pos M) + t) - t) as [ | p | p] eqn:E;
    try lia; reflexivity.
Qed.

Lemma finish_carry (s : bool) (t : Z) :
  emin prec emax <= t ->
  finish prec emax s (2 ^ prec) t =
  if t + 1 <=? emax - prec then S754_finite s (Z.to_pos (2 ^ (prec - 1))) (t + 1)
  else S754_infinity s.
Proof.
  intros Ht. unfold finish, shr_fexp.
  assert (Hpos : 0 < 2 ^ prec) by (apply Z.pow_pos_nonneg; lia).
  destruct (2 ^ prec) as [ | M | M] eqn:EM; try lia.
  assert (Hd : Zpos (digits2_pos M) = prec + 1).
  { apply digits2_pos_unique. rewrite <- EM.
    replace (prec + 1 - 1) with prec by lia. rewrite Z.pow_add_r by lia. lia. }
  cbn [Zdigits2]. rewrite Hd, fexp_spec.
  replace (Z.max (prec + 1 + t - prec) (emin prec emax) - t) with 1 by lia.
  rewrite shr_spec. cbn [Z.to_nat Z.ltb Z.compare shr_record_of_loc].
  fold (exact_record (Zpos M)). rewrite <- EM.
  replace (2 ^ prec) with (2 ^ (prec - 1) * 2 ^ Z.of_nat (Pos.to_nat 1)).
  - rewrite shr_iter_exact by (apply Z.pow_nonneg; lia). cbn [shr_m exact_record].
    assert (0 < 2 ^ (prec - 1)) by (apply Z.pow_pos_nonneg; lia).
    destruct (2 ^ (prec - 1)) as [ | M' | M'] eqn:EM'; try lia. reflexivity.
  - change (Z.of_nat (Pos.to_nat 1)) with 1. rewrite <- Z.pow_add_r by lia. f_equal. lia.
Qed.

(** The rounded mantissa fits the precision, and fills it in the normal
    range. *)
Lemma rnd_shift_le_pow (m : positive) (e : Z) :
  0 <= rnd_shift (Zpos m) (fexp prec emax (Zpos (digits2_pos m) + e) - e) <= 2 ^ prec.
Proof.
  pose proof (digits2_pos_bounds m) as [Lo Hi].
  set (d := Zpos (digits2_pos m)) in *.
  set (n := fexp prec emax (d + e) - e).
  assert (Hn : d - prec <= n) by (unfold n; rewrite fexp_spec; lia).
  destruct (Z.ltb_spec n 0) as [Hneg | Hnn].
  - rewrite rnd_shift_neg_shift by exact Hneg.
    assert (0 < 2 ^ (- n)) by (apply Z.pow_pos_nonneg; lia).
    assert (2 ^ d * 2 ^ (- n) <= 2 ^ prec).
    { rewrite <- Z.pow_add_r by (unfold d; lia). apply Z.pow_le_mono_r; lia. }
    nia.
  - pose proof (rnd_shift_bounds (Zpos m) n ltac:(lia) Hnn) as [B1 B2].
    assert (0 < 2 ^ n) by (apply Z.pow_pos_nonneg; lia).
    assert (0 <= Zpos m / 2 ^ n) by (apply Z.div_pos; lia).
    split; [lia | ].
    assert (Zpos m / 2 ^ n < 2 ^ prec); [ | lia].
    apply Z.div_lt_upper_bound; [lia | ].
    assert (2 ^ d <= 2 ^ n * 2 ^ prec); [ | lia].
    rewrite <- Z.pow_add_r by lia. apply Z.pow_le_mono_r; lia.
Qed.

Lemma rnd_shift_ge_pow (m : positive) (e : Z) :
  emin prec emax <= Zpos (digits2_pos m) + e - prec ->
  2 ^ (prec - 1) <= rnd_shift (Zpos m) (fexp prec emax (Zpos (digits2_pos m) + e) - e).
Proof.
  intros Hnorm. pose proof (digits2_pos_bounds m) as [Lo Hi].
  set (d := Zpos (digits2_pos m)) in *.
  replace (fexp prec emax (d + e) - e) with (d - prec) by (rewrite fexp_spec; lia).
  destruct (Z.ltb_spec (d - prec) 0) as [Hneg | Hnn].
  - rewrite rnd_shift_neg_shift by exact Hneg.
    replace (prec - 1) with ((d - 1) + (- (d - prec))) by lia.
    rewrite Z.pow_add_r by (unfold d; lia).
    apply Z.mul_le_mono_nonneg_r; [apply Z.pow_nonneg; lia | exact Lo].
  - pose proof (rnd_shift_bounds (Zpos m) (d - prec) ltac:(lia) Hnn) as [B1 B2].
    assert (2 ^ (prec - 1) <= Zpos m / 2 ^ (d - prec)); [ | lia].
    apply Z.div_le_lower_bound; [apply Z.pow_pos_nonneg; lia | ].
    rewrite <- Z.pow_add_r by lia.
    replace (d - prec + (prec - 1)) with (d - 1) by lia. exact Lo.
Qed.
End Format.

(** * Comparison *)

Lemma SFleb_finite_false (m m' : positive) (e e' : Z) :
  e < e' \/ (e = e' /\ (m <= m')%positive) ->
  SFleb (S754_finite false m e) (S754_finite false m' e') = true.
Proof.
  intros H. unfold SFleb, SFcompare.
  destruct (Z.compare_spec e e') as [E | E | E]; try lia.
  destruct H as [H | [_ H]]; [lia | ].
  rewrite Pos.compare_cont_spec. cbn [Pos.switch_Eq].
  destruct (Pos.compare_spec m m') as [C | C | C]; try reflexivity. lia.
Qed.

Lemma SFleb_finite_true (m m' : positive) (e e' : Z) :
  e < e' \/ (e = e' /\ (m <= m')%positive) ->
  SFleb (S754_finite true m' e') (S754_finite true m e) = true.
Proof.
  intros H. unfold SFleb, SFcompare.
  destruct (Z.compare_spec e' e) as [E | E | E]; try lia.
  destruct H as [H | [_ H]]; [lia | ].
  rewrite Pos.compare_cont_spec. cbn [Pos.switch_Eq].
  destruct (Pos.compare_spec m' m) as [C | C | C]; try reflexivity. lia.
Qed.

Lemma SFltb_finite_false (m m' : positive) (e e' : Z) :
  e < e' \/ (e = e' /\ (m < m')%positive) ->
  SFltb (S754_finite false m e) (S754_finite false m' e') = true.
Proof.
  intros H. unfold SFltb, SFcompare.
  destruct (Z.compare_spec e e') as [E | E | E]; try lia.
  destruct H as [H | [_ H]]; [lia | ].
  rewrite Pos.compare_cont_spec. cbn [Pos.switch_Eq].
  destruct (Pos.compare_spec m m') as [C | C | C]; try reflexivity; lia.
Qed.

Lemma SFcompare_antisym (x y : spec_float) :
  SFcompare y x = option_map CompOpp (SFcompare x y).
Proof.
  destruct x as [sx | sx | | sx mx ex], y as [sy | sy | | sy my ey];
    try reflexivity; try (destruct sx; reflexivity); try (destruct sy; reflexivity);
    try (destruct sx, sy; reflexivity).
  cbn [SFcompare option_map]. rewrite (Z.compare_antisym ex ey).
  pose proof (Pos.compare_cont_antisym mx my Eq) as A. cbn [CompOpp] in A.
  set (c1 := Pos.compare_cont Eq mx my) in *.
  set (c2 := Pos.compare_cont Eq my mx) in *.
  clearbody c1 c2. subst c2.
  destruct sx, sy; try reflexivity;
    destruct (ex ?= ey); cbn [CompOpp]; try reflexivity;
    destruct c1; reflexivity.
Qed.

Lemma SFleb_not_ltb (x y : spec_float) : SFleb x y = true -> SFltb y x = false.
Proof.
  unfold SFleb, SFltb. rewrite (SFcompare_antisym x y).
  destruct (SFcompare x y) as [[ | | ] | ]; cbn; congruence.
Qed.

Lemma SFltb_leb (x y : spec_float) : SFltb x y = true -> SFleb x y = true.
Proof.
  unfold SFleb, SFltb. destruct (SFcompare x y) as [[ | | ] | ]; congruence.
Qed.

Lemma SFleb_refl_finite (s : bool) (m : positive) (e : Z) :
  SFleb (S754_finite s m e) (S754_finite s m e) = true.
Proof.
  destruct s; [apply SFleb_finite_true | apply SFleb_finite_false]; right; split; lia.
Qed.

Section Monotone.
Variables prec emax : Z.
Hypothesis Hprec : 0 < prec.

Lemma digits2_pos_le_of_lt_pow (M : positive) (k : Z) :
  0 <= k -> Zpos M < 2 ^ k -> Zpos (digits2_pos M) <= k.
Proof.
  intros Hk HM. pose proof (digits2_pos_bounds M) as [Lo _].
  destruct (Z_le_gt_dec (Zpos (digits2_pos M)) k) as [H | H]; [exact H | ].
  assert (2 ^ k <= 2 ^ (Zpos (digits2_pos M) - 1)) by (apply Z.pow_le_mono_r; lia). lia.
Qed.

Lemma finish_cases (s : bool) (M t : Z) :
  emin prec emax <= t -> 0 <= M <= 2 ^ prec ->
  finish_result prec emax s M t (finish prec emax s M t).
Proof.
  intros Ht HM.
  assert (Hp1 : 0 < 2 ^ (prec - 1)) by (apply Z.pow_pos_nonneg; lia).
  assert (Hp2 : 2 ^ prec = 2 * 2 ^ (prec - 1)).
  { rewrite <- Z.pow_succ_r by lia. f_equal. lia. }
  destruct (Z.eq_dec M 0) as [E0 | N0].
  - subst M. rewrite finish_zero. constructor. reflexivity.
  - destruct (Z.eq_dec M (2 ^ prec)) as [E | NE].
    + subst M. rewrite finish_carry by (exact Hprec || exact Ht).
      destruct (Z.leb_spec (t + 1) (emax - prec)).
      * apply fr_carry; [reflexivity | rewrite Z2Pos.id by lia; reflexivity | assumption].
      * apply fr_inf; lia.
    + destruct M as [ | M' | M']; try lia.
      rewrite finish_small by (try exact Ht; apply digits2_pos_le_of_lt_pow; lia).
      destruct (Z.leb_spec t (emax - prec)).
      * apply fr_finite; [reflexivity | lia | assumption].
      * apply fr_inf; lia.
Qed.

Lemma finish_mono (M M' t t' : Z) :
  emin prec emax <= t -> emin prec emax <= t' ->
  0 <= M <= 2 ^ prec -> 0 <= M' <= 2 ^ prec ->
  (t = t' /\ M <= M') \/ (t < t' /\ 2 ^ (prec - 1) <= M') ->
  SFleb (finish prec emax false M t) (finish prec emax false M' t') = true /\
  SFleb (finish prec emax true M' t') (finish prec emax true M t) = true.
Proof.
  intros Ht Ht' HM HM' Hord.
  assert (Hp1 : 0 < 2 ^ (prec - 1)) by (apply Z.pow_pos_nonneg; lia).
  assert (Hp2 : 2 ^ prec = 2 * 2 ^ (prec - 1)).
  { rewrite <- Z.pow_succ_r by lia. f_equal. lia. }
  split.
  - destruct (finish_cases false M t Ht HM) as [E | P E L B | P E E' B | P L1 L2];
      destruct (finish_cases false M' t' Ht' HM') as [F | Q F K C | Q F F' C | Q K1 K2];
      try reflexivity; try lia; apply SFleb_finite_false; lia.
  - destruct (finish_cases true M t Ht HM) as [E | P E L B | P E E' B | P L1 L2];
      destruct (finish_cases true M' t' Ht' HM') as [F | Q F K C | Q F F' C | Q K1 K2];
      try reflexivity; try lia; apply SFleb_finite_true; lia.
Qed.

(** Rounding is monotone. *)
Lemma binary_round_mono (m m' : positive) (e : Z) :
  (m <= m')%positive ->
  SFleb (binary_round prec emax false m e) (binary_round prec emax false m' e) = true /\
  SFleb (binary_round prec emax true m' e) (binary_round prec emax true m e) = true.
Proof.
  intros Hm. rewrite !binary_round_struct.
  pose proof (digits2_pos_le m m' Hm) as Hd.
  set (d := Zpos (digits2_pos m)) in *. set (d' := Zpos (digits2_pos m')) in *.
  pose proof (fexp_mono prec emax (d + e) (d' + e) ltac:(lia)) as Hf.
  apply finish_mono; try apply fexp_lower; try (apply rnd_shift_le_pow; exact Hprec).
  destruct (Z.eq_dec (fexp prec emax (d + e)) (fexp prec emax (d' + e))) as [E | NE].
  - left. split; [exact E | ]. rewrite E. apply rnd_shift_mono. lia.
  - right. split; [lia | ]. apply rnd_shift_ge_pow; [exact Hprec | ].
    fold d'. rewrite !fexp_spec in *. lia.
Qed.

Lemma binary_round_sign (s : bool) (m : positive) (e : Z) :
  match binary_round prec emax s m e with
  | S754_zero s' | S754_infinity s' | S754_finite s' _ _ => s' = s
  | S754_nan => False
  end.
Proof.
  rewrite binary_round_struct.
  destruct (finish_cases s _ _ (fexp_lower prec emax (Zpos (digits2_pos m) + e))
              (rnd_shift_le_pow prec emax Hprec m e));
    reflexivity.
Qed.

Lemma binary_normalize_mono (M M' e : Z) :
  M <= M' ->
  SFleb (binary_normalize prec emax M e false) (binary_normalize prec emax M' e false) = true.
Proof.
  intros HM.
  destruct M as [ | m | m], M' as [ | m' | m']; try lia; cbn [binary_normalize].
  - reflexivity.
  - pose proof (binary_round_sign false m' e) as S.
    destruct (binary_round prec emax false m' e); try contradiction; subst; reflexivity.
  - apply binary_round_mono. lia.
  - pose proof (binary_round_sign true m e) as S.
    destruct (binary_round prec emax true m e); try contradiction; subst; reflexivity.
  - pose proof (binary_round_sign true m e) as S. pose proof (binary_round_sign false m' e) as S'.
    destruct (binary_round prec emax true m e); try contradiction; subst;
      destruct (binary_round prec emax false m' e); try contradiction; subst; reflexivity.
  - apply binary_round_mono. lia.
Qed.
End Monotone.

Section Exact.
Variables prec emax : Z.
Hypothesis Hprec : 0 < prec.

(** Rounding sees the value only: a mantissa with [k] more zero bits at an
    exponent lower by [k] rounds alike. *)
Lemma binary_round_scale (s : bool) (m m' : positive) (e k : Z) :
  0 <= k -> Zpos m' = Zpos m * 2 ^ k ->
  binary_round prec emax s m' (e - k) = binary_round prec emax s m e.
Proof.
  intros Hk Hm. rewrite !binary_round_struct.
  rewrite (digits2_pos_shift m m' k Hk Hm).
  replace (Zpos (digits2_pos m) + k + (e - k)) with (Zpos (digits2_pos m) + e) by lia.
  set (t := fexp prec emax (Zpos (digits2_pos m) + e)).
  replace (t - (e - k)) with ((t - e) + k) by lia.
  rewrite Hm, rnd_shift_scale by lia. reflexivity.
Qed.

(** A value that the format holds is returned as it is. *)
Lemma binary_round_exact (s : bool) (m : positive) (e : Z) :
  fexp prec emax (Zpos (digits2_pos m) + e) <= e ->
  fexp prec emax (Zpos (digits2_pos m) + e) <= emax - prec ->
  binary_round prec emax s m e =
  S754_finite s (Z.to_pos (Zpos m * 2 ^ (e - fexp prec emax (Zpos (digits2_pos m) + e))))
    (fexp prec emax (Zpos (digits2_pos m) + e)).
Proof.
  intros Hle Hmax. rewrite binary_round_struct.
  set (t := fexp prec emax (Zpos (digits2_pos m) + e)) in *.
  assert (Hr : rnd_shift (Zpos m) (t - e) = Zpos m * 2 ^ (e - t)).
  { destruct (Z.eq_dec t e) as [E | NE].
    - rewrite E, !Z.sub_diag, rnd_shift_0. cbn. lia.
    - rewrite rnd_shift_neg_shift by lia. f_equal. f_equal. lia. }
  rewrite Hr.
  assert (Hpos : 0 < Zpos m * 2 ^ (e - t)).
  { apply Z.mul_pos_pos; [lia | apply Z.pow_pos_nonneg; lia]. }
  destruct (Zpos m * 2 ^ (e - t)) as [ | M | M] eqn:EM; try lia.
  rewrite finish_small.
  - destruct (Z.leb_spec t (emax - prec)); [reflexivity | lia].
  - apply fexp_lower.
  - rewrite (digits2_pos_shift m M (e - t)) by (lia || (symmetry; exact EM)).
    unfold t. rewrite fexp_spec. lia.
Qed.

Lemma shl_align_fst (m : positive) (e e' : Z) :
  e' <= e -> Zpos (fst (shl_align m e e')) = Zpos m * 2 ^ (e - e').
Proof.
  intros H. destruct (Z.eq_dec e' e) as [E | NE].
  - rewrite shl_align_id by lia. rewrite E, Z.sub_diag. cbn. lia.
  - destruct (shl_align_spec m e e' ltac:(lia)) as [m' [-> Hm']]. exact Hm'.
Qed.

(** ** Integers that the format holds exactly *)

Hypothesis Hemax : prec < emax.

Lemma of_Z_form (n : positive) :
  Zpos n < 2 ^ prec ->
  binary_normalize prec emax (Zpos n) 0 false =
  S754_finite false (Z.to_pos (Zpos n * 2 ^ (prec - Zpos (digits2_pos n))))
    (Zpos (digits2_pos n) - prec).
Proof.
  intros Hn. cbn [binary_normalize].
  pose proof (digits2_pos_le_of_lt_pow n prec ltac:(lia) Hn) as Hd.
  assert (Ht : fexp prec emax (Zpos (digits2_pos n) + 0) = Zpos (digits2_pos n) - prec).
  { rewrite fexp_spec. unfold emin. lia. }
  rewrite binary_round_exact; rewrite Ht; try lia.
  replace (0 - (Zpos (digits2_pos n) - prec)) with (prec - Zpos (digits2_pos n)) by lia.
  reflexivity.
Qed.

Lemma of_Z_add (a b : Z) :
  0 <= a < 2 ^ prec -> 0 <= b < 2 ^ prec ->
  SFadd prec emax (binary_normalize prec emax a 0 false) (binary_normalize prec emax b 0 false) = binary_normalize prec emax (a + b) 0 false.
Proof.
  intros Ha Hb.
  destruct a as [ | a | a]; [ | | lia].
  { destruct b as [ | b | b]; [reflexivity | | lia].
    rewrite Z.add_0_l, (of_Z_form b) by lia. reflexivity. }
  destruct b as [ | b | b]; [ | | lia].
  { rewrite Z.add_0_r, (of_Z_form a) by lia. reflexivity. }
  rewrite (of_Z_form a), (of_Z_form b) by lia.
  pose proof (digits2_pos_le_of_lt_pow a prec ltac:(lia) ltac:(lia)) as Hda.
  pose proof (digits2_pos_le_of_lt_pow b prec ltac:(lia) ltac:(lia)) as Hdb.
  set (da := Zpos (digits2_pos a)) in *. set (db := Zpos (digits2_pos b)) in *.
  cbn [SFadd cond_Zopp].
  set (ez := Z.min (da - prec) (db - prec)).
  rewrite !shl_align_fst by (unfold ez; lia).
  assert (Pa : 0 < Zpos a * 2 ^ (prec - da)).
  { apply Z.mul_pos_pos; [lia | apply Z.pow_pos_nonneg; lia]. }
  assert (Pb : 0 < Zpos b * 2 ^ (prec - db)).
  { apply Z.mul_pos_pos; [lia | apply Z.pow_pos_nonneg; lia]. }
  rewrite !Z2Pos.id by lia.
  rewrite <- !Z.mul_assoc, <- !Z.pow_add_r by (unfold ez; lia).
  replace (prec - da + (da - prec - ez)) with (- ez) by lia.
  replace (prec - db + (db - prec - ez)) with (- ez) by lia.
  rewrite <- Z.mul_add_distr_r.
  assert (Ps : 0 < (Zpos a + Zpos b) * 2 ^ (- ez)).
  { apply Z.mul_pos_pos; [lia | apply Z.pow_pos_nonneg; unfold ez; lia]. }
  destruct ((Zpos a + Zpos b) * 2 ^ (- ez)) as [ | S | S] eqn:ES; try lia.
  cbn [binary_normalize Z.add].
  replace ez with (0 - (- ez)) at 1 by lia.
  apply binary_round_scale; [unfold ez; lia | ].
  rewrite <- ES, Pos2Z.inj_add. reflexivity.
Qed.

Lemma of_Z_leb (a b : Z) : a <= b -> SFleb (binary_normalize prec emax a 0 false) (binary_normalize prec emax b 0 false) = true.
Proof. intros H. apply binary_normalize_mono; assumption. Qed.

Lemma of_Z_ltb (a b : Z) :
  0 <= a < b -> b < 2 ^ prec -> SFltb (binary_normalize prec emax a 0 false) (binary_normalize prec emax b 0 false) = true.
Proof.
  intros Ha Hb.
  destruct b as [ | b | b]; try lia. rewrite (of_Z_form b) by lia.
  destruct a as [ | a | a]; [reflexivity | | lia]. rewrite (of_Z_form a) by lia.
  pose proof (digits2_pos_le a b ltac:(lia)) as Hd.
  pose proof (digits2_pos_le_of_lt_pow b prec ltac:(lia) Hb) as Hdb.
  set (da := Zpos (digits2_pos a)) in *. set (db := Zpos (digits2_pos b)) in *.
  apply SFltb_finite_false.
  destruct (Z.eq_dec da db) as [E | NE]; [right | left; lia].
  split; [lia | ]. rewrite E.
  assert (0 < 2 ^ (prec - db)) by (apply Z.pow_pos_nonneg; lia).
  assert (HZ : Zpos (Z.to_pos (Zpos a * 2 ^ (prec - db))) < Zpos (Z.to_pos (Zpos b * 2 ^ (prec - db))))
    by (rewrite !Z2Pos.id by nia; nia).
  exact HZ.
Qed.
End Exact.

(** * [float32] counters *)

Lemma F32_prec_pos : 0 < F32.prec.
Proof. reflexivity. Qed.

Lemma F64_prec_pos : 0 < F64.prec.
Proof. reflexivity. Qed.

Lemma F32_of_int_sign (n : Z) :
  0 <= n ->
  match F32.of_int n with
  | S754_zero s | S754_finite s _ _ | S754_infinity s => s = false
  | S754_nan => False
  end.
Proof.
  intros Hn. unfold F32.of_int. destruct n as [ | n | n]; [reflexivity | | lia].
  cbn [binary_normalize].
  pose proof (binary_round_sign F32.prec F32.emax F32_prec_pos false n 0) as S.
  destruct (binary_round F32.prec F32.emax false n 0); exact S.
Qed.

Lemma F32_of_int_neg_sign (n : Z) :
  n < 0 ->
  match F32.of_int n with
  | S754_zero s | S754_finite s _ _ | S754_infinity s => s = true
  | S754_nan => False
  end.
Proof.
  intros Hn. unfold F32.of_int. destruct n as [ | n | n]; try lia.
  cbn [binary_normalize].
  pose proof (binary_round_sign F32.prec F32.emax F32_prec_pos true n 0) as S.
  destruct (binary_round F32.prec F32.emax true n 0); exact S.
Qed.

Lemma F32_of_int_pos_finite (n : Z) :
  0 < n < 2 ^ 24 -> exists m e, F32.of_int n = S754_finite false m e /\ e <= 0.
Proof.
  intros Hn. destruct n as [ | n | n]; try lia. unfold F32.of_int.
  rewrite (of_Z_form F32.prec F32.emax F32_prec_pos ltac:(reflexivity) n) by (apply Hn).
  eexists. eexists. split; [reflexivity | ].
  pose proof (digits2_pos_le_of_lt_pow n 24 ltac:(lia) ltac:(apply Hn)). unfold F32.prec. lia.
Qed.

Lemma F32_add_zero_l (n : Z) : 0 <= n -> F32.add F32.zero (F32.of_int n) = F32.of_int n.
Proof.
  intros Hn. pose proof (F32_of_int_sign n Hn) as S.
  destruct (F32.of_int n) as [s | s | | s m e]; try contradiction; subst; reflexivity.
Qed.

(** The counter after one more step, while it is exact. *)
Lemma F32_add_counter (a b : Z) :
  0 <= a < 2 ^ 24 -> 0 <= b -> a = 0 \/ b < 2 ^ 24 ->
  F32.add (F32.of_int a) (F32.of_int b) = F32.of_int (a + b).
Proof.
  intros Ha Hb [E | Hlt].
  - subst a. apply F32_add_zero_l. exact Hb.
  - apply (of_Z_add F32.prec F32.emax F32_prec_pos ltac:(reflexivity)); [exact Ha | split; assumption].
Qed.

Lemma F32_ltb_counter (a b : Z) :
  0 <= a < b -> b <= 2 ^ 24 -> SFltb (F32.of_int a) (F32.of_int b) = true.
Proof.
  intros Ha Hb. destruct (Z.eq_dec b (2 ^ 24)) as [E | NE].
  - subst b. destruct (Z.eq_dec a 0) as [-> | Na]; [reflexivity | ].
    destruct (F32_of_int_pos_finite a ltac:(lia)) as [m [e [-> He]]].
    change (F32.of_int (2 ^ 24)) with (S754_finite false 8388608 1).
    apply SFltb_finite_false. clear - He. left. lia.
  - apply (of_Z_ltb F32.prec F32.emax F32_prec_pos ltac:(reflexivity)); [lia | ].
    change (2 ^ F32.prec) with (2 ^ 24). lia.
Qed.

Lemma F32_ltb_counter_false (a b : Z) :
  b <= a -> SFltb (F32.of_int a) (F32.of_int b) = false.
Proof.
  intros H. apply SFleb_not_ltb.
  apply (binary_normalize_mono F32.prec F32.emax F32_prec_pos). exact H.
Qed.

(** * Feature-map shapes *)

Lemma ceil_div_spec (a b k : Z) : 0 < b -> (k < ceil_div a b <-> k * b < a).
Proof.
  intros Hb. unfold ceil_div. split; intros H.
  - assert (Hk : k + 1 <= (a + b - 1) / b) by lia.
    pose proof (Z.mul_div_le (a + b - 1) b Hb). nia.
  - assert (k + 1 <= (a + b - 1) / b); [ | lia].
    apply Z.div_le_lower_bound; [exact Hb | nia].
Qed.

Lemma ceil_div_nonneg (a b : Z) : 0 < b -> 0 <= a -> 0 <= ceil_div a b.
Proof.
  intros Hb Ha. unfold ceil_div. apply Z.div_pos; lia.
Qed.

Lemma ceil_div_opp (a b : Z) : 0 < b -> - ((- a) / b) = ceil_div a b.
Proof.
  intros Hb. unfold ceil_div.
  pose proof (Z.div_mod (- a) b ltac:(lia)). pose proof (Z.mod_pos_bound (- a) b Hb).
  apply Z.div_unique with (r := b - 1 - (- a) mod b); lia.
Qed.

Lemma F32_of_f64_of_int (n : Z) :
  0 <= n < 2 ^ 53 -> F32.of_f64 (F64.of_int n) = F32.of_int n.
Proof.
  intros Hn. destruct n as [ | n | n]; [reflexivity | | lia].
  unfold F64.of_int.
  rewrite (of_Z_form F64.prec F64.emax F64_prec_pos ltac:(reflexivity) n) by (apply Hn).
  pose proof (digits2_pos_le_of_lt_pow n 53 ltac:(lia) ltac:(apply Hn)) as Hd.
  cbn [F32.of_f64]. unfold F32.of_int. cbn [binary_normalize].
  assert (P : 0 < Zpos n * 2 ^ (F64.prec - Zpos (digits2_pos n))).
  { apply Z.mul_pos_pos; [lia | apply Z.pow_pos_nonneg; unfold F64.prec; lia]. }
  replace (Zpos (digits2_pos n) - F64.prec) with (0 - (F64.prec - Zpos (digits2_pos n))) by lia.
  apply (binary_round_scale F32.prec F32.emax).
  - unfold F64.prec. lia.
  - rewrite Z2Pos.id by lia. reflexivity.
Qed.

(** Division of an integer by a power of two in [float64] is exact. *)
Lemma F64_div_pow2 (n : positive) (k : Z) :
  Zpos n < 2 ^ 53 -> 1 <= k <= 62 ->
  F64.div (F64.of_int (Zpos n)) (S754_finite false 4503599627370496 (k - 52)) =
  S754_finite false (Z.to_pos (Zpos n * 2 ^ (53 - Zpos (digits2_pos n))))
    (Zpos (digits2_pos n) - 53 - k).
Proof.
  intros Hn Hk. unfold F64.of_int.
  rewrite (of_Z_form F64.prec F64.emax F64_prec_pos ltac:(reflexivity) n) by (apply Hn).
  pose proof (digits2_pos_le_of_lt_pow n 53 ltac:(lia) Hn) as Hd.
  change F64.prec with 53.
  set (d := Zpos (digits2_pos n)) in *.
  assert (P : 0 < Zpos n * 2 ^ (53 - d)).
  { apply Z.mul_pos_pos; [lia | apply Z.pow_pos_nonneg; lia]. }
  destruct (Zpos n * 2 ^ (53 - d)) as [ | M | M] eqn:EM; try lia.
  cbn [Z.to_pos].
  assert (HdM : Zpos (digits2_pos M) = 53).
  { rewrite (digits2_pos_shift n M (53 - d)) by (lia || (symmetry; exact EM)). fold d. lia. }
  unfold F64.div. cbn [SFdiv xorb]. unfold SFdiv_core_binary.
  cbn [Zdigits2]. rewrite HdM.
  change (Zpos (digits2_pos 4503599627370496)) with 53.
  replace (53 + (d - 53) - (53 + (k - 52))) with (d - 53 - k + 52) by lia.
  replace (d - 53 - (k - 52)) with (d - 53 - k + 52) by lia.
  assert (Hf : fexp F64.prec F64.emax (d - 53 - k + 52) = d - 53 - k - 1).
  { rewrite fexp_spec. unfold emin, F64.prec, F64.emax. unfold d. lia. }
  rewrite Hf.
  replace (Z.min (d - 53 - k - 1) (d - 53 - k + 52)) with (d - 53 - k - 1) by lia.
  replace (d - 53 - k + 52 - (d - 53 - k - 1)) with 53 by lia.
  cbv iota. rewrite Z.shiftl_mul_pow2 by lia.
  assert (Hq : Z.div_eucl (Zpos M * 2 ^ 53) 4503599627370496 = (Zpos (xO M), 0)).
  { pose proof (Z.div_eucl_eq (Zpos M * 2 ^ 53) 4503599627370496 ltac:(lia)) as E.
    pose proof (Z.mod_pos_bound (Zpos M * 2 ^ 53) 4503599627370496 ltac:(lia)) as B.
    unfold Z.modulo in B.
    destruct (Z.div_eucl (Zpos M * 2 ^ 53) 4503599627370496) as [q r].
    change (2 ^ 53) with (2 * 4503599627370496) in E.
    assert (q = Zpos (xO M) /\ r = 0) as [-> ->] by (rewrite Pos2Z.inj_xO; nia). reflexivity. }
  rewrite Hq. change (new_location 4503599627370496 0) with loc_Exact.
  (* the quotient has one bit too many: it is shifted back by one *)
  assert (Hs : shl_align (xO M) (d - 53 - k - 1)
                 (fexp F64.prec F64.emax (Zpos (digits2_pos (xO M)) + (d - 53 - k - 1)))
               = ((xO M), d - 53 - k - 1)).
  { apply shl_align_id. cbn [digits2_pos]. rewrite Pos2Z.inj_succ, HdM, fexp_spec.
    unfold F64.prec. lia. }
  pose proof (f_equal (fun '(mz, ez) => binary_round_aux F64.prec F64.emax false (Zpos mz) ez loc_Exact) Hs) as Hb.
  cbv beta in Hb. fold (binary_round F64.prec F64.emax false (xO M) (d - 53 - k - 1)) in Hb.
  rewrite <- Hb.
  replace (d - 53 - k - 1) with ((d - 53 - k) - 1) by lia.
  rewrite (binary_round_scale F64.prec F64.emax false M (xO M) (d - 53 - k) 1)
    by (lia || (rewrite Pos2Z.inj_xO; lia)).
  rewrite (binary_round_exact F64.prec F64.emax);
    rewrite HdM, fexp_spec; unfold emin, F64.prec, F64.emax; try (unfold d; lia).
  replace (Z.max (53 + (d - 53 - k) - 53) (3 - 1024 - 53)) with (d - 53 - k) by (unfold d; lia).
  rewrite Z.sub_diag. change (2 ^ 0) with 1. rewrite Z.mul_1_r. reflexivity.
Qed.

Lemma shape_entry (n s k : Z) :
  0 <= n < 2 ^ 53 -> 1 <= k <= 62 ->
  F64.of_int s = S754_finite false 4503599627370496 (k - 52) -> s = 2 ^ k ->
  F32.of_f64 (F64.ceil (F64.div (F64.of_int n) (F64.of_int s))) = F32.of_int (ceil_div n s).
Proof.
  intros Hn Hk Hs Es. rewrite Hs. destruct n as [ | n | n]; [ | | lia].
  { unfold ceil_div. rewrite Z.div_small; [reflexivity | ].
    subst s. assert (2 ^ 1 <= 2 ^ k) by (apply Z.pow_le_mono_r; lia). lia. }
  rewrite F64_div_pow2 by (lia || apply Hn).
  pose proof (digits2_pos_le_of_lt_pow n 53 ltac:(lia) ltac:(apply Hn)) as Hd.
  set (d := Zpos (digits2_pos n)) in *.
  assert (Hc : 0 < 2 ^ (53 - d)) by (apply Z.pow_pos_nonneg; lia).
  assert (Hsk : 0 < 2 ^ k) by (apply Z.pow_pos_nonneg; lia).
  cbn [F64.ceil]. destruct (Z.leb_spec 0 (d - 53 - k)) as [Hle | Hlt]; [lia | ].
  cbn [cond_Zopp]. rewrite Z2Pos.id by nia.
  replace (- (d - 53 - k)) with (k + (53 - d)) by lia.
  rewrite Z.pow_add_r by lia.
  replace (- (Zpos n * 2 ^ (53 - d))) with ((- Zpos n) * 2 ^ (53 - d)) by lia.
  rewrite Z.div_mul_cancel_r by lia.
  rewrite ceil_div_opp by lia. rewrite <- Es.
  fold (F64.of_int (ceil_div (Zpos n) s)).
  apply F32_of_f64_of_int.
  split; [apply ceil_div_nonneg; lia | ].
  assert (ceil_div (Zpos n) s <= Zpos n); [ | lia].
  assert (~ (Zpos n < ceil_div (Zpos n) s)); [ | lia].
  rewrite ceil_div_spec by lia. nia.
Qed.

(** * The loops of generateAnchors *)

Lemma colLoop_S (fuel : nat) (heights widths shape : list spec_float)
    (featureStride anchorStride : Z) (j i : spec_float) (boxes : list box) :
  colLoop (S fuel) heights widths shape featureStride anchorStride j i boxes =
  (s1 <- index shape 1 ;;
   if SFltb i s1 then
     colLoop fuel heights widths shape featureStride anchorStride j
       (F32.add i (F32.of_int anchorStride))
       (boxes ++ cellBoxes heights widths featureStride j i)
   else Ret boxes).
Proof. reflexivity. Qed.

Lemma rowLoop_S (fuel : nat) (heights widths shape : list spec_float)
    (featureStride anchorStride : Z) (j : spec_float) (boxes : list box) :
  rowLoop (S fuel) heights widths shape featureStride anchorStride j boxes =
  (s0 <- index shape 0 ;;
   if SFltb j s0 then
     boxes' <- colLoop fuel heights widths shape featureStride anchorStride j F32.zero boxes ;;
     rowLoop fuel heights widths shape featureStride anchorStride
       (F32.add j (F32.of_int anchorStride)) boxes'
   else Ret boxes).
Proof. reflexivity. Qed.

Lemma counter_step (k : nat) (anchorStride bound : Z) :
  1 <= anchorStride -> bound <= 2 ^ 24 -> Z.of_nat k * anchorStride < bound ->
  F32.add (F32.of_int (Z.of_nat k * anchorStride)) (F32.of_int anchorStride) =
  F32.of_int (Z.of_nat (S k) * anchorStride).
Proof.
  intros Hs Hb Hk. rewrite F32_add_counter.
  - f_equal. lia.
  - nia.
  - lia.
  - destruct k as [ | k]; [left; reflexivity | right; nia].
Qed.

Section Grid.
Variables (heights widths rest : list spec_float) (featureStride anchorStride : Z).
Variables (rows cols : Z).
Hypothesis Hstride : 1 <= anchorStride.
Hypothesis Hrows : 0 <= rows <= 2 ^ 24.
Hypothesis Hcols : 0 <= cols <= 2 ^ 24.

Lemma colLoop_run (j : spec_float) (r : nat) :
  forall (k : nat) (boxes : list box) (fuel : nat),
    (r < fuel)%nat -> Z.of_nat (k + r) = ceil_div cols anchorStride ->
    colLoop fuel heights widths (F32.of_int rows :: F32.of_int cols :: rest)
      featureStride anchorStride j (F32.of_int (Z.of_nat k * anchorStride)) boxes =
    Ret (boxes ++ flat_map (cellBoxes heights widths featureStride j) (counters_from anchorStride k r)).
Proof.
  induction r as [ | r IH]; intros k boxes fuel Hfuel Hk;
    (destruct fuel as [ | fuel]; [lia | ]); rewrite colLoop_S; cbn [index nth_error bind].
  - rewrite F32_ltb_counter_false.
    + cbn. rewrite app_nil_r. reflexivity.
    + assert (~ (Z.of_nat k < ceil_div cols anchorStride)) as N by lia.
      rewrite ceil_div_spec in N by lia. lia.
  - assert (Hlt : Z.of_nat k * anchorStride < cols).
    { apply ceil_div_spec; lia. }
    rewrite F32_ltb_counter by nia.
    rewrite (counter_step k anchorStride cols) by lia.
    rewrite IH by lia. unfold counters_from. cbn [seq map flat_map].
    rewrite <- app_assoc. reflexivity.
Qed.

Lemma rowLoop_run (r : nat) :
  forall (k : nat) (boxes : list box) (fuel : nat),
    (r + Z.to_nat (ceil_div cols anchorStride) < fuel)%nat ->
    Z.of_nat (k + r) = ceil_div rows anchorStride ->
    rowLoop fuel heights widths (F32.of_int rows :: F32.of_int cols :: rest)
      featureStride anchorStride (F32.of_int (Z.of_nat k * anchorStride)) boxes =
    Ret (boxes ++ gridAnchors heights widths featureStride
                    (counters_from anchorStride k r) (counters cols anchorStride)).
Proof.
  pose proof (ceil_div_nonneg cols anchorStride ltac:(lia) ltac:(lia)) as Hc.
  induction r as [ | r IH]; intros k boxes fuel Hfuel Hk;
    (destruct fuel as [ | fuel]; [lia | ]); rewrite rowLoop_S; cbn [index nth_error bind].
  - rewrite F32_ltb_counter_false.
    + unfold gridAnchors. cbn. rewrite app_nil_r. reflexivity.
    + assert (~ (Z.of_nat k < ceil_div rows anchorStride)) as N by lia.
      rewrite ceil_div_spec in N by lia. lia.
  - assert (Hlt : Z.of_nat k * anchorStride < rows).
    { apply ceil_div_spec; lia. }
    rewrite F32_ltb_counter by nia.
    change F32.zero with (F32.of_int (Z.of_nat 0 * anchorStride)).
    rewrite (colLoop_run _ (Z.to_nat (ceil_div cols anchorStride)) 0) by lia.
    cbn [bind]. rewrite (counter_step k anchorStride rows) by lia.
    rewrite IH by lia. unfold gridAnchors, counters. unfold counters_from at 3.
    cbn [seq map flat_map]. rewrite <- app_assoc. reflexivity.
Qed.
End Grid.

(** * Boxes and visited cells *)

Lemma colCells_S (fuel : nat) (shape : list spec_float) (anchorStride : Z)
    (j i : spec_float) (cells : list (spec_float * spec_float)) :
  colCells (S fuel) shape anchorStride j i cells =
  (s1 <- index shape 1 ;;
   if SFltb i s1 then
     colCells fuel shape anchorStride j (F32.add i (F32.of_int anchorStride))
       (cells ++ [(j, i)])
   else Ret cells).
Proof. reflexivity. Qed.

Lemma rowCells_S (fuel : nat) (shape : list spec_float) (anchorStride : Z)
    (j : spec_float) (cells : list (spec_float * spec_float)) :
  rowCells (S fuel) shape anchorStride j cells =
  (s0 <- index shape 0 ;;
   if SFltb j s0 then
     cells' <- colCells fuel shape anchorStride j F32.zero cells ;;
     rowCells fuel shape anchorStride (F32.add j (F32.of_int anchorStride)) cells'
   else Ret cells).
Proof. reflexivity. Qed.

Lemma cellsBoxes_app (heights widths : list spec_float) (featureStride : Z)
    (c1 c2 : list (spec_float * spec_float)) :
  cellsBoxes heights widths featureStride (c1 ++ c2) =
  cellsBoxes heights widths featureStride c1 ++ cellsBoxes heights widths featureStride c2.
Proof. unfold cellsBoxes. apply flat_map_app. Qed.

Lemma cellsBoxes_length (heights widths : list spec_float) (featureStride : Z)
    (cells : list (spec_float * spec_float)) :
  length (cellsBoxes heights widths featureStride cells) = (3 * length cells)%nat.
Proof.
  induction cells as [ | c cells IH]; [reflexivity | ].
  unfold cellsBoxes in *. cbn [flat_map]. rewrite length_app, IH.
  unfold cellBoxes. cbn [map length]. lia.
Qed.

Section Cells.
Variables (heights widths shape : list spec_float) (featureStride anchorStride : Z).

Lemma colLoop_cells (j : spec_float) (fuel : nat) :
  forall (i : spec_float) (cells : list (spec_float * spec_float)),
    colLoop fuel heights widths shape featureStride anchorStride j i (cellsBoxes heights widths featureStride cells) =
    (cs <- colCells fuel shape anchorStride j i cells ;; Ret (cellsBoxes heights widths featureStride cs)).
Proof.
  induction fuel as [ | fuel IH]; intros i cells; [reflexivity | ].
  rewrite colLoop_S, colCells_S.
  destruct (index shape 1) as [s1 | | | ]; cbn [bind]; try reflexivity.
  destruct (SFltb i s1); [ | reflexivity].
  rewrite <- IH. f_equal. rewrite cellsBoxes_app. reflexivity.
Qed.

Lemma rowLoop_cells (fuel : nat) :
  forall (j : spec_float) (cells : list (spec_float * spec_float)),
    rowLoop fuel heights widths shape featureStride anchorStride j (cellsBoxes heights widths featureStride cells) =
    (cs <- rowCells fuel shape anchorStride j cells ;; Ret (cellsBoxes heights widths featureStride cs)).
Proof.
  induction fuel as [ | fuel IH]; intros j cells; [reflexivity | ].
  rewrite rowLoop_S, rowCells_S.
  destruct (index shape 0) as [s0 | | | ]; cbn [bind]; try reflexivity.
  destruct (SFltb j s0); [ | reflexivity].
  rewrite colLoop_cells.
  destruct (colCells fuel shape anchorStride j F32.zero cells) as [cs | | | ];
    cbn [bind]; try reflexivity.
  apply IH.
Qed.
End Cells.

(** generateAnchors is its visited cells, three boxes for each. *)
Lemma generateAnchors_cells (fuel : nat) (scales : Z) (r0 r1 r2 : spec_float)
    (more shape : list spec_float) (featureStride anchorStride : Z) :
  generateAnchors fuel scales (r0 :: r1 :: r2 :: more) shape featureStride anchorStride =
  (cs <- visitedCells fuel shape anchorStride ;;
   Ret (cellsBoxes (map (anchorHeight scales) [r0; r1; r2])
          (map (anchorWidth scales) [r0; r1; r2]) featureStride cs)).
Proof.
  unfold generateAnchors, visitedCells. cbn [index nth_error bind map].
  apply (rowLoop_cells _ _ shape featureStride anchorStride fuel F32.zero []).
Qed.

Lemma generateAnchors_short_ratios (fuel : nat) (scales : Z) (ratios shape : list spec_float)
    (featureStride anchorStride : Z) :
  (length ratios < 3)%nat ->
  generateAnchors fuel scales ratios shape featureStride anchorStride = Panic.
Proof.
  intros H. unfold generateAnchors.
  destruct ratios as [ | r0 [ | r1 [ | r2 more]]]; cbn in H; try lia; reflexivity.
Qed.

(** ** What the loops can end in *)

Lemma colCells_not_Fail (shape : list spec_float) (anchorStride : Z) (j : spec_float)
    (fuel : nat) :
  forall i cells, colCells fuel shape anchorStride j i cells <> Fail.
Proof.
  induction fuel as [ | fuel IH]; intros i cells; [discriminate | ].
  rewrite colCells_S. destruct (index shape 1) as [s1 | | | ] eqn:E; cbn [bind];
    try discriminate.
  - destruct (SFltb i s1); [apply IH | discriminate].
  - unfold index in E. destruct (nth_error shape 1); discriminate.
Qed.

Lemma rowCells_not_Fail (shape : list spec_float) (anchorStride : Z) (fuel : nat) :
  forall j cells, rowCells fuel shape anchorStride j cells <> Fail.
Proof.
  induction fuel as [ | fuel IH]; intros j cells; [discriminate | ].
  rewrite rowCells_S. destruct (index shape 0) as [s0 | | | ] eqn:E; cbn [bind];
    try discriminate.
  - destruct (SFltb j s0); [ | discriminate].
    pose proof (colCells_not_Fail shape anchorStride j fuel F32.zero cells) as N.
    destruct (colCells fuel shape anchorStride j F32.zero cells); cbn [bind];
      try discriminate; [apply IH | contradiction].
  - unfold index in E. destruct (nth_error shape 0); discriminate.
Qed.

Lemma colCells_not_Panic (s0 s1 : spec_float) (rest : list spec_float) (anchorStride : Z)
    (j : spec_float) (fuel : nat) :
  forall i cells, colCells fuel (s0 :: s1 :: rest) anchorStride j i cells <> Panic.
Proof.
  induction fuel as [ | fuel IH]; intros i cells; [discriminate | ].
  rewrite colCells_S. cbn [index nth_error bind].
  destruct (SFltb i s1); [apply IH | discriminate].
Qed.

Lemma rowCells_not_Panic (s0 s1 : spec_float) (rest : list spec_float) (anchorStride : Z)
    (fuel : nat) :
  forall j cells, rowCells fuel (s0 :: s1 :: rest) anchorStride j cells <> Panic.
Proof.
  induction fuel as [ | fuel IH]; intros j cells; [discriminate | ].
  rewrite rowCells_S. cbn [index nth_error bind].
  destruct (SFltb j s0); [ | discriminate].
  pose proof (colCells_not_Panic s0 s1 rest anchorStride j fuel F32.zero cells) as N.
  destruct (colCells fuel (s0 :: s1 :: rest) anchorStride j F32.zero cells); cbn [bind];
    try discriminate; [apply IH | contradiction].
Qed.

(** ** Loops that do not end *)

(** A row counter below the bound that a step leaves where it is. *)
Lemma rowCells_stuck (s0 s1 : spec_float) (rest : list spec_float) (anchorStride : Z)
    (j : spec_float) :
  SFltb j s0 = true -> F32.add j (F32.of_int anchorStride) = j ->
  forall fuel cells, rowCells fuel (s0 :: s1 :: rest) anchorStride j cells = OutOfFuel.
Proof.
  intros Hlt Hfix. induction fuel as [ | fuel IH]; intros cells; [reflexivity | ].
  rewrite rowCells_S. cbn [index nth_error bind]. rewrite Hlt, Hfix.
  pose proof (colCells_not_Fail (s0 :: s1 :: rest) anchorStride j fuel F32.zero cells) as NF.
  pose proof (colCells_not_Panic s0 s1 rest anchorStride j fuel F32.zero cells) as NP.
  destruct (colCells fuel (s0 :: s1 :: rest) anchorStride j F32.zero cells); cbn [bind];
    try contradiction; [apply IH | reflexivity].
Qed.

(** With a bound of 2^25 or more and a step of one, the row counter stops
    at 2^24: 2^24 + 1 rounds back to 2^24. *)
Lemma rowCells_saturate (m0 : positive) (e0 : Z) (s1 : spec_float) (rest : list spec_float)
    (n : nat) :
  2 <= e0 ->
  forall k, k = 2 ^ 24 - Z.of_nat n -> 0 <= k ->
  forall fuel cells,
    rowCells fuel (S754_finite false m0 e0 :: s1 :: rest) 1 (F32.of_int k) cells = OutOfFuel.
Proof.
  intros He. induction n as [ | n IH]; intros k Hk Hk0.
  - replace k with (2 ^ 24) by lia. apply rowCells_stuck.
    + change (F32.of_int (2 ^ 24)) with (S754_finite false 8388608 1).
      apply SFltb_finite_false. lia.
    + reflexivity.
  - intros [ | fuel] cells; [reflexivity | ].
    rewrite rowCells_S. cbn [index nth_error bind].
    assert (Hlt : SFltb (F32.of_int k) (S754_finite false m0 e0) = true).
    { destruct (Z.eq_dec k 0) as [-> | Nz]; [reflexivity | ].
      destruct (F32_of_int_pos_finite k ltac:(lia)) as [m [e [-> Hle]]].
      apply SFltb_finite_false. lia. }
    rewrite Hlt.
    pose proof (colCells_not_Fail (S754_finite false m0 e0 :: s1 :: rest) 1 (F32.of_int k)
                  fuel F32.zero cells) as NF.
    pose proof (colCells_not_Panic (S754_finite false m0 e0) s1 rest 1 (F32.of_int k)
                  fuel F32.zero cells) as NP.
    destruct (colCells fuel (S754_finite false m0 e0 :: s1 :: rest) 1 (F32.of_int k)
                F32.zero cells); cbn [bind]; try contradiction; [ | reflexivity].
    rewrite F32_add_counter by lia. apply IH; lia.
Qed.

Lemma SFadd_nonpos (x y : spec_float) :
  nonpos x -> nonpos y -> nonpos (F32.add x y).
Proof.
  destruct x as [sx | sx | | sx mx ex], y as [sy | sy | | sy my ey]; cbn [nonpos];
    intros Hx Hy; try contradiction; subst; try exact I; try reflexivity.
  - destruct sx, sy; exact I.
  - unfold F32.add. cbn [SFadd cond_Zopp].
    set (A := Zpos (fst (shl_align mx ex (Z.min ex ey)))).
    set (B := Zpos (fst (shl_align my ey (Z.min ex ey)))).
    assert (HA : 0 < A) by (unfold A; lia). assert (HB : 0 < B) by (unfold B; lia).
    destruct (- A + - B) as [ | p | p] eqn:E; try lia.
    cbn [binary_normalize].
    pose proof (binary_round_sign F32.prec F32.emax F32_prec_pos true p (Z.min ex ey)) as S.
    destruct (binary_round F32.prec F32.emax true p (Z.min ex ey)); cbn [nonpos];
      try exact I; try exact S.
Qed.

Lemma F32_of_int_nonpos (n : Z) : n <= 0 -> nonpos (F32.of_int n).
Proof.
  intros H. destruct (Z.eq_dec n 0) as [-> | N]; [exact I | ].
  pose proof (F32_of_int_neg_sign n ltac:(lia)) as S.
  destruct (F32.of_int n); cbn [nonpos]; try exact I; exact S.
Qed.

Lemma F32_of_int_positive (n : Z) : 1 <= n -> positive_value (F32.of_int n).
Proof.
  intros H.
  pose proof (binary_normalize_mono F32.prec F32.emax F32_prec_pos 1 n 0 H) as L.
  pose proof (F32_of_int_sign n ltac:(lia)) as S.
  fold (F32.of_int n) in L. destruct (F32.of_int n) as [s | s | | s m e];
    cbn [positive_value]; try exact S; try contradiction.
  subst s. discriminate L.
Qed.

Lemma SFltb_nonpos_positive (x y : spec_float) :
  nonpos x -> positive_value y -> SFltb x y = true.
Proof.
  destruct x as [sx | sx | | sx mx ex], y as [sy | sy | | sy my ey];
    cbn [nonpos positive_value]; intros Hx Hy; try contradiction; subst; try reflexivity.
Qed.

(** A column counter that never gets above zero, under a bound above zero. *)
Lemma colCells_nonpos (s0 s1 : spec_float) (rest : list spec_float) (anchorStride : Z)
    (j : spec_float) :
  anchorStride <= 0 -> positive_value s1 ->
  forall fuel i cells,
    nonpos i -> colCells fuel (s0 :: s1 :: rest) anchorStride j i cells = OutOfFuel.
Proof.
  intros Hs Hpos. induction fuel as [ | fuel IH]; intros i cells Hi; [reflexivity | ].
  rewrite colCells_S. cbn [index nth_error bind].
  rewrite SFltb_nonpos_positive by assumption.
  apply IH. apply SFadd_nonpos; [exact Hi | apply F32_of_int_nonpos; exact Hs].
Qed.

(** * Signs of the anchor sizes, order of the box corners *)

Lemma binary_round_aux_sign (prec emax : Z) (s : bool) (m e : Z) (l : location) :
  match binary_round_aux prec emax s m e l with
  | S754_zero s' | S754_finite s' _ _ | S754_infinity s' => s' = s
  | S754_nan => True
  end.
Proof.
  unfold binary_round_aux.
  destruct (shr_fexp prec emax m e l) as [mrs' e'].
  destruct (shr_fexp prec emax (round_nearest_even (shr_m mrs') (loc_of_shr_record mrs')) e'
              loc_Exact) as [mrs'' e''].
  destruct (shr_m mrs''); [reflexivity | | exact I].
  destruct (e'' <=? emax - prec); reflexivity.
Qed.

Lemma F32_mul_nonneg (x y : spec_float) :
  nonneg_or_nan x -> nonneg_or_nan y -> nonneg_or_nan (F32.mul x y).
Proof.
  destruct x as [sx | sx | | sx mx ex], y as [sy | sy | | sy my ey]; cbn [nonneg_or_nan];
    intros Hx Hy; subst; try exact I; try reflexivity.
  unfold F32.mul. cbn [SFmul xorb].
  pose proof (binary_round_aux_sign F32.prec F32.emax false (Zpos (mx * my)) (ex + ey) loc_Exact) as S.
  destruct (binary_round_aux F32.prec F32.emax false (Zpos (mx * my)) (ex + ey) loc_Exact);
    cbn [nonneg_or_nan]; exact S.
Qed.

Lemma F32_div_nonneg (x y : spec_float) :
  nonneg_or_nan x -> nonneg_or_nan y -> nonneg_or_nan (F32.div x y).
Proof.
  destruct x as [sx | sx | | sx mx ex], y as [sy | sy | | sy my ey]; cbn [nonneg_or_nan];
    intros Hx Hy; subst; try exact I; try reflexivity.
  unfold F32.div. cbn [SFdiv xorb].
  destruct (SFdiv_core_binary F32.prec F32.emax (Zpos mx) ex (Zpos my) ey) as [[mz ez] lz].
  pose proof (binary_round_aux_sign F32.prec F32.emax false mz ez lz) as S.
  destruct (binary_round_aux F32.prec F32.emax false mz ez lz); cbn [nonneg_or_nan]; exact S.
Qed.

Lemma SFltb_zero_positive (r : spec_float) :
  SFltb F32.zero r = true -> positive_value r.
Proof.
  destruct r as [s | [ | ] | | [ | ] m e]; cbn; try discriminate; reflexivity.
Qed.

Lemma sqrt32_nonneg (r : spec_float) : positive_value r -> nonneg_or_nan (sqrt32 r).
Proof.
  destruct r as [s | s | | s m e]; cbn [positive_value]; intros H; try contradiction; subst.
  - reflexivity.
  - unfold sqrt32. cbn [F64.of_f32].
    pose proof (binary_round_sign F64.prec F64.emax F64_prec_pos false m e) as S.
    destruct (binary_round F64.prec F64.emax false m e) as [s | s | | s m' e'];
      try contradiction; subst; try reflexivity.
    unfold F64.sqrt. cbn [SFsqrt].
    destruct (SFsqrt_core_binary F64.prec F64.emax (Zpos m') e') as [[mz ez] lz].
    pose proof (binary_round_aux_sign F64.prec F64.emax false mz ez lz) as S.
    destruct (binary_round_aux F64.prec F64.emax false mz ez lz) as [s | s | | s m2 e2];
      subst; try reflexivity.
    cbn [F32.of_f64].
    pose proof (binary_round_sign F32.prec F32.emax F32_prec_pos false m2 e2) as S.
    destruct (binary_round F32.prec F32.emax false m2 e2); cbn [nonneg_or_nan];
      try exact I; exact S.
Qed.

Lemma F32_of_int_nonneg (n : Z) : 0 <= n -> nonneg_or_nan (F32.of_int n).
Proof.
  intros H. pose proof (F32_of_int_sign n H) as S.
  destruct (F32.of_int n); cbn [nonneg_or_nan]; try exact I; exact S.
Qed.

Lemma anchorHeight_nonneg (scales : Z) (r : spec_float) :
  0 <= scales -> positive_value r -> nonneg_or_nan (anchorHeight scales r).
Proof.
  intros Hs Hr. apply F32_div_nonneg; [apply F32_of_int_nonneg; exact Hs | apply sqrt32_nonneg; exact Hr].
Qed.

Lemma anchorWidth_nonneg (scales : Z) (r : spec_float) :
  0 <= scales -> positive_value r -> nonneg_or_nan (anchorWidth scales r).
Proof.
  intros Hs Hr. apply F32_mul_nonneg; [apply F32_of_int_nonneg; exact Hs | apply sqrt32_nonneg; exact Hr].
Qed.

(** [c - a <= c + a] for a size [a] that is not negative, unless one side is
    not a number. *)
Lemma corner_order (c a : spec_float) :
  nonneg_or_nan a ->
  is_nan (F32.sub c a) = false -> is_nan (F32.add c a) = false ->
  SFleb (F32.sub c a) (F32.add c a) = true.
Proof.
  destruct c as [sc | sc | | sc mc ec], a as [sa | sa | | sa ma ea]; cbn [nonneg_or_nan];
    intros Ha N1 N2; subst; try discriminate N1; try discriminate N2;
    try (destruct sc; try discriminate N1; try discriminate N2; reflexivity).
  - apply SFleb_refl_finite.
  - unfold F32.sub, F32.add. cbn [SFsub SFadd]. cbn [cond_Zopp].
    apply (binary_normalize_mono F32.prec F32.emax F32_prec_pos). lia.
Qed.

Lemma anchorBox_ordered (featureStride : Z) (j i h w : spec_float) :
  nonneg_or_nan h -> nonneg_or_nan w ->
  box_has_nan (anchorBox featureStride j i h w) = false ->
  box_ordered (anchorBox featureStride j i h w) = true.
Proof.
  intros Hh Hw. unfold box_has_nan, box_ordered, anchorBox.
  cbn [box_y1 box_x1 box_y2 box_x2]. intros N.
  apply orb_false_iff in N. destruct N as [N Nx2].
  apply orb_false_iff in N. destruct N as [N Ny2].
  apply orb_false_iff in N. destruct N as [Ny1 Nx1].
  assert (Hhalf : nonneg_or_nan F32.half) by reflexivity.
  rewrite !corner_order; try assumption; try reflexivity; apply F32_mul_nonneg; assumption.
Qed.

Lemma In_cellBoxes (heights widths : list spec_float) (featureStride : Z)
    (j i : spec_float) (b : box) :
  In b (cellBoxes heights widths featureStride j i) ->
  exists k, (k < 3)%nat /\
    b = anchorBox featureStride j i (nth k heights S754_nan) (nth k widths S754_nan).
Proof.
  unfold cellBoxes. cbn [map In]. intros [H | [H | [H | []]]]; subst b;
    [exists 0%nat | exists 1%nat | exists 2%nat]; split; try lia; reflexivity.
Qed.

(** * Sizes of a scale that is not positive *)

Lemma nonpos_not_above (x : spec_float) : nonpos x -> not_above_zero x.
Proof. destruct x; cbn [nonpos not_above_zero]; intros H; try exact I; exact H. Qed.

Lemma F32_mul_not_above (x y : spec_float) :
  not_above_zero x -> nonneg_or_nan y ->
  not_above_zero (F32.mul x y) /\ not_above_zero (F32.mul y x).
Proof.
  destruct x as [sx | sx | | sx mx ex], y as [sy | sy | | sy my ey];
    cbn [not_above_zero nonneg_or_nan]; intros Hx Hy; subst; split; try exact I;
    try reflexivity.
  - unfold F32.mul. cbn [SFmul xorb].
    pose proof (binary_round_aux_sign F32.prec F32.emax true (Zpos (mx * my)) (ex + ey)
                  loc_Exact) as S.
    destruct (binary_round_aux F32.prec F32.emax true (Zpos (mx * my)) (ex + ey) loc_Exact);
      cbn [not_above_zero]; try exact I; exact S.
  - unfold F32.mul. cbn [SFmul xorb].
    pose proof (binary_round_aux_sign F32.prec F32.emax true (Zpos (my * mx)) (ey + ex)
                  loc_Exact) as S.
    destruct (binary_round_aux F32.prec F32.emax true (Zpos (my * mx)) (ey + ex) loc_Exact);
      cbn [not_above_zero]; try exact I; exact S.
Qed.

Lemma F32_div_not_above (x y : spec_float) :
  not_above_zero x -> nonneg_or_nan y -> not_above_zero (F32.div x y).
Proof.
  destruct x as [sx | sx | | sx mx ex], y as [sy | sy | | sy my ey];
    cbn [not_above_zero nonneg_or_nan]; intros Hx Hy; subst; try exact I; try reflexivity.
  unfold F32.div. cbn [SFdiv xorb].
  destruct (SFdiv_core_binary F32.prec F32.emax (Zpos mx) ex (Zpos my) ey) as [[mz ez] lz].
  pose proof (binary_round_aux_sign F32.prec F32.emax true mz ez lz) as S.
  destruct (binary_round_aux F32.prec F32.emax true mz ez lz); cbn [not_above_zero];
    try exact I; exact S.
Qed.

Lemma anchorHeight_not_above (scales : Z) (r : spec_float) :
  scales <= 0 -> positive_value r -> not_above_zero (anchorHeight scales r).
Proof.
  intros Hs Hr. apply F32_div_not_above;
    [apply nonpos_not_above, F32_of_int_nonpos; exact Hs | apply sqrt32_nonneg; exact Hr].
Qed.

Lemma anchorWidth_not_above (scales : Z) (r : spec_float) :
  scales <= 0 -> positive_value r -> not_above_zero (anchorWidth scales r).
Proof.
  intros Hs Hr.
  apply (proj1 (F32_mul_not_above (F32.of_int scales) (sqrt32 r)
                  (nonpos_not_above _ (F32_of_int_nonpos scales Hs)) (sqrt32_nonneg r Hr))).
Qed.

(** [c + a <= c - a] for a size [a] that is not above zero, unless one side
    is not a number. *)
Lemma corner_order_rev (c a : spec_float) :
  not_above_zero a ->
  is_nan (F32.sub c a) = false -> is_nan (F32.add c a) = false ->
  SFleb (F32.add c a) (F32.sub c a) = true.
Proof.
  destruct c as [sc | sc | | sc mc ec], a as [sa | sa | | sa ma ea]; cbn [not_above_zero];
    intros Ha N1 N2; subst; try discriminate N1; try discriminate N2;
    try (destruct sc; try discriminate N1; try discriminate N2; reflexivity);
    try (destruct sc, sa; try discriminate N1; try discriminate N2; reflexivity);
    try apply SFleb_refl_finite.
  unfold F32.sub, F32.add. cbn [SFsub SFadd]. cbn [cond_Zopp].
  apply (binary_normalize_mono F32.prec F32.emax F32_prec_pos). lia.
Qed.

Lemma anchorBox_inverted (featureStride : Z) (j i h w : spec_float) :
  not_above_zero h -> not_above_zero w ->
  box_has_nan (anchorBox featureStride j i h w) = false ->
  box_inverted (anchorBox featureStride j i h w) = true.
Proof.
  intros Hh Hw. unfold box_has_nan, box_inverted, anchorBox.
  cbn [box_y1 box_x1 box_y2 box_x2]. intros N.
  apply orb_false_iff in N. destruct N as [N Nx2].
  apply orb_false_iff in N. destruct N as [N Ny2].
  apply orb_false_iff in N. destruct N as [Ny1 Nx1].
  assert (Hhalf : nonneg_or_nan F32.half) by reflexivity.
  rewrite !corner_order_rev; try assumption; try reflexivity.
  - apply (proj2 (F32_mul_not_above w F32.half Hw Hhalf)).
  - apply (proj2 (F32_mul_not_above h F32.half Hh Hhalf)).
Qed.

(** * Runs that end *)

Lemma generateAnchors_run (fuel : nat) (scales : Z) (ratios rest : list spec_float)
    (rows cols featureStride anchorStride : Z) :
  (3 <= length ratios)%nat ->
  1 <= anchorStride -> 0 <= rows <= 2 ^ 24 -> 0 <= cols <= 2 ^ 24 ->
  (Z.to_nat (ceil_div rows anchorStride) + Z.to_nat (ceil_div cols anchorStride) < fuel)%nat ->
  generateAnchors fuel scales ratios (F32.of_int rows :: F32.of_int cols :: rest)
    featureStride anchorStride =
  Ret (levelAnchors scales ratios rows cols featureStride anchorStride).
Proof.
  intros Hr Hs Hrows Hcols Hfuel.
  destruct ratios as [ | r0 [ | r1 [ | r2 more]]]; cbn [length] in Hr; try lia.
  unfold generateAnchors. cbn [index nth_error bind].
  change F32.zero with (F32.of_int (Z.of_nat 0 * anchorStride)).
  pose proof (ceil_div_nonneg rows anchorStride ltac:(lia) ltac:(lia)) as Hn.
  rewrite (rowLoop_run _ _ rest featureStride anchorStride rows cols Hs Hrows Hcols
             (Z.to_nat (ceil_div rows anchorStride)) 0) by lia.
  reflexivity.
Qed.

Lemma counters_from_length (anchorStride : Z) (k r : nat) :
  length (counters_from anchorStride k r) = r.
Proof. unfold counters_from. rewrite !length_map, length_seq. reflexivity. Qed.

Lemma gridAnchors_length (heights widths : list spec_float) (featureStride : Z)
    (rows cols : list spec_float) :
  length (gridAnchors heights widths featureStride rows cols) =
  (3 * (length rows * length cols))%nat.
Proof.
  unfold gridAnchors. induction rows as [ | j rows IH]; [cbn; lia | ].
  cbn [flat_map length]. rewrite length_app, IH.
  assert (E : length (flat_map (fun i => cellBoxes heights widths featureStride j i) cols)
              = (3 * length cols)%nat).
  { clear. induction cols as [ | i cols IH]; [reflexivity | ].
    cbn [flat_map]. rewrite length_app, IH. cbn [length cellBoxes map]. lia. }
  rewrite E. lia.
Qed.

Lemma levelAnchors_length (scales : Z) (ratios : list spec_float)
    (rows cols featureStride anchorStride : Z) :
  1 <= anchorStride -> 0 <= rows -> 0 <= cols ->
  Z.of_nat (length (levelAnchors scales ratios rows cols featureStride anchorStride)) =
  ceil_div rows anchorStride * ceil_div cols anchorStride * 3.
Proof.
  intros Hs Hr Hc. unfold levelAnchors, counters.
  rewrite gridAnchors_length, !counters_from_length.
  pose proof (ceil_div_nonneg rows anchorStride ltac:(lia) Hr).
  pose proof (ceil_div_nonneg cols anchorStride ltac:(lia) Hc).
  rewrite Nat2Z.inj_mul, Nat2Z.inj_mul, !Z2Nat.id by lia. simpl Z.of_nat. lia.
Qed.

Lemma ceil_div_le (a b c : Z) : 0 < b -> a <= b * c -> ceil_div a b <= c.
Proof.
  intros Hb H. assert (~ (c < ceil_div a b)); [ | lia].
  rewrite ceil_div_spec by lia. lia.
Qed.

Lemma ceil_div_1 (a : Z) : ceil_div a 1 = a.
Proof. unfold ceil_div. rewrite Z.div_1_r. lia. Qed.

(** The shapes of the five levels, for a height and a width that [float64]
    holds. *)
Lemma computeBackboneShapes_run (b : Rectangle) :
  0 <= Dy b < 2 ^ 53 -> 0 <= Dx b < 2 ^ 53 ->
  computeBackboneShapes b backboneStrides =
  map (fun s => [F32.of_int (ceil_div (Dy b) s); F32.of_int (ceil_div (Dx b) s)])
      backboneStrides.
Proof.
  intros Hy Hx. unfold computeBackboneShapes, backboneStrides. cbn [map].
  rewrite !(shape_entry _ 4 2), !(shape_entry _ 8 3), !(shape_entry _ 16 4),
    !(shape_entry _ 32 5), !(shape_entry _ 64 6) by (lia || reflexivity).
  reflexivity.
Qed.

Lemma getAnchors_run (b : Rectangle) (fuel : nat) :
  0 <= Dy b <= 2 ^ 26 -> 0 <= Dx b <= 2 ^ 26 ->
  (Z.to_nat (2 ^ 25) < fuel)%nat ->
  getAnchors fuel b =
  Ret (pyramidAnchors anchorScales backboneStrides anchorRatios (Dy b) (Dx b) 1).
Proof.
  intros Hy Hx Hfuel. unfold getAnchors, generatePyramidAnchors.
  rewrite computeBackboneShapes_run by lia.
  unfold anchorScales, backboneStrides, pyramidAnchors.
  cbn [map combine concat pyramidLoop index nth_error bind tl].
  assert (L : forall n s c, 0 <= n <= 2 ^ 26 -> 0 < s -> 2 ^ 26 <= s * c -> c <= 2 ^ 24 ->
            0 <= ceil_div n s <= c).
  { intros n s c Hn Hs Hc _. split; [apply ceil_div_nonneg; lia | apply ceil_div_le; lia]. }
  pose proof (L (Dy b) 4 (2 ^ 24) Hy) as Y4. pose proof (L (Dx b) 4 (2 ^ 24) Hx) as X4.
  pose proof (L (Dy b) 8 (2 ^ 23) Hy) as Y8. pose proof (L (Dx b) 8 (2 ^ 23) Hx) as X8.
  pose proof (L (Dy b) 16 (2 ^ 22) Hy) as Y16. pose proof (L (Dx b) 16 (2 ^ 22) Hx) as X16.
  pose proof (L (Dy b) 32 (2 ^ 21) Hy) as Y32. pose proof (L (Dx b) 32 (2 ^ 21) Hx) as X32.
  pose proof (L (Dy b) 64 (2 ^ 20) Hy) as Y64. pose proof (L (Dx b) 64 (2 ^ 20) Hx) as X64.
  rewrite !generateAnchors_run; try rewrite !ceil_div_1; try (cbn [length anchorRatios]; lia).
  cbn [bind app]. rewrite !app_nil_r, <- !app_assoc. reflexivity.
Qed.

(** * The pipeline orchestrator *)

Lemma anchors_tensor_shape (boxes : list box) :
  shape_of (anchors_tensor boxes) <> [1%nat; 4%nat].
Proof.
  destruct boxes as [ | b boxes]; cbn; discriminate.
Qed.

(** C1. The claim asks that the third tensor of makeInputs be the pyramid
    anchor set, of shape (1, N, 4).  The code returns the window of the
    resized image instead: whenever makeInputs returns, its third result is
    the 1 x 4 array [[min_y, min_x, max_y, max_x]], which is the tensor of no
    anchor list, whatever getAnchors returns for the resized bounds. *)
Theorem makeInputs_anchors_is_window
    (Scaled : Image -> Z -> Z -> Image) (tensor_ok : tensor -> bool)
    (img : Image) (imgTensor meta anchors : tensor) :
  makeInputs Scaled tensor_ok img = Ret (imgTensor, meta, anchors) ->
  anchors = windowArray (Bounds (Scaled img 800 800)) /\
  shape_of anchors = [1%nat; 4%nat] /\
  (forall boxes, anchors <> anchors_tensor boxes) /\
  (forall fuel boxes,
     getAnchors fuel (Bounds (Scaled img 800 800)) = Ret boxes ->
     anchors <> anchors_tensor boxes).
Proof.
  unfold makeInputs. intros H.
  destruct (imageToTensor tensor_ok (Scaled img 800 800)) as [t1 | | | ]; cbn [bind] in H;
    try discriminate.
  destruct (composeImageMeta tensor_ok 0 (Bounds img) (Bounds (Scaled img 800 800))
              (Bounds (Scaled img 800 800)) _ 81) as [t2 | | | ]; cbn [bind] in H;
    try discriminate.
  unfold NewTensor in H.
  destruct (tensor_ok (windowArray (Bounds (Scaled img 800 800)))); cbn [bind] in H;
    try discriminate.
  injection H as _ _ E. subst anchors.
  assert (S : shape_of (windowArray (Bounds (Scaled img 800 800))) = [1%nat; 4%nat])
    by reflexivity.
  assert (N : forall boxes, windowArray (Bounds (Scaled img 800 800)) <> anchors_tensor boxes).
  { intros boxes E. apply (anchors_tensor_shape boxes). rewrite <- E. exact S. }
  split; [reflexivity | ]. split; [exact S | ]. split; [exact N | ].
  intros fuel boxes _. apply N.
Qed.

Lemma makeInputs_anchors_is_window_witness :
  exists imgTensor meta anchors,
    makeInputs (fun i _ _ => i) (fun _ => true) sampleImage = Ret (imgTensor, meta, anchors) /\
    anchors = windowArray (Rect0 2 2) /\
    shape_of anchors = [1%nat; 4%nat].
Proof.
  eexists. eexists. eexists.
  assert (H : makeInputs (fun i _ _ => i) (fun _ => true) sampleImage =
              Ret ltac:(let x := eval vm_compute in
                          (match makeInputs (fun i _ _ => i) (fun _ => true) sampleImage with
                           | Ret x => x
                           | _ => (Arr [], Arr [], Arr [])
                           end) in exact x))
    by (vm_compute; reflexivity).
  split; [exact H | ].
  destruct (makeInputs_anchors_is_window _ _ _ _ _ _ H) as [E [S _]].
  split; [exact E | exact S].
Defined.

(** * The metadata composer *)

(** C4. For every image id, bounds, window, scale and class count that is
    not negative, composeImageMeta passes to the tensor constructor one row of
    12 + numClasses entries: the twelve fields in the order image id,
    original height, width, 3, resized height, width, 3, window y1, x1, y2,
    x2, scale, none of which depends on numClasses, then numClasses zeros. *)
Theorem composeImageMeta_layout (tensor_ok : tensor -> bool) (imageID : Z)
    (originalBounds resizedBounds window : Rectangle) (scale : spec_float)
    (numClasses : Z) :
  0 <= numClasses ->
  exists meta,
    metaVector imageID originalBounds resizedBounds window scale numClasses = Ret meta /\
    composeImageMeta tensor_ok imageID originalBounds resizedBounds window scale numClasses
    = NewTensor tensor_ok (Arr [vector meta]) /\
    Z.of_nat (length meta) = 12 + numClasses /\
    firstn 12 meta =
      [ F32.of_int imageID;
        F32.of_int (Dy originalBounds); F32.of_int (Dx originalBounds); F32.of_int 3;
        F32.of_int (Dy resizedBounds); F32.of_int (Dx resizedBounds); F32.of_int 3;
        F32.of_int (Y (Min window)); F32.of_int (X (Min window));
        F32.of_int (Y (Max window)); F32.of_int (X (Max window));
        scale ] /\
    skipn 12 meta = repeat F32.zero (Z.to_nat numClasses) /\
    (forall x, In x (skipn 12 meta) -> x = F32.zero) /\
    (forall t,
       composeImageMeta tensor_ok imageID originalBounds resizedBounds window scale numClasses
       = Ret t ->
       shape_of t = [1%nat; (12 + Z.to_nat numClasses)%nat]).
Proof.
  intros Hn.
  exists (metaHead imageID originalBounds resizedBounds window scale
          ++ repeat F32.zero (Z.to_nat numClasses)).
  assert (Hv : metaVector imageID originalBounds resizedBounds window scale numClasses =
               Ret (metaHead imageID originalBounds resizedBounds window scale
                    ++ repeat F32.zero (Z.to_nat numClasses))).
  { unfold metaVector. destruct (Z.ltb_spec numClasses 0); [lia | reflexivity]. }
  split; [exact Hv | ]. split.
  { unfold composeImageMeta. rewrite Hv. reflexivity. }
  unfold metaHead. cbn [app]. split.
  { cbn [length]. rewrite repeat_length. lia. }
  split; [reflexivity | ]. split; [reflexivity | ]. split.
  { cbn [skipn]. intros x Hx. apply repeat_spec in Hx. exact Hx. }
  intros t Ht. unfold composeImageMeta in Ht. rewrite Hv in Ht. cbn [bind] in Ht.
  unfold NewTensor in Ht. destruct (tensor_ok _); [ | discriminate].
  injection Ht as <-. unfold metaHead, vector. cbn [app map shape_of length].
  rewrite length_map, repeat_length. reflexivity.
Qed.

Lemma composeImageMeta_layout_witness :
  exists meta,
    metaVector 0 (Rect0 600 400) (Rect0 800 800) (Rect0 800 800) (F32.of_int 2) 81 = Ret meta /\
    Z.of_nat (length meta) = 12 + 81 /\
    firstn 7 meta = [F32.of_int 0; F32.of_int 400; F32.of_int 600; F32.of_int 3;
                     F32.of_int 800; F32.of_int 800; F32.of_int 3].
Proof.
  destruct (composeImageMeta_layout (fun _ => true) 0 (Rect0 600 400) (Rect0 800 800)
              (Rect0 800 800) (F32.of_int 2) 81 ltac:(lia))
    as [meta [Hv [_ [Hl [Hf _]]]]].
  exists meta. split; [exact Hv | ]. split; [exact Hl | ].
  assert (E : firstn 7 meta = firstn 7 (firstn 12 meta)).
  { rewrite firstn_firstn. reflexivity. }
  rewrite E, Hf. reflexivity.
Defined.

(** * The pixel normalisers *)

Lemma In_upto (n : nat) (z : Z) : In z (upto n) <-> 0 <= z < Z.of_nat n.
Proof.
  unfold upto. rewrite in_map_iff. split.
  - intros [k [<- Hk]]. apply in_seq in Hk. lia.
  - intros Hz. exists (Z.to_nat z). split; [lia | apply in_seq; lia].
Qed.

Lemma nth_error_upto (n i : nat) : (i < n)%nat -> nth_error (upto n) i = Some (Z.of_nat i).
Proof.
  intros H. unfold upto. rewrite nth_error_map, nth_error_seq.
  destruct (Nat.ltb_spec i n); [reflexivity | lia].
Qed.

Lemma monotone_table_spec (l : list (Z * spec_float)) :
  monotone_table l = true ->
  forall p q, In p l -> In q l -> fst p <= fst q -> SFleb (snd p) (snd q) = true.
Proof.
  unfold monotone_table. intros T p q Hp Hq Hle.
  rewrite forallb_forall in T. specialize (T p Hp).
  rewrite forallb_forall in T. specialize (T q Hq).
  apply orb_true_iff in T. destruct T as [T | T]; [apply Z.ltb_lt in T; lia | exact T].
Qed.

Lemma schemeA_table :
  monotone_table
    (map (fun b => (b, F32.div (F32.sub (F32.of_int b) (F32.of_ratio 255 2))
                               (F32.of_ratio 255 2)))
         (upto 256)) = true.
Proof. vm_compute. reflexivity. Qed.

Lemma byte_of_sample (v : Z) :
  0 <= v < 2 ^ 16 -> Z.shiftr v 8 = v / 2 ^ 8 /\ 0 <= Z.shiftr v 8 < 2 ^ 8.
Proof.
  intros Hv. rewrite Z.shiftr_div_pow2 by lia. split; [reflexivity | ].
  split; [apply Z.div_pos; lia | apply Z.div_lt_upper_bound; lia].
Qed.

(** C5. Scheme A is [(byte(v) - 127.5) / 127.5] in [float32], where
    [byte(v)] is [v >> 8], the high eight bits of a 16-bit sample; convertTF
    is the same function; [f(0) = -1], [f(255 * 256) = 1], and [f] does not
    decrease over the samples 0 .. 65535. *)
Theorem convert_scheme_A :
  (forall v, convert v =
             F32.div (F32.sub (F32.of_int (Z.shiftr v 8)) (F32.of_ratio 255 2))
                     (F32.of_ratio 255 2)) /\
  (forall v, convertTF v = convert v) /\
  F32.of_ratio 255 2 = binary_normalize 24 128 255 (-1) false /\
  (forall v, 0 <= v < 2 ^ 16 -> Z.shiftr v 8 = v / 2 ^ 8 /\ 0 <= Z.shiftr v 8 < 2 ^ 8) /\
  convert 0 = F32.of_int (-1) /\
  convert (255 * 256) = F32.of_int 1 /\
  (forall v w, 0 <= v <= w -> w < 2 ^ 16 -> SFleb (convert v) (convert w) = true).
Proof.
  split; [reflexivity | ]. split; [reflexivity | ]. split; [reflexivity | ].
  split; [exact byte_of_sample | ]. split; [reflexivity | ]. split; [reflexivity | ].
  intros v w Hvw Hw.
  destruct (byte_of_sample v ltac:(lia)) as [Ev Bv].
  destruct (byte_of_sample w ltac:(lia)) as [Ew Bw].
  assert (Hle : Z.shiftr v 8 <= Z.shiftr w 8).
  { rewrite Ev, Ew. apply Z.div_le_mono; lia. }
  assert (I : forall b, 0 <= b < 2 ^ 8 ->
            In (b, F32.div (F32.sub (F32.of_int b) (F32.of_ratio 255 2)) (F32.of_ratio 255 2))
               (map (fun b => (b, F32.div (F32.sub (F32.of_int b) (F32.of_ratio 255 2))
                                          (F32.of_ratio 255 2))) (upto 256))).
  { intros b Hb. apply in_map_iff. exists b. split; [reflexivity | ].
    apply In_upto. change (Z.of_nat 256) with 256. lia. }
  exact (monotone_table_spec _ schemeA_table _ _ (I _ Bv) (I _ Bw) Hle).
Qed.

Lemma convert_scheme_A_witness :
  SFleb (convert 300) (convert 40000) = true.
Proof.
  destruct convert_scheme_A as [_ [_ [_ [_ [_ [_ M]]]]]].
  apply (M 300 40000); lia.
Defined.

(** C6. imageToTensorCaffe returns the 1 x 224 x 224 x 3 array it has
    filled whenever the tensor constructor accepts that array, and fails
    only when the constructor refuses it; the tensor it returns holds, for
    the pixel at [(i, j)], the channels blue, green, red in this order, each
    the byte of the sample minus its own mean: 103.939, 116.779 and 123.68
    as [float32] constants, all different. *)
Theorem caffe_scheme_B (tensor_ok : tensor -> bool) (img : Image) (i j : nat) :
  (i < 224)%nat -> (j < 224)%nat ->
  (tensor_ok (caffeArray img) = true ->
   exists t,
     imageToTensorCaffe tensor_ok img = Ret t /\
     tensor_at t [0%nat; i; j] =
       Some (vector (caffePixel img (Z.of_nat i) (Z.of_nat j)))) /\
  (tensor_ok (caffeArray img) = false -> imageToTensorCaffe tensor_ok img = Fail) /\
  (forall t,
     imageToTensorCaffe tensor_ok img = Ret t ->
     tensor_at t [0%nat; i; j] =
       Some (vector (caffePixel img (Z.of_nat i) (Z.of_nat j)))) /\
  (forall r g b a,
     At img (Z.of_nat i) (Z.of_nat j) = (r, g, b, a) ->
     caffePixel img (Z.of_nat i) (Z.of_nat j) =
       [ F32.sub (F32.of_int (Z.shiftr b 8)) mean_blue;
         F32.sub (F32.of_int (Z.shiftr g 8)) mean_green;
         F32.sub (F32.of_int (Z.shiftr r 8)) mean_red ]) /\
  nearest_to_ratio mean_blue 103939 1000 = true /\
  nearest_to_ratio mean_green 116779 1000 = true /\
  nearest_to_ratio mean_red 12368 100 = true /\
  mean_blue <> mean_green /\ mean_green <> mean_red /\ mean_blue <> mean_red.
Proof.
  intros Hi Hj.
  assert (E : tensor_at (caffeArray img) [0%nat; i; j] =
              Some (vector (caffePixel img (Z.of_nat i) (Z.of_nat j)))).
  { unfold caffeArray. cbn [tensor_at nth_error].
    rewrite nth_error_map, (nth_error_upto 224 i Hi). cbn [option_map].
    rewrite nth_error_map, (nth_error_upto 224 j Hj). reflexivity. }
  split.
  { intros Hok. exists (caffeArray img). split; [ | exact E].
    unfold imageToTensorCaffe, NewTensor. rewrite Hok. reflexivity. }
  split.
  { intros Hok. unfold imageToTensorCaffe, NewTensor. rewrite Hok. reflexivity. }
  split.
  { intros t Ht. unfold imageToTensorCaffe, NewTensor in Ht.
    destruct (tensor_ok (caffeArray img)); [ | discriminate]. injection Ht as <-. exact E. }
  split.
  { intros r g b a Eq. unfold caffePixel. rewrite Eq. reflexivity. }
  repeat split; try (vm_compute; reflexivity); vm_compute; discriminate.
Qed.

Lemma caffe_scheme_B_witness :
  exists t,
    imageToTensorCaffe (fun _ => true) sampleImage = Ret t /\
    tensor_at t [0%nat; 1%nat; 0%nat] =
    Some (vector [ F32.sub (F32.of_int 255) mean_blue;
                   F32.sub (F32.of_int 0) mean_green;
                   F32.sub (F32.of_int 1) mean_red ]).
Proof.
  destruct (caffe_scheme_B (fun _ => true) sampleImage 1 0 ltac:(lia) ltac:(lia)) as [R _].
  destruct (R eq_refl) as [t [Ht E]].
  exists t. split; [exact Ht | exact E].
Defined.

(** * generateAnchors: ratios and validation *)

Lemma visitedCells_not_Fail (fuel : nat) (shape : list spec_float) (anchorStride : Z) :
  visitedCells fuel shape anchorStride <> Fail.
Proof. apply rowCells_not_Fail. Qed.

Lemma generateAnchors_not_Fail (fuel : nat) (scales : Z) (ratios shape : list spec_float)
    (featureStride anchorStride : Z) :
  generateAnchors fuel scales ratios shape featureStride anchorStride <> Fail.
Proof.
  destruct ratios as [ | r0 [ | r1 [ | r2 more]]]; try discriminate.
  rewrite generateAnchors_cells.
  pose proof (visitedCells_not_Fail fuel shape anchorStride) as N.
  destruct (visitedCells fuel shape anchorStride); cbn [bind]; try discriminate. contradiction.
Qed.

(** C10. generateAnchors reads [ratios[0]], [ratios[1]] and [ratios[2]]
    before anything else: with fewer than three ratios it panics; with three
    or more, the ratios after the third change nothing, and the result is
    three boxes for each visited cell, so its length is three times the
    number of cells; with two shape entries as well there is no panic. *)
Theorem generateAnchors_three_ratios (fuel : nat) (scales : Z)
    (ratios shape : list spec_float) (featureStride anchorStride : Z) :
  ((length ratios < 3)%nat ->
   generateAnchors fuel scales ratios shape featureStride anchorStride = Panic) /\
  (forall r0 r1 r2 more,
     ratios = r0 :: r1 :: r2 :: more ->
     generateAnchors fuel scales ratios shape featureStride anchorStride =
       generateAnchors fuel scales [r0; r1; r2] shape featureStride anchorStride /\
     generateAnchors fuel scales ratios shape featureStride anchorStride =
       (cells <- visitedCells fuel shape anchorStride ;;
        Ret (cellsBoxes (map (anchorHeight scales) [r0; r1; r2])
               (map (anchorWidth scales) [r0; r1; r2]) featureStride cells)) /\
     (forall boxes,
        generateAnchors fuel scales ratios shape featureStride anchorStride = Ret boxes ->
        exists cells,
          visitedCells fuel shape anchorStride = Ret cells /\
          length boxes = (3 * length cells)%nat) /\
     ((2 <= length shape)%nat ->
      generateAnchors fuel scales ratios shape featureStride anchorStride <> Panic)).
Proof.
  split; [apply generateAnchors_short_ratios | ].
  intros r0 r1 r2 more ->. split; [rewrite !generateAnchors_cells; reflexivity | ].
  split; [apply generateAnchors_cells | ]. rewrite generateAnchors_cells. split.
  - intros boxes H. destruct (visitedCells fuel shape anchorStride) as [cells | | | ];
      cbn [bind] in H; try discriminate.
    injection H as <-. exists cells. split; [reflexivity | apply cellsBoxes_length].
  - intros Hs. destruct shape as [ | s0 [ | s1 rest]]; cbn [length] in Hs; try lia.
    pose proof (rowCells_not_Panic s0 s1 rest anchorStride fuel F32.zero []) as N.
    unfold visitedCells.
    destruct (rowCells fuel (s0 :: s1 :: rest) anchorStride F32.zero []); cbn [bind];
      try discriminate. contradiction.
Qed.

Lemma generateAnchors_three_ratios_witness :
  generateAnchors 4 32 [F32.of_int 1] [F32.of_int 1; F32.of_int 1] 4 1 = Panic /\
  generateAnchors 4 32 [F32.of_int 1; F32.of_int 2; F32.of_int 3; F32.of_int 4]
    [F32.of_int 1; F32.of_int 1] 4 1 =
  generateAnchors 4 32 [F32.of_int 1; F32.of_int 2; F32.of_int 3]
    [F32.of_int 1; F32.of_int 1] 4 1.
Proof.
  split.
  - destruct (generateAnchors_three_ratios 4 32 [F32.of_int 1] [F32.of_int 1; F32.of_int 1] 4 1)
      as [P _].
    apply P. simpl. lia.
  - destruct (generateAnchors_three_ratios 4 32
                [F32.of_int 1; F32.of_int 2; F32.of_int 3; F32.of_int 4]
                [F32.of_int 1; F32.of_int 1] 4 1) as [_ Q].
    destruct (Q (F32.of_int 1) (F32.of_int 2) (F32.of_int 3) [F32.of_int 4] eq_refl) as [E _].
    exact E.
Defined.

(** C7, as the claim states it, fails: with the scale -32 generateAnchors
    returns three boxes, each with [y1 > y2] and [x1 > x2], and no error. *)
Lemma generateAnchors_accepts_negative_scale :
  exists boxes,
    generateAnchors 4 (-32) anchorRatios [F32.of_int 1; F32.of_int 1] 4 1 = Ret boxes /\
    length boxes = 3%nat /\
    forallb (fun b => SFltb (box_y2 b) (box_y1 b) && SFltb (box_x2 b) (box_x1 b)) boxes = true.
Proof.
  eexists. split; [vm_compute; reflexivity | ]. split; vm_compute; reflexivity.
Qed.

(** C7, amended. generateAnchors validates nothing: it never returns an
    error, whatever the scale and the strides; a scale changes the
    coordinates of the boxes only, so that a call that returns for one scale
    returns as many boxes for any other, zero and negative ones included;
    for a scale that is zero or negative and ratios above zero every box it
    returns is degenerate, [y2 <= y1] and [x2 <= x1], unless a coordinate is
    not a number; and with an anchor stride that is zero or negative and a
    shape of two positive integers the call does not return. *)
Theorem generateAnchors_no_validation (fuel : nat) (scales : Z)
    (ratios shape : list spec_float) (featureStride anchorStride : Z) :
  generateAnchors fuel scales ratios shape featureStride anchorStride <> Fail /\
  (forall boxes scales',
     generateAnchors fuel scales ratios shape featureStride anchorStride = Ret boxes ->
     exists boxes',
       generateAnchors fuel scales' ratios shape featureStride anchorStride = Ret boxes' /\
       length boxes' = length boxes) /\
  (forall rows cols,
     (3 <= length ratios)%nat -> anchorStride <= 0 -> 1 <= rows -> 1 <= cols ->
     shape = [F32.of_int rows; F32.of_int cols] ->
     generateAnchors fuel scales ratios shape featureStride anchorStride = OutOfFuel) /\
  (forall boxes b,
     scales <= 0 ->
     (forall r, In r (firstn 3 ratios) -> SFltb F32.zero r = true) ->
     generateAnchors fuel scales ratios shape featureStride anchorStride = Ret boxes ->
     In b boxes ->
     box_has_nan b = false ->
     box_inverted b = true).
Proof.
  split; [apply generateAnchors_not_Fail | ]. split; [ | split].
  - intros boxes scales' H.
    destruct ratios as [ | r0 [ | r1 [ | r2 more]]]; try discriminate.
    rewrite generateAnchors_cells in *.
    destruct (visitedCells fuel shape anchorStride) as [cells | | | ]; cbn [bind] in *;
      try discriminate.
    injection H as <-. eexists. split; [reflexivity | ].
    rewrite !cellsBoxes_length. reflexivity.
  - intros rows cols Hr Hs Hrows Hcols ->.
    destruct ratios as [ | r0 [ | r1 [ | r2 more]]]; cbn [length] in Hr; try lia.
    rewrite generateAnchors_cells. unfold visitedCells.
    destruct fuel as [ | fuel]; [reflexivity | ].
    rewrite rowCells_S. cbn [index nth_error bind].
    rewrite (SFltb_nonpos_positive F32.zero (F32.of_int rows) I (F32_of_int_positive rows Hrows)).
    rewrite colCells_nonpos; [reflexivity | exact Hs | apply F32_of_int_positive; exact Hcols | exact I].
  - intros boxes b Hs Hr H Hb Hn.
    destruct ratios as [ | r0 [ | r1 [ | r2 more]]]; try discriminate.
    rewrite generateAnchors_cells in H.
    destruct (visitedCells fuel shape anchorStride) as [cells | | | ]; cbn [bind] in H;
      try discriminate.
    injection H as <-. unfold cellsBoxes in Hb. apply in_flat_map in Hb.
    destruct Hb as [c [_ Hb]]. apply In_cellBoxes in Hb. destruct Hb as [k [Hk ->]].
    cbn [firstn] in Hr.
    assert (P0 : positive_value r0) by (apply SFltb_zero_positive, Hr; cbn; auto).
    assert (P1 : positive_value r1) by (apply SFltb_zero_positive, Hr; cbn; auto).
    assert (P2 : positive_value r2) by (apply SFltb_zero_positive, Hr; cbn; auto).
    apply anchorBox_inverted; [ | | exact Hn];
      destruct k as [ | [ | [ | k]]]; try lia; cbn [map nth];
      first [apply anchorHeight_not_above | apply anchorWidth_not_above]; assumption.
Qed.

Lemma generateAnchors_no_validation_witness :
  (exists boxes',
     generateAnchors 4 0 anchorRatios [F32.of_int 1; F32.of_int 1] 4 1 = Ret boxes' /\
     length boxes' = 3%nat) /\
  generateAnchors 9 32 anchorRatios [F32.of_int 2; F32.of_int 2] 4 0 = OutOfFuel /\
  box_inverted (anchorBox 4 F32.zero F32.zero (anchorHeight (-32) (F32.of_ratio 1 2))
                  (anchorWidth (-32) (F32.of_ratio 1 2))) = true.
Proof.
  split; [ | split].
  - destruct (generateAnchors_no_validation 4 32 anchorRatios [F32.of_int 1; F32.of_int 1] 4 1)
      as [_ [S _]].
    apply (S (cellsBoxes (map (anchorHeight 32) anchorRatios) (map (anchorWidth 32) anchorRatios)
                4 [(F32.zero, F32.zero)]) 0).
    vm_compute. reflexivity.
  - destruct (generateAnchors_no_validation 9 32 anchorRatios [F32.of_int 2; F32.of_int 2] 4 0)
      as [_ [_ [T _]]].
    apply (T 2 2); simpl; try lia; reflexivity.
  - destruct (generateAnchors_no_validation 4 (-32) anchorRatios
                [F32.of_int 1; F32.of_int 1] 4 1) as [_ [_ [_ D]]].
    apply (D (cellsBoxes (map (anchorHeight (-32)) anchorRatios)
                (map (anchorWidth (-32)) anchorRatios) 4 [(F32.zero, F32.zero)])).
    + lia.
    + intros r [<- | [<- | [<- | []]]]; reflexivity.
    + vm_compute. reflexivity.
    + left. reflexivity.
    + vm_compute. reflexivity.
Defined.

(** * Termination of generateAnchors *)

Lemma visitedCells_saturated (fuel : nat) (s1 : spec_float) (rest : list spec_float) :
  visitedCells fuel (F32.of_int (2 ^ 25) :: s1 :: rest) 1 = OutOfFuel.
Proof.
  unfold visitedCells.
  change (F32.of_int (2 ^ 25)) with (S754_finite false 8388608 2).
  change F32.zero with (F32.of_int 0).
  apply (rowCells_saturate 8388608 2 s1 rest (Z.to_nat (2 ^ 24))); lia.
Qed.

Lemma generateAnchors_saturated (fuel : nat) (scales : Z) (ratios : list spec_float)
    (s1 : spec_float) (rest : list spec_float) (featureStride : Z) :
  (3 <= length ratios)%nat ->
  generateAnchors fuel scales ratios (F32.of_int (2 ^ 25) :: s1 :: rest) featureStride 1
  = OutOfFuel.
Proof.
  intros Hr. destruct ratios as [ | r0 [ | r1 [ | r2 more]]]; cbn [length] in Hr; try lia.
  rewrite generateAnchors_cells, visitedCells_saturated. reflexivity.
Qed.

(** C9, as the claim states it, fails: with the anchor stride 1 and the
    shape (2^25, 0), both finite and not negative, no amount of fuel lets
    generateAnchors return: the row counter reaches 2^24 and stays there. *)
Lemma generateAnchors_counter_saturates :
  ~ (exists fuel boxes,
       generateAnchors fuel 32 anchorRatios [F32.of_int (2 ^ 25); F32.of_int 0] 4 1
       = Ret boxes).
Proof.
  intros [fuel [boxes H]].
  rewrite generateAnchors_saturated in H by (simpl; lia). discriminate H.
Qed.

(** C9, amended. For every anchor stride of at least 1 and every shape of
    two integers between 0 and 2^24, generateAnchors returns (the anchors of
    the level, in order) once the fuel exceeds the number of rows and columns
    visited; for an anchor stride that is zero or negative and a shape of two
    integers of at least 1, it returns for no fuel. *)
Theorem generateAnchors_terminates (scales : Z) (ratios : list spec_float)
    (rows cols featureStride anchorStride : Z) :
  (3 <= length ratios)%nat ->
  (1 <= anchorStride -> 0 <= rows <= 2 ^ 24 -> 0 <= cols <= 2 ^ 24 ->
   exists fuel0, forall fuel, (fuel0 <= fuel)%nat ->
     generateAnchors fuel scales ratios [F32.of_int rows; F32.of_int cols]
       featureStride anchorStride =
     Ret (levelAnchors scales ratios rows cols featureStride anchorStride)) /\
  (anchorStride <= 0 -> 1 <= rows -> 1 <= cols ->
   forall fuel,
     generateAnchors fuel scales ratios [F32.of_int rows; F32.of_int cols]
       featureStride anchorStride = OutOfFuel).
Proof.
  intros Hr. split.
  - intros Hs Hrows Hcols.
    exists (S (Z.to_nat (ceil_div rows anchorStride) + Z.to_nat (ceil_div cols anchorStride))).
    intros fuel Hfuel. apply generateAnchors_run; try assumption; lia.
  - intros Hs Hrows Hcols fuel.
    destruct ratios as [ | r0 [ | r1 [ | r2 more]]]; cbn [length] in Hr; try lia.
    rewrite generateAnchors_cells. unfold visitedCells.
    destruct fuel as [ | fuel]; [reflexivity | ].
    rewrite rowCells_S. cbn [index nth_error bind].
    rewrite (SFltb_nonpos_positive F32.zero (F32.of_int rows) I (F32_of_int_positive rows Hrows)).
    rewrite colCells_nonpos; [reflexivity | exact Hs | apply F32_of_int_positive; exact Hcols | exact I].
Qed.

Lemma generateAnchors_terminates_witness :
  (exists fuel0, forall fuel, (fuel0 <= fuel)%nat ->
     generateAnchors fuel 32 anchorRatios [F32.of_int 3; F32.of_int 5] 4 2 =
     Ret (levelAnchors 32 anchorRatios 3 5 4 2)) /\
  (forall fuel,
     generateAnchors fuel 32 anchorRatios [F32.of_int 3; F32.of_int 5] 4 (-1) = OutOfFuel).
Proof.
  split.
  - destruct (generateAnchors_terminates 32 anchorRatios 3 5 4 2 ltac:(simpl; lia)) as [T _].
    apply T; lia.
  - destruct (generateAnchors_terminates 32 anchorRatios 3 5 4 (-1) ltac:(simpl; lia)) as [_ D].
    apply D; lia.
Defined.

(** * Order of the corners *)

(** C8, as the claim states it, fails: with the scale 2^62, the ratios
    2^-140, 1 and 2, all positive and finite, both strides 2^62 and the shape
    (2^67, 1), the box of index 48 (row 16, first ratio) has a centre and a
    height that both overflow to infinity; its [y1] is not a number, and
    [y1 <= y2] is false. *)
Lemma anchors_not_ordered_on_overflow :
  exists boxes b,
    0 <= 2 ^ 62 /\
    forallb (fun r => SFltb F32.zero r)
      [S754_finite false 512 (-149); F32.of_int 1; F32.of_int 2] = true /\
    generateAnchors 40 (2 ^ 62) [S754_finite false 512 (-149); F32.of_int 1; F32.of_int 2]
      [F32.of_int (2 ^ 67); F32.of_int 1] (2 ^ 62) (2 ^ 62) = Ret boxes /\
    nth_error boxes 48 = Some b /\
    box_y1 b = S754_nan /\ box_y2 b = S754_infinity false /\
    box_ordered b = false.
Proof.
  eexists. eexists. split; [lia | ]. split; [reflexivity | ].
  split; [vm_compute; reflexivity | ].
  split; [vm_compute; reflexivity | ].
  split; [reflexivity | ]. split; reflexivity.
Qed.

(** C8, amended. For a scale that is not negative and three ratios above
    zero, every box that generateAnchors returns and that has no coordinate
    that is not a number satisfies [y1 <= y2] and [x1 <= x2]. *)
Theorem anchors_ordered (fuel : nat) (scales : Z) (ratios shape : list spec_float)
    (featureStride anchorStride : Z) (boxes : list box) (b : box) :
  0 <= scales ->
  (forall r, In r (firstn 3 ratios) -> SFltb F32.zero r = true) ->
  generateAnchors fuel scales ratios shape featureStride anchorStride = Ret boxes ->
  In b boxes ->
  box_has_nan b = false ->
  box_ordered b = true.
Proof.
  intros Hs Hr H Hb Hn.
  destruct ratios as [ | r0 [ | r1 [ | r2 more]]]; try discriminate.
  rewrite generateAnchors_cells in H.
  destruct (visitedCells fuel shape anchorStride) as [cells | | | ]; cbn [bind] in H;
    try discriminate.
  injection H as <-. unfold cellsBoxes in Hb. apply in_flat_map in Hb.
  destruct Hb as [c [_ Hb]]. apply In_cellBoxes in Hb. destruct Hb as [k [Hk ->]].
  cbn [firstn] in Hr.
  assert (P0 : positive_value r0) by (apply SFltb_zero_positive, Hr; cbn; auto).
  assert (P1 : positive_value r1) by (apply SFltb_zero_positive, Hr; cbn; auto).
  assert (P2 : positive_value r2) by (apply SFltb_zero_positive, Hr; cbn; auto).
  apply anchorBox_ordered; [ | | exact Hn];
    destruct k as [ | [ | [ | k]]]; try lia; cbn [map nth];
    first [apply anchorHeight_nonneg | apply anchorWidth_nonneg]; assumption.
Qed.

Lemma anchors_ordered_witness :
  forallb box_ordered
    [ anchorBox 4 F32.zero F32.zero (anchorHeight 32 (F32.of_ratio 1 2))
        (anchorWidth 32 (F32.of_ratio 1 2)) ] = true.
Proof.
  cbn [forallb]. rewrite andb_true_r.
  apply (anchors_ordered 4 32 anchorRatios [F32.of_int 1; F32.of_int 1] 4 1
           (cellsBoxes (map (anchorHeight 32) anchorRatios) (map (anchorWidth 32) anchorRatios)
              4 [(F32.zero, F32.zero)])).
  - lia.
  - intros r [<- | [<- | [<- | []]]]; reflexivity.
  - vm_compute. reflexivity.
  - left. reflexivity.
  - vm_compute. reflexivity.
Defined.

(** * The pyramid *)

Lemma pyramidAnchors_length (H W : Z) :
  0 <= H -> 0 <= W ->
  Z.of_nat (length (pyramidAnchors anchorScales backboneStrides anchorRatios H W 1)) =
  anchorCount backboneStrides H W.
Proof.
  intros HH HW. unfold pyramidAnchors, anchorCount, anchorScales, backboneStrides.
  cbn [combine map concat fold_right]. rewrite !length_app, !Nat2Z.inj_add.
  assert (L : forall s, 0 < s -> 0 <= ceil_div H s /\ 0 <= ceil_div W s).
  { intros s Hs. split; apply ceil_div_nonneg; lia. }
  rewrite !levelAnchors_length by (try apply L; lia).
  rewrite !ceil_div_1. cbn [length]. lia.
Qed.

Lemma counters_first (n : Z) :
  1 <= n -> exists rest, counters n 1 = F32.zero :: rest.
Proof.
  intros Hn. unfold counters, counters_from. rewrite ceil_div_1.
  destruct (Z.to_nat n) as [ | k] eqn:E; [lia | ].
  cbn [seq map]. eexists. reflexivity.
Qed.

Lemma pyramidAnchors_first (H W : Z) :
  1 <= H -> 1 <= W ->
  exists rest,
    pyramidAnchors anchorScales backboneStrides anchorRatios H W 1 =
    cellBoxes (map (anchorHeight 32) anchorRatios) (map (anchorWidth 32) anchorRatios) 4
      F32.zero F32.zero ++ rest.
Proof.
  intros HH HW. unfold pyramidAnchors, anchorScales, backboneStrides.
  cbn [combine map concat]. unfold levelAnchors at 1, gridAnchors.
  destruct (counters_first (ceil_div H 4)) as [rows ->].
  { assert (0 < ceil_div H 4); [apply ceil_div_spec; lia | lia]. }
  destruct (counters_first (ceil_div W 4)) as [cols ->].
  { assert (0 < ceil_div W 4); [apply ceil_div_spec; lia | lia]. }
  cbn [flat_map]. rewrite <- !app_assoc. eexists. reflexivity.
Qed.

(** C2, as the claim states it, fails: for the bounds of width 1 and height
    2^27, both positive, getAnchors returns nothing, whatever the fuel: the
    first level has 2^25 rows, and its row counter stops at 2^24. *)
Lemma getAnchors_tall_image_diverges :
  ~ (exists fuel boxes, getAnchors fuel (Rect0 1 (2 ^ 27)) = Ret boxes).
Proof.
  intros [fuel [boxes H]]. unfold getAnchors, generatePyramidAnchors in H.
  rewrite computeBackboneShapes_run in H by (vm_compute; split; congruence).
  unfold anchorScales, backboneStrides in H.
  cbn [map pyramidLoop index nth_error bind] in H.
  change (F32.of_int (ceil_div (Dy (Rect0 1 (2 ^ 27))) 4)) with (F32.of_int (2 ^ 25)) in H.
  rewrite generateAnchors_saturated in H by (simpl; lia).
  discriminate H.
Qed.

(** C2, amended. For bounds of height and width between 1 and 2^26,
    getAnchors returns, once the fuel exceeds 2^25, the anchors level by
    level in the order of the scales, each level row by row, each row cell by
    cell, each cell the three ratios in their order; the first three are
    (-22.63, -11.31, 22.63, 11.31), (-16, -16, 16, 16) and
    (-11.31, -22.63, 11.31, 22.63) to two places. *)
Theorem getAnchors_order (b : Rectangle) :
  1 <= Dy b <= 2 ^ 26 -> 1 <= Dx b <= 2 ^ 26 ->
  (exists fuel0, forall fuel, (fuel0 <= fuel)%nat ->
     getAnchors fuel b =
     Ret (pyramidAnchors anchorScales backboneStrides anchorRatios (Dy b) (Dx b) 1)) /\
  (exists b1 b2 b3 rest,
     pyramidAnchors anchorScales backboneStrides anchorRatios (Dy b) (Dx b) 1 =
     b1 :: b2 :: b3 :: rest /\
     box_to_2_places b1 (-2263) (-1131) 2263 1131 = true /\
     box_to_2_places b2 (-1600) (-1600) 1600 1600 = true /\
     box_to_2_places b3 (-1131) (-2263) 1131 2263 = true).
Proof.
  intros Hy Hx. split.
  - exists (S (Z.to_nat (2 ^ 25))). intros fuel Hfuel. apply getAnchors_run; lia.
  - destruct (pyramidAnchors_first (Dy b) (Dx b)) as [rest ->]; try lia.
    unfold cellBoxes, anchorRatios. cbn [map nth app].
    do 4 eexists. split; [reflexivity | ].
    split; [vm_compute; reflexivity | ]. split; vm_compute; reflexivity.
Qed.

Lemma getAnchors_order_witness :
  exists fuel0, forall fuel, (fuel0 <= fuel)%nat ->
    getAnchors fuel (Rect0 16 8) =
    Ret (pyramidAnchors anchorScales backboneStrides anchorRatios 8 16 1).
Proof.
  destruct (getAnchors_order (Rect0 16 8)) as [R _].
  - vm_compute. split; congruence.
  - vm_compute. split; congruence.
  - exact R.
Defined.

(** C3, as the claim states it, fails: for the bounds of width 1 and height
    2^26 + 4 the first level has 2^24 + 1 rows, which [float32] rounds to
    2^24, and getAnchors returns three anchors fewer than the count of the
    claim. *)
Lemma getAnchors_count_saturated :
  exists fuel boxes,
    getAnchors fuel (Rect0 1 (2 ^ 26 + 4)) = Ret boxes /\
    Z.of_nat (length boxes) = anchorCount backboneStrides (2 ^ 26 + 4) 1 - 3 /\
    Z.of_nat (length boxes) <> anchorCount backboneStrides (2 ^ 26 + 4) 1.
Proof.
  exists (S (Z.to_nat (2 ^ 25))).
  exists (levelAnchors 32 anchorRatios (2 ^ 24) 1 4 1 ++
          levelAnchors 64 anchorRatios 8388609 1 8 1 ++
          levelAnchors 128 anchorRatios 4194305 1 16 1 ++
          levelAnchors 256 anchorRatios 2097153 1 32 1 ++
          levelAnchors 512 anchorRatios 1048577 1 64 1).
  split.
  - unfold getAnchors, generatePyramidAnchors.
    rewrite computeBackboneShapes_run by (vm_compute; split; congruence).
    unfold anchorScales, backboneStrides.
    cbn [map pyramidLoop index nth_error bind tl].
    change (F32.of_int (ceil_div (Dy (Rect0 1 (2 ^ 26 + 4))) 4)) with (F32.of_int (2 ^ 24)).
    change (ceil_div (Dy (Rect0 1 (2 ^ 26 + 4))) 8) with 8388609.
    change (ceil_div (Dy (Rect0 1 (2 ^ 26 + 4))) 16) with 4194305.
    change (ceil_div (Dy (Rect0 1 (2 ^ 26 + 4))) 32) with 2097153.
    change (ceil_div (Dy (Rect0 1 (2 ^ 26 + 4))) 64) with 1048577.
    change (ceil_div (Dx (Rect0 1 (2 ^ 26 + 4))) 4) with 1.
    change (ceil_div (Dx (Rect0 1 (2 ^ 26 + 4))) 8) with 1.
    change (ceil_div (Dx (Rect0 1 (2 ^ 26 + 4))) 16) with 1.
    change (ceil_div (Dx (Rect0 1 (2 ^ 26 + 4))) 32) with 1.
    change (ceil_div (Dx (Rect0 1 (2 ^ 26 + 4))) 64) with 1.
    rewrite !generateAnchors_run; try rewrite !ceil_div_1; try (cbn [length anchorRatios]; lia).
    cbn [bind app]. rewrite <- !app_assoc. reflexivity.
  - rewrite !length_app, !Nat2Z.inj_add, !levelAnchors_length by lia.
    rewrite !ceil_div_1. split; [vm_compute; reflexivity | vm_compute; discriminate].
Qed.

(** C3, amended. For bounds of height and width between 0 and 2^26 and the
    anchor stride 1, getAnchors returns, once the fuel exceeds 2^25, as many
    anchors as the sum over the strides 4, 8, 16, 32, 64 of
    [ceil(H/s) * ceil(W/s) * 3]; for 1024 x 1024 the level of stride 4 has the
    shape (256, 256) and gives 196608 anchors. *)
Theorem getAnchors_count (b : Rectangle) :
  0 <= Dy b <= 2 ^ 26 -> 0 <= Dx b <= 2 ^ 26 ->
  (exists fuel0, forall fuel, (fuel0 <= fuel)%nat ->
     exists boxes,
       getAnchors fuel b = Ret boxes /\
       Z.of_nat (length boxes) = anchorCount backboneStrides (Dy b) (Dx b)) /\
  (exists fuel0, forall fuel, (fuel0 <= fuel)%nat ->
     exists boxes,
       generateAnchors fuel 32 anchorRatios
         (nth 0 (computeBackboneShapes (Rect0 1024 1024) backboneStrides) []) 4 1 = Ret boxes /\
       Z.of_nat (length boxes) = 196608) /\
  ceil_div 1024 4 * ceil_div 1024 4 * 3 = 196608.
Proof.
  intros Hy Hx. split; [ | split; [ | reflexivity]].
  - exists (S (Z.to_nat (2 ^ 25))). intros fuel Hfuel.
    eexists. split; [apply getAnchors_run; lia | ].
    apply pyramidAnchors_length; lia.
  - exists (S (Z.to_nat (2 ^ 25))). intros fuel Hfuel.
    rewrite computeBackboneShapes_run by (vm_compute; split; congruence).
    unfold backboneStrides. cbn [map nth].
    change (ceil_div (Dy (Rect0 1024 1024)) 4) with 256.
    change (ceil_div (Dx (Rect0 1024 1024)) 4) with 256.
    eexists. split.
    + apply generateAnchors_run; try rewrite !ceil_div_1; try (cbn [length anchorRatios]; lia).
    + rewrite levelAnchors_length by lia. reflexivity.
Qed.

Lemma getAnchors_count_witness :
  exists fuel0, forall fuel, (fuel0 <= fuel)%nat ->
    exists boxes,
      getAnchors fuel (Rect0 16 8) = Ret boxes /\
      Z.of_nat (length boxes) = anchorCount backboneStrides 8 16.
Proof.
  destruct (getAnchors_count (Rect0 16 8)) as [R _].
  - vm_compute. split; congruence.
  - vm_compute. split; congruence.
  - exact R.
Defined.

(** * More on the pixel normalisers *)

Lemma strict_table_spec (lo hi : spec_float) (l : list (Z * spec_float)) :
  strict_table lo hi l = true ->
  forall p, In p l ->
    SFleb lo (snd p) = true /\ SFleb (snd p) hi = true /\
    forall q, In q l -> fst p < fst q -> SFltb (snd p) (snd q) = true.
Proof.
  unfold strict_table. intros T p Hp.
  rewrite forallb_forall in T. specialize (T p Hp).
  apply andb_true_iff in T. destruct T as [T1 T]. apply andb_true_iff in T1.
  destruct T1 as [L H]. split; [exact L | ]. split; [exact H | ].
  intros q Hq Hlt. rewrite forallb_forall in T. specialize (T q Hq).
  apply orb_true_iff in T. destruct T as [T | T]; [ | exact T].
  apply negb_true_iff, Z.ltb_ge in T. lia.
Qed.

Lemma In_byte_table (f : Z -> spec_float) (b : Z) :
  0 <= b < 2 ^ 8 -> In (b, f b) (map (fun b => (b, f b)) (upto 256)).
Proof.
  intros Hb. apply in_map_iff. exists b. split; [reflexivity | ].
  apply In_upto. change (Z.of_nat 256) with 256. lia.
Qed.

Lemma schemeA_strict_table :
  strict_table (F32.of_int (-1)) (F32.of_int 1)
    (map (fun b => (b, F32.div (F32.sub (F32.of_int b) (F32.of_ratio 255 2))
                               (F32.of_ratio 255 2)))
         (upto 256)) = true.
Proof. vm_compute. reflexivity. Qed.

Lemma convert_range_bounds (v : Z) :
  0 <= v < 2 ^ 16 -> in_unit_range (convert v) = true /\ in_unit_range (convertTF v) = true.
Proof.
  intros Hv. destruct (byte_of_sample v Hv) as [_ Bv].
  pose proof (strict_table_spec _ _ _ schemeA_strict_table _
                (In_byte_table (fun b => F32.div (F32.sub (F32.of_int b) (F32.of_ratio 255 2))
                                                 (F32.of_ratio 255 2)) _ Bv)) as [L [H _]].
  cbn [fst snd] in L, H.
  assert (R : in_unit_range (convert v) = true).
  { unfold in_unit_range, convert. rewrite L, H. reflexivity. }
  split; exact R.
Qed.

(** X1. Over the 16-bit samples, convert (and convertTF, the same function)
    stays within [-1, 1], gives the same value to two samples of the same
    high byte, and a smaller value exactly to the sample of the smaller high
    byte: the 256 bytes go to 256 different numbers. *)
Theorem convert_range_and_order (v w : Z) :
  0 <= v < 2 ^ 16 -> 0 <= w < 2 ^ 16 ->
  in_unit_range (convert v) = true /\
  in_unit_range (convertTF v) = true /\
  (Z.shiftr v 8 = Z.shiftr w 8 -> convert v = convert w) /\
  (SFltb (convert v) (convert w) = true <-> Z.shiftr v 8 < Z.shiftr w 8).
Proof.
  intros Hv Hw.
  destruct (byte_of_sample v Hv) as [_ Bv]. destruct (byte_of_sample w Hw) as [_ Bw].
  pose proof (strict_table_spec _ _ _ schemeA_strict_table _
                (In_byte_table (fun b => F32.div (F32.sub (F32.of_int b) (F32.of_ratio 255 2))
                                                 (F32.of_ratio 255 2)) _ Bv)) as [L [H S]].
  cbn [fst snd] in L, H, S.
  assert (R : in_unit_range (convert v) = true).
  { unfold in_unit_range, convert. rewrite L, H. reflexivity. }
  split; [exact R | ]. split; [exact R | ]. split.
  - intros E. unfold convert. rewrite E. reflexivity.
  - split.
    + intros Hlt. destruct (Z_lt_le_dec (Z.shiftr v 8) (Z.shiftr w 8)) as [Y | N]; [exact Y | ].
      pose proof (monotone_table_spec _ schemeA_table _ _
                    (In_byte_table (fun b => F32.div (F32.sub (F32.of_int b) (F32.of_ratio 255 2))
                                                     (F32.of_ratio 255 2)) _ Bw)
                    (In_byte_table (fun b => F32.div (F32.sub (F32.of_int b) (F32.of_ratio 255 2))
                                                     (F32.of_ratio 255 2)) _ Bv) N) as M.
      cbn [fst snd] in M. apply SFleb_not_ltb in M. unfold convert in Hlt. congruence.
    + intros Hlt.
      exact (S _ (In_byte_table (fun b => F32.div (F32.sub (F32.of_int b) (F32.of_ratio 255 2))
                                                  (F32.of_ratio 255 2)) _ Bw) Hlt).
Qed.

Lemma convert_range_and_order_witness :
  in_unit_range (convert 12345) = true /\
  (SFltb (convert 255) (convert 256) = true <-> Z.shiftr 255 8 < Z.shiftr 256 8).
Proof.
  destruct (convert_range_and_order 12345 0 ltac:(lia) ltac:(lia)) as [R _].
  destruct (convert_range_and_order 255 256 ltac:(lia) ltac:(lia)) as [_ [_ [_ O]]].
  split; [exact R | exact O].
Defined.

Lemma schemeB_tables :
  strict_table (F32.sub (F32.of_int 0) mean_blue) (F32.sub (F32.of_int 255) mean_blue)
    (map (fun b => (b, F32.sub (F32.of_int b) mean_blue)) (upto 256)) = true /\
  strict_table (F32.sub (F32.of_int 0) mean_green) (F32.sub (F32.of_int 255) mean_green)
    (map (fun b => (b, F32.sub (F32.of_int b) mean_green)) (upto 256)) = true /\
  strict_table (F32.sub (F32.of_int 0) mean_red) (F32.sub (F32.of_int 255) mean_red)
    (map (fun b => (b, F32.sub (F32.of_int b) mean_red)) (upto 256)) = true.
Proof. repeat split; vm_compute; reflexivity. Qed.

(** X2. In Scheme B each channel keeps the order of the bytes: for the mean
    of any of the three channels, the sample of the smaller high byte gives
    the smaller number, and every value lies between [0 - mean] and
    [255 - mean]. *)
Theorem caffe_channel_order (mean : spec_float) (v w : Z) :
  In mean [mean_blue; mean_green; mean_red] ->
  0 <= v < 2 ^ 16 -> 0 <= w < 2 ^ 16 ->
  SFleb (F32.sub (F32.of_int 0) mean) (F32.sub (convertCaffe v) mean) = true /\
  SFleb (F32.sub (convertCaffe v) mean) (F32.sub (F32.of_int 255) mean) = true /\
  (Z.shiftr v 8 < Z.shiftr w 8 ->
   SFltb (F32.sub (convertCaffe v) mean) (F32.sub (convertCaffe w) mean) = true).
Proof.
  intros Hm Hv Hw.
  destruct (byte_of_sample v Hv) as [_ Bv]. destruct (byte_of_sample w Hw) as [_ Bw].
  destruct schemeB_tables as [Tb [Tg Tr]]. unfold convertCaffe.
  destruct Hm as [<- | [<- | [<- | []]]].
  - destruct (strict_table_spec _ _ _ Tb _
                (In_byte_table (fun b => F32.sub (F32.of_int b) mean_blue) _ Bv)) as [L [H S]].
    split; [exact L | ]. split; [exact H | ]. intros Hlt.
    exact (S _ (In_byte_table (fun b => F32.sub (F32.of_int b) mean_blue) _ Bw) Hlt).
  - destruct (strict_table_spec _ _ _ Tg _
                (In_byte_table (fun b => F32.sub (F32.of_int b) mean_green) _ Bv)) as [L [H S]].
    split; [exact L | ]. split; [exact H | ]. intros Hlt.
    exact (S _ (In_byte_table (fun b => F32.sub (F32.of_int b) mean_green) _ Bw) Hlt).
  - destruct (strict_table_spec _ _ _ Tr _
                (In_byte_table (fun b => F32.sub (F32.of_int b) mean_red) _ Bv)) as [L [H S]].
    split; [exact L | ]. split; [exact H | ]. intros Hlt.
    exact (S _ (In_byte_table (fun b => F32.sub (F32.of_int b) mean_red) _ Bw) Hlt).
Qed.

Lemma caffe_channel_order_witness :
  SFltb (F32.sub (convertCaffe 300) mean_green) (F32.sub (convertCaffe 40000) mean_green) = true.
Proof.
  destruct (caffe_channel_order mean_green 300 40000) as [_ [_ S]].
  - right. left. reflexivity.
  - lia.
  - lia.
  - apply S. vm_compute. reflexivity.
Defined.

(** * The tensor composers *)



Lemma NewTensor_Ret (tensor_ok : tensor -> bool) (v t : tensor) :
  NewTensor tensor_ok v = Ret t -> t = v.
Proof.
  unfold NewTensor. destruct (tensor_ok v); [ | discriminate]. intros H. injection H as <-.
  reflexivity.
Qed.



Lemma tensor_scalars_vector (l : list spec_float) : tensor_scalars (vector l) = l.
Proof.
  unfold vector. cbn [tensor_scalars]. induction l as [ | x l IH]; [reflexivity | ].
  cbn [map flat_map tensor_scalars app]. rewrite IH. reflexivity.
Qed.

Lemma Forall_scalars_Arr (P : spec_float -> Prop) (l : list tensor) :
  (forall t, In t l -> Forall P (tensor_scalars t)) ->
  Forall P (tensor_scalars (Arr l)).
Proof.
  intros H. cbn [tensor_scalars]. apply Forall_flat_map. apply Forall_forall. exact H.
Qed.

Lemma Forall_scalars_grid (P : spec_float -> Prop) (f : Z -> Z -> list spec_float) (rows cols : list Z) :
  (forall a b, Forall P (f a b)) ->
  Forall P (tensor_scalars
              (Arr [ Arr (map (fun a => Arr (map (fun b => vector (f a b)) cols)) rows) ])).
Proof.
  intros H. apply Forall_scalars_Arr. intros t [<- | []].
  apply Forall_scalars_Arr. intros t Ht. apply in_map_iff in Ht. destruct Ht as [a [<- _]].
  apply Forall_scalars_Arr. intros t Ht. apply in_map_iff in Ht. destruct Ht as [b [<- _]].
  rewrite tensor_scalars_vector. apply H.
Qed.

(** X4. For an image whose samples are 16-bit values, every number of the
    tensor that mask.go's imageToTensor returns, and every number of the
    tensor that imageToTensorTF returns, lies within [-1, 1]. *)
Theorem image_tensors_in_unit_range (tensor_ok : tensor -> bool) (img : Image) (t : tensor) :
  samples_16bit img ->
  imageToTensor tensor_ok img = Ret t \/ imageToTensorTF tensor_ok img = Ret t ->
  Forall (fun x => in_unit_range x = true) (tensor_scalars t).
Proof.
  intros Hs Ht.
  assert (Hp : forall x y, Forall (fun v => in_unit_range v = true) [
                 convert (fst (fst (fst (At img x y))));
                 convert (snd (fst (fst (At img x y))));
                 convert (snd (fst (At img x y))) ]).
  { intros x y. specialize (Hs x y). destruct (At img x y) as [[[r g] b] a].
    cbn [fst snd]. destruct Hs as [Hr [Hg [Hb _]]].
    repeat constructor;
      [ destruct (convert_range_bounds r Hr) | destruct (convert_range_bounds g Hg)
      | destruct (convert_range_bounds b Hb) ]; assumption. }
  destruct Ht as [Ht | Ht].
  - unfold imageToTensor in Ht.
    destruct ((0 <? Dy (Bounds img)) && (Dx (Bounds img) <? 0)); [discriminate | ].
    apply NewTensor_Ret in Ht. subst t.
    apply (Forall_scalars_grid _ (fun j i => maskPixel img i j)).
    intros j i. specialize (Hp i j). unfold maskPixel.
    destruct (At img i j) as [[[r g] b] a]. exact Hp.
  - apply NewTensor_Ret in Ht. subst t. unfold tfArray.
    apply (Forall_scalars_grid _ (fun i j => tfPixel img i j)).
    intros i j. specialize (Hp i j). unfold tfPixel.
    destruct (At img i j) as [[[r g] b] a]. exact Hp.
Qed.

Lemma image_tensors_in_unit_range_witness :
  Forall (fun x => in_unit_range x = true)
    (tensor_scalars
       (Arr [ Arr (map (fun j => Arr (map (fun i => vector (maskPixel flatImage i j)) (upto 2)))
                       (upto 3)) ])).
Proof.
  apply (image_tensors_in_unit_range (fun _ => true) flatImage).
  - intros x y. cbn. lia.
  - left. reflexivity.
Defined.

Lemma upto_S_length (n : nat) : exists rest, upto (S n) = 0 :: rest /\ length rest = n.
Proof.
  unfold upto. cbn [seq map]. eexists. split; [reflexivity | ].
  rewrite length_map, length_seq. reflexivity.
Qed.

Lemma tfArray_shape (img : Image) :
  shape_of (tfArray img) = [1%nat; 299%nat; 299%nat; 3%nat].
Proof.
  unfold tfArray. destruct (upto_S_length 298) as [rest [-> L]].
  cbn [shape_of length map]. rewrite !length_map, L.
  unfold tfPixel. destruct (At img 0 0) as [[[r g] b] a]. reflexivity.
Qed.

Lemma caffeArray_shape (img : Image) :
  shape_of (caffeArray img) = [1%nat; 224%nat; 224%nat; 3%nat].
Proof.
  unfold caffeArray. destruct (upto_S_length 223) as [rest [-> L]].
  cbn [shape_of length map]. rewrite !length_map, L.
  unfold caffePixel. destruct (At img 0 0) as [[[r g] b] a]. reflexivity.
Qed.

(** X5. imageToTensorTF and imageToTensorCaffe never look at the bounds of
    the image: a returned tensor has the shape (1, 299, 299, 3), resp.
    (1, 224, 224, 3), whatever the image, and the tensor of imageToTensorTF
    holds at [0][i][j] the normalised samples red, green, blue of the pixel
    that [At(i, j)] gives, so that its first index is the x coordinate. *)
Theorem fixed_size_tensors (tensor_ok : tensor -> bool) (img : Image) :
  (forall t,
     imageToTensorTF tensor_ok img = Ret t ->
     shape_of t = [1%nat; 299%nat; 299%nat; 3%nat] /\
     forall i j : nat, (i < 299)%nat -> (j < 299)%nat ->
       tensor_at t [0%nat; i; j] = Some (vector (tfPixel img (Z.of_nat i) (Z.of_nat j))) /\
       forall r g b a,
         At img (Z.of_nat i) (Z.of_nat j) = (r, g, b, a) ->
         tfPixel img (Z.of_nat i) (Z.of_nat j) = [convertTF r; convertTF g; convertTF b]) /\
  (forall t,
     imageToTensorCaffe tensor_ok img = Ret t ->
     shape_of t = [1%nat; 224%nat; 224%nat; 3%nat]).
Proof.
  split; intros t Ht; apply NewTensor_Ret in Ht; subst t.
  - split; [apply tfArray_shape | ].
    intros i j Hi Hj. split.
    + unfold tfArray. cbn [tensor_at nth_error].
      rewrite nth_error_map, (nth_error_upto 299 i Hi). cbn [option_map].
      rewrite nth_error_map, (nth_error_upto 299 j Hj). reflexivity.
    + intros r g b a E. unfold tfPixel. rewrite E. reflexivity.
  - apply caffeArray_shape.
Qed.

Lemma fixed_size_tensors_witness :
  shape_of (tfArray flatImage) = [1%nat; 299%nat; 299%nat; 3%nat] /\
  tensor_at (tfArray flatImage) [0%nat; 5%nat; 7%nat] =
    Some (vector [convertTF 65535; convertTF 32768; convertTF 0]).
Proof.
  destruct (fixed_size_tensors (fun _ => true) flatImage) as [T _].
  destruct (T _ eq_refl) as [S E].
  split; [exact S | ].
  exact (proj1 (E 5%nat 7%nat ltac:(lia) ltac:(lia))).
Defined.



(** * More on makeInputs *)

Lemma makeInputs_parts (Scaled : Image -> Z -> Z -> Image) (tensor_ok : tensor -> bool)
    (img : Image) (imgTensor meta anchors : tensor) :
  makeInputs Scaled tensor_ok img = Ret (imgTensor, meta, anchors) ->
  imageToTensor tensor_ok (Scaled img 800 800) = Ret imgTensor /\
  meta = Arr [vector (metaHead 0 (Bounds img) (Bounds (Scaled img 800 800))
                        (Bounds (Scaled img 800 800))
                        (F32.div (F32.of_int (Dy (Bounds (Scaled img 800 800))))
                                 (F32.of_int (Dy (Bounds img))))
                      ++ repeat F32.zero 81)] /\
  anchors = windowArray (Bounds (Scaled img 800 800)).
Proof.
  unfold makeInputs. intros H.
  destruct (imageToTensor tensor_ok (Scaled img 800 800)) as [t1 | | | ]; cbn [bind] in H;
    try discriminate.
  unfold composeImageMeta, metaVector in H. cbn [Z.ltb Z.compare bind] in H.
  destruct (NewTensor tensor_ok (Arr [vector _])) as [t2 | | | ] eqn:E2 in H; cbn [bind] in H;
    try discriminate.
  destruct (NewTensor tensor_ok (windowArray _)) as [t3 | | | ] eqn:E3 in H; cbn [bind] in H;
    try discriminate.
  injection H as -> -> ->.
  apply NewTensor_Ret in E2, E3. subst. repeat split.
Qed.

(** X7. Whenever makeInputs returns, its three tensors describe the same
    resized image: the first is imageToTensor of the resized image; the
    second is one row of 93 numbers whose fields 4 and 5 are the height and
    width of the resized bounds, whose field 11 is the [float32] quotient of
    the resized and the original height, and whose last 81 are zero; and
    the fields 7 to 10 of that row are the four numbers of the third
    tensor. *)
Theorem makeInputs_consistent (Scaled : Image -> Z -> Z -> Image) (tensor_ok : tensor -> bool)
    (img : Image) (imgTensor meta anchors : tensor) :
  makeInputs Scaled tensor_ok img = Ret (imgTensor, meta, anchors) ->
  imageToTensor tensor_ok (Scaled img 800 800) = Ret imgTensor /\
  exists row,
    meta = Arr [vector row] /\
    length row = 93%nat /\
    nth_error row 0 = Some (F32.of_int 0) /\
    nth_error row 1 = Some (F32.of_int (Dy (Bounds img))) /\
    nth_error row 2 = Some (F32.of_int (Dx (Bounds img))) /\
    nth_error row 4 = Some (F32.of_int (Dy (Bounds (Scaled img 800 800)))) /\
    nth_error row 5 = Some (F32.of_int (Dx (Bounds (Scaled img 800 800)))) /\
    nth_error row 11 =
      Some (F32.div (F32.of_int (Dy (Bounds (Scaled img 800 800))))
                    (F32.of_int (Dy (Bounds img)))) /\
    skipn 12 row = repeat F32.zero 81 /\
    anchors = Arr [vector (firstn 4 (skipn 7 row))].
Proof.
  intros H. destruct (makeInputs_parts _ _ _ _ _ _ H) as [H1 [-> ->]].
  split; [exact H1 | ]. eexists. split; [reflexivity | ].
  repeat split.
Qed.

Lemma makeInputs_consistent_witness :
  exists imgTensor meta anchors row,
    makeInputs (fun i _ _ => i) (fun _ => true) sampleImage = Ret (imgTensor, meta, anchors) /\
    meta = Arr [vector row] /\
    anchors = Arr [vector (firstn 4 (skipn 7 row))].
Proof.
  assert (H : makeInputs (fun i _ _ => i) (fun _ => true) sampleImage =
              Ret ltac:(let x := eval vm_compute in
                          (match makeInputs (fun i _ _ => i) (fun _ => true) sampleImage with
                           | Ret x => x
                           | _ => (Arr [], Arr [], Arr [])
                           end) in exact x))
    by (vm_compute; reflexivity).
  destruct (makeInputs_consistent _ _ _ _ _ _ H) as [_ [row [Hm [_ [_ [_ [_ [_ [_ [_ [_ Ha]]]]]]]]]]].
  do 3 eexists. exists row. split; [exact H | ]. split; [exact Hm | exact Ha].
Defined.

Lemma F32_div_by_zero (n : Z) :
  (0 < n -> F32.div (F32.of_int n) (F32.of_int 0) = S754_infinity false) /\
  (n = 0 -> F32.div (F32.of_int n) (F32.of_int 0) = S754_nan) /\
  (n < 0 -> F32.div (F32.of_int n) (F32.of_int 0) = S754_infinity true).
Proof.
  split; [ | split].
  - intros Hn. pose proof (F32_of_int_positive n ltac:(lia)) as P.
    destruct (F32.of_int n) as [s | s | | s m e]; cbn [positive_value] in P;
      try contradiction; subst; reflexivity.
  - intros ->. reflexivity.
  - intros Hn. pose proof (F32_of_int_neg_sign n Hn) as S.
    pose proof (binary_normalize_mono F32.prec F32.emax F32_prec_pos n (-1) 0 ltac:(lia)) as L.
    fold (F32.of_int n) in L.
    destruct (F32.of_int n) as [s | s | | s m e]; try contradiction; subst; try reflexivity.
    discriminate L.
Qed.

(** X8. makeInputs does not guard against an original image of height
    zero: whenever it returns for one, the scale field of the metadata (field
    11) is no finite number, +Inf when the resized height is positive and NaN
    when the resized height is zero as well. *)
Theorem makeInputs_zero_height (Scaled : Image -> Z -> Z -> Image) (tensor_ok : tensor -> bool)
    (img : Image) (imgTensor meta anchors : tensor) :
  Dy (Bounds img) = 0 ->
  makeInputs Scaled tensor_ok img = Ret (imgTensor, meta, anchors) ->
  (0 < Dy (Bounds (Scaled img 800 800)) ->
   tensor_at meta [0%nat; 11%nat] = Some (Scalar (S754_infinity false))) /\
  (Dy (Bounds (Scaled img 800 800)) = 0 ->
   tensor_at meta [0%nat; 11%nat] = Some (Scalar S754_nan)).
Proof.
  intros H0 H. destruct (makeInputs_parts _ _ _ _ _ _ H) as [_ [-> _]].
  rewrite H0. cbn [tensor_at nth_error metaHead app vector map].
  destruct (F32_div_by_zero (Dy (Bounds (Scaled img 800 800)))) as [P [Z _]].
  split; intros Hr; [rewrite (P Hr) | rewrite (Z Hr)]; reflexivity.
Qed.

Lemma makeInputs_zero_height_witness :
  exists imgTensor meta anchors,
    makeInputs (fun _ _ _ => sampleImage) (fun _ => true)
      {| Bounds := Rect0 5 0; At := fun _ _ => (0, 0, 0, 0) |} = Ret (imgTensor, meta, anchors) /\
    tensor_at meta [0%nat; 11%nat] = Some (Scalar (S754_infinity false)).
Proof.
  assert (H : makeInputs (fun _ _ _ => sampleImage) (fun _ => true)
                {| Bounds := Rect0 5 0; At := fun _ _ => (0, 0, 0, 0) |} =
              Ret ltac:(let x := eval vm_compute in
                          (match makeInputs (fun _ _ _ => sampleImage) (fun _ => true)
                                   {| Bounds := Rect0 5 0; At := fun _ _ => (0, 0, 0, 0) |} with
                           | Ret x => x
                           | _ => (Arr [], Arr [], Arr [])
                           end) in exact x))
    by (vm_compute; reflexivity).
  do 3 eexists. split; [exact H | ].
  refine (proj1 (makeInputs_zero_height _ _ _ _ _ _ _ H) _); vm_compute; reflexivity.
Defined.

(** * More on generateAnchors *)

Lemma nth_error_flat_map_block {A B : Type} (f : A -> list B) (m : nat) (l : list A) :
  (forall x, In x l -> length (f x) = m) ->
  forall (n r : nat) (x : A),
    nth_error l n = Some x -> (r < m)%nat ->
    nth_error (flat_map f l) (n * m + r) = nth_error (f x) r.
Proof.
  induction l as [ | a l IH]; intros Hlen n r x Hn Hr.
  - destruct n; discriminate Hn.
  - cbn [flat_map]. destruct n as [ | n].
    + cbn in Hn. injection Hn as <-. cbn [Nat.mul Nat.add].
      apply nth_error_app1. rewrite Hlen by (left; reflexivity). exact Hr.
    + cbn [nth_error] in Hn. rewrite nth_error_app2 by (rewrite Hlen by (left; reflexivity); lia).
      rewrite Hlen by (left; reflexivity).
      replace (S n * m + r - m)%nat with (n * m + r)%nat by lia.
      apply IH; [intros y Hy; apply Hlen; right; exact Hy | exact Hn | exact Hr].
Qed.

Lemma nth_error_counters_from (anchorStride : Z) (n j : nat) :
  (j < n)%nat ->
  nth_error (counters_from anchorStride 0 n) j = Some (F32.of_int (Z.of_nat j * anchorStride)).
Proof.
  intros H. unfold counters_from. rewrite !nth_error_map, nth_error_seq.
  destruct (Nat.ltb_spec j n); [reflexivity | lia].
Qed.

Lemma row_length (heights widths : list spec_float) (featureStride : Z) (j : spec_float)
    (cols : list spec_float) :
  length (flat_map (fun i => cellBoxes heights widths featureStride j i) cols)
  = (length cols * 3)%nat.
Proof.
  induction cols as [ | i cols IH]; [reflexivity | ].
  cbn [flat_map]. rewrite length_app, IH. cbn [length cellBoxes map]. lia.
Qed.

Lemma levelAnchors_nth (scales : Z) (r0 r1 r2 : spec_float) (more : list spec_float)
    (rows cols featureStride anchorStride : Z) (j i k : nat) :
  Z.of_nat j < ceil_div rows anchorStride ->
  Z.of_nat i < ceil_div cols anchorStride ->
  (k < 3)%nat ->
  nth_error (levelAnchors scales (r0 :: r1 :: r2 :: more) rows cols featureStride anchorStride)
    (3 * (j * Z.to_nat (ceil_div cols anchorStride) + i) + k) =
  Some (anchorBox featureStride
          (F32.of_int (Z.of_nat j * anchorStride)) (F32.of_int (Z.of_nat i * anchorStride))
          (anchorHeight scales (nth k [r0; r1; r2] S754_nan))
          (anchorWidth scales (nth k [r0; r1; r2] S754_nan))).
Proof.
  intros Hj Hi Hk. unfold levelAnchors, gridAnchors, counters. cbn [firstn map].
  set (nC := Z.to_nat (ceil_div cols anchorStride)).
  set (nR := Z.to_nat (ceil_div rows anchorStride)).
  set (hs := [anchorHeight scales r0; anchorHeight scales r1; anchorHeight scales r2]).
  set (ws := [anchorWidth scales r0; anchorWidth scales r1; anchorWidth scales r2]).
  replace (3 * (j * nC + i) + k)%nat with (j * (nC * 3) + (i * 3 + k))%nat by nia.
  rewrite (nth_error_flat_map_block
             (fun y => flat_map (fun x => cellBoxes hs ws featureStride y x)
                         (counters_from anchorStride 0 nC))
             (nC * 3) (counters_from anchorStride 0 nR))
    with (x := F32.of_int (Z.of_nat j * anchorStride)).
  - rewrite (nth_error_flat_map_block
               (fun x => cellBoxes hs ws featureStride (F32.of_int (Z.of_nat j * anchorStride)) x)
               3 (counters_from anchorStride 0 nC))
      with (x := F32.of_int (Z.of_nat i * anchorStride)).
    + unfold cellBoxes, hs, ws. destruct k as [ | [ | [ | k]]]; try lia; reflexivity.
    + intros x _. reflexivity.
    + apply nth_error_counters_from. unfold nC. lia.
    + exact Hk.
  - intros x _. rewrite row_length, counters_from_length. reflexivity.
  - apply nth_error_counters_from. unfold nR. lia.
  - assert (i < nC)%nat by (unfold nC; lia). nia.
Qed.

(** X9. With an anchor stride [s >= 1] generateAnchors visits every [s]-th
    row and every [s]-th column only: for a shape of two integers R, C
    between 0 and 2^24 it returns [3 * ceil(R/s) * ceil(C/s)] boxes. *)
Theorem generateAnchors_stride_count (scales : Z) (ratios : list spec_float)
    (rows cols featureStride anchorStride : Z) :
  (3 <= length ratios)%nat -> 1 <= anchorStride ->
  0 <= rows <= 2 ^ 24 -> 0 <= cols <= 2 ^ 24 ->
  exists fuel0, forall fuel, (fuel0 <= fuel)%nat ->
    exists boxes,
      generateAnchors fuel scales ratios [F32.of_int rows; F32.of_int cols]
        featureStride anchorStride = Ret boxes /\
      Z.of_nat (length boxes) = 3 * ceil_div rows anchorStride * ceil_div cols anchorStride.
Proof.
  intros Hr Hs Hrows Hcols.
  exists (S (Z.to_nat (ceil_div rows anchorStride) + Z.to_nat (ceil_div cols anchorStride))).
  intros fuel Hfuel. eexists. split.
  - apply generateAnchors_run; try assumption; lia.
  - rewrite levelAnchors_length by lia. lia.
Qed.

Lemma generateAnchors_stride_count_witness :
  exists fuel0, forall fuel, (fuel0 <= fuel)%nat ->
    exists boxes,
      generateAnchors fuel 32 anchorRatios [F32.of_int 5; F32.of_int 7] 4 2 = Ret boxes /\
      Z.of_nat (length boxes) = 3 * ceil_div 5 2 * ceil_div 7 2.
Proof.
  apply (generateAnchors_stride_count 32 anchorRatios 5 7 4 2); simpl; lia.
Defined.

(** X10. The anchors of a level can be indexed by position: for a shape of
    two integers R, C between 0 and 2^24 and an anchor stride [s >= 1], the
    box of the [j]-th visited row, the [i]-th visited column and the [k]-th
    ratio is at the index [3 * (j * ceil(C/s) + i) + k] of the result, and it
    is the box of the counters [j * s] and [i * s] and of the height and
    width of that ratio. *)
Theorem generateAnchors_index (scales : Z) (r0 r1 r2 : spec_float) (more : list spec_float)
    (rows cols featureStride anchorStride : Z) (j i k : nat) :
  1 <= anchorStride -> 0 <= rows <= 2 ^ 24 -> 0 <= cols <= 2 ^ 24 ->
  Z.of_nat j < ceil_div rows anchorStride ->
  Z.of_nat i < ceil_div cols anchorStride ->
  (k < 3)%nat ->
  exists fuel0, forall fuel, (fuel0 <= fuel)%nat ->
    exists boxes,
      generateAnchors fuel scales (r0 :: r1 :: r2 :: more) [F32.of_int rows; F32.of_int cols]
        featureStride anchorStride = Ret boxes /\
      nth_error boxes (3 * (j * Z.to_nat (ceil_div cols anchorStride) + i) + k) =
      Some (anchorBox featureStride
              (F32.of_int (Z.of_nat j * anchorStride)) (F32.of_int (Z.of_nat i * anchorStride))
              (anchorHeight scales (nth k [r0; r1; r2] S754_nan))
              (anchorWidth scales (nth k [r0; r1; r2] S754_nan))).
Proof.
  intros Hs Hrows Hcols Hj Hi Hk.
  exists (S (Z.to_nat (ceil_div rows anchorStride) + Z.to_nat (ceil_div cols anchorStride))).
  intros fuel Hfuel. eexists. split.
  - apply generateAnchors_run; try assumption; cbn [length]; lia.
  - apply levelAnchors_nth; assumption.
Qed.

Lemma generateAnchors_index_witness :
  exists fuel0, forall fuel, (fuel0 <= fuel)%nat ->
    exists boxes,
      generateAnchors fuel 32 anchorRatios [F32.of_int 5; F32.of_int 7] 4 2 = Ret boxes /\
      nth_error boxes (3 * (2 * Z.to_nat (ceil_div 7 2) + 3) + 1) =
      Some (anchorBox 4 (F32.of_int (Z.of_nat 2 * 2)) (F32.of_int (Z.of_nat 3 * 2))
              (anchorHeight 32 (F32.of_int 1)) (anchorWidth 32 (F32.of_int 1))).
Proof.
  apply (generateAnchors_index 32 (F32.of_ratio 1 2) (F32.of_int 1) (F32.of_int 2) [] 5 7 4 2
           2 3 1); try lia; vm_compute; reflexivity.
Defined.

(** * Shapes that are too short, levels that are missing *)

Lemma colCells_shape_tail (s0 s1 : spec_float) (rest : list spec_float) (anchorStride : Z)
    (j : spec_float) (fuel : nat) :
  forall i cells,
    colCells fuel (s0 :: s1 :: rest) anchorStride j i cells =
    colCells fuel [s0; s1] anchorStride j i cells.
Proof.
  induction fuel as [ | fuel IH]; intros i cells; [reflexivity | ].
  rewrite !colCells_S. cbn [index nth_error bind].
  destruct (SFltb i s1); [apply IH | reflexivity].
Qed.

Lemma rowCells_shape_tail (s0 s1 : spec_float) (rest : list spec_float) (anchorStride : Z)
    (fuel : nat) :
  forall j cells,
    rowCells fuel (s0 :: s1 :: rest) anchorStride j cells =
    rowCells fuel [s0; s1] anchorStride j cells.
Proof.
  induction fuel as [ | fuel IH]; intros j cells; [reflexivity | ].
  rewrite !rowCells_S. cbn [index nth_error bind].
  destruct (SFltb j s0); [ | reflexivity].
  rewrite colCells_shape_tail.
  destruct (colCells fuel [s0; s1] anchorStride j F32.zero cells); cbn [bind];
    try reflexivity. apply IH.
Qed.

Lemma generateAnchors_no_rows (fuel : nat) (scales : Z) (ratios : list spec_float)
    (s0 : spec_float) (rest : list spec_float) (featureStride anchorStride : Z) :
  (3 <= length ratios)%nat -> SFltb F32.zero s0 = false ->
  generateAnchors (S fuel) scales ratios (s0 :: rest) featureStride anchorStride = Ret [].
Proof.
  intros Hr H0. destruct ratios as [ | r0 [ | r1 [ | r2 more]]]; cbn [length] in Hr; try lia.
  rewrite generateAnchors_cells. unfold visitedCells.
  rewrite rowCells_S. cbn [index nth_error bind]. rewrite H0. reflexivity.
Qed.

(** X11. What generateAnchors does with a shape that is too short depends on
    what it reads: with no entry it panics; with one entry it returns no box
    when that entry is not above zero (the loop on rows is not entered, NaN
    included) and panics when it is; and entries after the second are never
    read. *)
Theorem generateAnchors_short_shape (fuel : nat) (scales : Z) (ratios : list spec_float)
    (featureStride anchorStride : Z) :
  (3 <= length ratios)%nat ->
  generateAnchors (S fuel) scales ratios [] featureStride anchorStride = Panic /\
  (forall s0 rest,
     SFltb F32.zero s0 = false ->
     generateAnchors (S fuel) scales ratios (s0 :: rest) featureStride anchorStride = Ret []) /\
  (forall s0,
     SFltb F32.zero s0 = true ->
     generateAnchors (S (S fuel)) scales ratios [s0] featureStride anchorStride = Panic) /\
  (forall s0 s1 rest,
     generateAnchors fuel scales ratios (s0 :: s1 :: rest) featureStride anchorStride =
     generateAnchors fuel scales ratios [s0; s1] featureStride anchorStride).
Proof.
  intros Hr. split; [ | split; [ | split]].
  - destruct ratios as [ | r0 [ | r1 [ | r2 more]]]; cbn [length] in Hr; try lia. reflexivity.
  - intros s0 rest H0. apply generateAnchors_no_rows; assumption.
  - intros s0 H0.
    destruct ratios as [ | r0 [ | r1 [ | r2 more]]]; cbn [length] in Hr; try lia.
    rewrite generateAnchors_cells. unfold visitedCells.
    rewrite rowCells_S. cbn [index nth_error bind]. rewrite H0. reflexivity.
  - intros s0 s1 rest.
    destruct ratios as [ | r0 [ | r1 [ | r2 more]]]; cbn [length] in Hr; try lia.
    rewrite !generateAnchors_cells. unfold visitedCells. rewrite rowCells_shape_tail.
    reflexivity.
Qed.

Lemma generateAnchors_short_shape_witness :
  generateAnchors 1 32 anchorRatios [] 4 1 = Panic /\
  generateAnchors 1 32 anchorRatios [S754_nan] 4 1 = Ret [] /\
  generateAnchors 2 32 anchorRatios [F32.of_int 3] 4 1 = Panic.
Proof.
  destruct (generateAnchors_short_shape 0 32 anchorRatios 4 1 ltac:(simpl; lia))
    as [P [E [Q _]]].
  split; [exact P | ]. split; [apply E; reflexivity | apply Q; reflexivity].
Defined.

(** * More on generatePyramidAnchors *)

Lemma pyramidLoop_acc (fuel : nat) (ratios : list spec_float) (anchorStride : Z)
    (scales : list Z) :
  forall featureShapes featureStrides anchors,
    pyramidLoop fuel scales ratios featureShapes featureStrides anchorStride anchors =
    (levels <- pyramidLoop fuel scales ratios featureShapes featureStrides anchorStride [] ;;
     Ret (anchors ++ levels)).
Proof.
  induction scales as [ | scale scales IH]; intros shapes strides anchors.
  - cbn [pyramidLoop bind]. rewrite app_nil_r. reflexivity.
  - cbn [pyramidLoop].
    destruct (index shapes 0) as [shape | | | ]; cbn [bind]; try reflexivity.
    destruct (index strides 0) as [stride | | | ]; cbn [bind]; try reflexivity.
    destruct (generateAnchors fuel scale ratios shape stride anchorStride) as [level | | | ];
      cbn [bind]; try reflexivity.
    rewrite (IH (tl shapes) (tl strides) (anchors ++ level)).
    rewrite (IH (tl shapes) (tl strides) ([] ++ level)).
    destruct (pyramidLoop fuel scales ratios (tl shapes) (tl strides) anchorStride []);
      cbn [bind]; try reflexivity.
    rewrite app_assoc. reflexivity.
Qed.

(** X12. generatePyramidAnchors is the concatenation of its levels in the
    order of the scales: the anchors of the first scale, shape and stride,
    then those of the rest; no scale gives no anchor; and a level that does
    not return (panic or no end) is the outcome of the whole call. *)
Theorem generatePyramidAnchors_levels (fuel : nat) (ratios : list spec_float)
    (anchorStride : Z) :
  (forall featureShapes featureStrides,
     generatePyramidAnchors fuel [] ratios featureShapes featureStrides anchorStride = Ret []) /\
  (forall scale scales shape featureShapes stride featureStrides,
     generatePyramidAnchors fuel (scale :: scales) ratios (shape :: featureShapes)
       (stride :: featureStrides) anchorStride =
     (level <- generateAnchors fuel scale ratios shape stride anchorStride ;;
      levels <- generatePyramidAnchors fuel scales ratios featureShapes featureStrides
                  anchorStride ;;
      Ret (level ++ levels))).
Proof.
  split; [reflexivity | ].
  intros scale scales shape shapes stride strides.
  unfold generatePyramidAnchors. cbn [pyramidLoop index nth_error bind tl].
  destruct (generateAnchors fuel scale ratios shape stride anchorStride) as [level | | | ];
    cbn [bind]; try reflexivity.
  apply pyramidLoop_acc.
Qed.

Lemma pyramidLoop_missing (fuel : nat) (ratios : list spec_float) (anchorStride : Z)
    (scales : list Z) :
  forall featureShapes featureStrides anchors boxes,
    (length featureShapes < length scales)%nat \/ (length featureStrides < length scales)%nat ->
    pyramidLoop fuel scales ratios featureShapes featureStrides anchorStride anchors <> Ret boxes.
Proof.
  induction scales as [ | scale scales IH]; intros shapes strides anchors boxes H.
  - cbn [length] in H. lia.
  - cbn [pyramidLoop].
    destruct shapes as [ | shape shapes]; [discriminate | ].
    destruct strides as [ | stride strides]; [discriminate | ].
    cbn [index nth_error bind tl].
    destruct (generateAnchors fuel scale ratios shape stride anchorStride) as [level | | | ];
      cbn [bind]; try discriminate.
    apply IH. cbn [length] in H. lia.
Qed.

Lemma pyramidLoop_firstn (fuel : nat) (ratios : list spec_float) (anchorStride : Z)
    (scales : list Z) :
  forall featureShapes featureStrides anchors,
    pyramidLoop fuel scales ratios featureShapes featureStrides anchorStride anchors =
    pyramidLoop fuel scales ratios (firstn (length scales) featureShapes)
      (firstn (length scales) featureStrides) anchorStride anchors.
Proof.
  induction scales as [ | scale scales IH]; intros shapes strides anchors; [reflexivity | ].
  cbn [pyramidLoop length].
  destruct shapes as [ | shape shapes]; [reflexivity | ].
  destruct strides as [ | stride strides]; [reflexivity | ].
  cbn [firstn index nth_error bind tl].
  destruct (generateAnchors fuel scale ratios shape stride anchorStride) as [level | | | ];
    cbn [bind]; try reflexivity.
  apply IH.
Qed.

(** X13. generatePyramidAnchors needs a shape and a stride for every scale:
    with fewer shapes or fewer strides than scales it returns no anchors
    (it panics at the first scale without one, unless an earlier level
    already did not return); shapes and strides beyond the number of scales
    are ignored. *)
Theorem generatePyramidAnchors_lengths (fuel : nat) (scales : list Z)
    (ratios : list spec_float) (featureShapes : list (list spec_float))
    (featureStrides : list Z) (anchorStride : Z) :
  ((length featureShapes < length scales)%nat \/ (length featureStrides < length scales)%nat ->
   forall boxes,
     generatePyramidAnchors fuel scales ratios featureShapes featureStrides anchorStride
     <> Ret boxes) /\
  (scales <> [] ->
   generatePyramidAnchors fuel scales ratios [] featureStrides anchorStride = Panic /\
   (featureShapes <> [] ->
    generatePyramidAnchors fuel scales ratios featureShapes [] anchorStride = Panic)) /\
  generatePyramidAnchors fuel scales ratios featureShapes featureStrides anchorStride =
  generatePyramidAnchors fuel scales ratios (firstn (length scales) featureShapes)
    (firstn (length scales) featureStrides) anchorStride.
Proof.
  split; [ | split].
  - intros H boxes. apply pyramidLoop_missing. exact H.
  - intros Hs. destruct scales as [ | scale scales]; [contradiction | ].
    split; [reflexivity | ].
    intros Hf. destruct featureShapes as [ | shape shapes]; [contradiction | reflexivity].
  - apply pyramidLoop_firstn.
Qed.

Lemma generatePyramidAnchors_lengths_witness :
  (forall boxes,
     generatePyramidAnchors 9 [32; 64] anchorRatios [[F32.of_int 1; F32.of_int 1]] [4; 8] 1
     <> Ret boxes) /\
  generatePyramidAnchors 9 [32; 64] anchorRatios [] [4; 8] 1 = Panic.
Proof.
  destruct (generatePyramidAnchors_lengths 9 [32; 64] anchorRatios
              [[F32.of_int 1; F32.of_int 1]] [4; 8] 1) as [M [P _]].
  split.
  - apply M. left. simpl. lia.
  - destruct P as [Q _]; [discriminate | exact Q].
Defined.

(** * getAnchors on every rectangle *)

Lemma pyramidLoop_safe (fuel : nat) (ratios : list spec_float) (anchorStride : Z)
    (scales : list Z) :
  (3 <= length ratios)%nat ->
  forall featureShapes featureStrides anchors,
    (length scales <= length featureShapes)%nat ->
    (length scales <= length featureStrides)%nat ->
    Forall (fun shape => (2 <= length shape)%nat) featureShapes ->
    pyramidLoop fuel scales ratios featureShapes featureStrides anchorStride anchors <> Panic /\
    pyramidLoop fuel scales ratios featureShapes featureStrides anchorStride anchors <> Fail.
Proof.
  intros Hr. induction scales as [ | scale scales IH]; intros shapes strides anchors Hs Ht Hf.
  - cbn [pyramidLoop]. split; discriminate.
  - cbn [pyramidLoop].
    destruct shapes as [ | shape shapes]; [cbn [length] in Hs; lia | ].
    destruct strides as [ | stride strides]; [cbn [length] in Ht; lia | ].
    cbn [index nth_error bind tl].
    inversion Hf as [ | ? ? Hshape Hrest]; subst.
    pose proof (generateAnchors_not_Fail fuel scale ratios shape stride anchorStride) as NF.
    assert (NP : generateAnchors fuel scale ratios shape stride anchorStride <> Panic).
    { destruct ratios as [ | r0 [ | r1 [ | r2 more]]]; cbn [length] in Hr; try lia.
      destruct shape as [ | s0 [ | s1 rest]]; cbn [length] in Hshape; try lia.
      rewrite generateAnchors_cells. unfold visitedCells.
      pose proof (rowCells_not_Panic s0 s1 rest anchorStride fuel F32.zero []) as P.
      destruct (rowCells fuel (s0 :: s1 :: rest) anchorStride F32.zero []); cbn [bind];
        try discriminate. contradiction. }
    destruct (generateAnchors fuel scale ratios shape stride anchorStride) as [level | | | ];
      cbn [bind]; try contradiction.
    + apply IH; cbn [length] in Hs, Ht; try lia. exact Hrest.
    + split; discriminate.
Qed.

Lemma computeBackboneShapes_length (b : Rectangle) (strides : list Z) :
  length (computeBackboneShapes b strides) = length strides /\
  Forall (fun shape => (2 <= length shape)%nat) (computeBackboneShapes b strides).
Proof.
  unfold computeBackboneShapes. split; [apply length_map | ].
  apply Forall_forall. intros shape Hin. apply in_map_iff in Hin.
  destruct Hin as [s [<- _]]. cbn [length]. lia.
Qed.

(** X14. getAnchors never panics and never reports an error, whatever the
    rectangle (empty, inverted, overflowing) and however long it is run: it
    either returns anchors or is still running; and the same holds for
    generatePyramidAnchors over the shapes of computeBackboneShapes for any
    list of strides that has a stride for every scale. *)
Theorem getAnchors_never_panics (fuel : nat) (b : Rectangle) :
  (getAnchors fuel b <> Panic /\ getAnchors fuel b <> Fail) /\
  (forall scales ratios strides anchorStride,
     (3 <= length ratios)%nat -> (length scales <= length strides)%nat ->
     generatePyramidAnchors fuel scales ratios (computeBackboneShapes b strides) strides
       anchorStride <> Panic).
Proof.
  split.
  - unfold getAnchors, generatePyramidAnchors.
    destruct (computeBackboneShapes_length b backboneStrides) as [L F].
    apply pyramidLoop_safe; try exact F.
    + cbn. lia.
    + rewrite L. cbn. lia.
    + cbn. lia.
  - intros scales ratios strides anchorStride Hr Hs. unfold generatePyramidAnchors.
    destruct (computeBackboneShapes_length b strides) as [L F].
    apply pyramidLoop_safe; try assumption. rewrite L. exact Hs.
Qed.

Lemma getAnchors_never_panics_witness :
  generatePyramidAnchors 3 [32] anchorRatios
    (computeBackboneShapes (Rect0 (-5) 7) [0; 4]) [0; 4] 1 <> Panic.
Proof.
  apply (proj2 (getAnchors_never_panics 3 (Rect0 (-5) 7))); simpl; lia.
Defined.

(** * Rectangles without height or without width *)

Lemma SFltb_zero_not_above (x : spec_float) :
  not_above_zero x -> SFltb F32.zero x = false.
Proof.
  destruct x as [s | s | | s m e]; cbn [not_above_zero]; intros H; subst; reflexivity.
Qed.

Lemma F64_of_int_not_above (n : Z) : n <= 0 -> not_above_zero (F64.of_int n).
Proof.
  intros H. destruct n as [ | n | n]; [exact I | lia | ].
  unfold F64.of_int. cbn [binary_normalize].
  pose proof (binary_round_sign F64.prec F64.emax F64_prec_pos true n 0) as S.
  destruct (binary_round F64.prec F64.emax true n 0); cbn [not_above_zero];
    try exact I; exact S.
Qed.

Lemma F64_of_int_positive (n : Z) : 1 <= n -> positive_value (F64.of_int n).
Proof.
  intros H.
  pose proof (binary_normalize_mono F64.prec F64.emax F64_prec_pos 1 n 0 H) as L.
  destruct n as [ | n | n]; try lia.
  unfold F64.of_int. cbn [binary_normalize] in *.
  pose proof (binary_round_sign F64.prec F64.emax F64_prec_pos false n 0) as S.
  destruct (binary_round F64.prec F64.emax false n 0) as [s | s | | s m e];
    cbn [positive_value]; try exact S; try contradiction.
  subst s. discriminate L.
Qed.

Lemma F64_div_not_above (x y : spec_float) :
  not_above_zero x -> positive_value y -> not_above_zero (F64.div x y).
Proof.
  destruct x as [sx | sx | | sx mx ex], y as [sy | sy | | sy my ey];
    cbn [not_above_zero positive_value]; intros Hx Hy; try contradiction; subst;
    try exact I; try reflexivity.
  unfold F64.div. cbn [SFdiv xorb].
  destruct (SFdiv_core_binary F64.prec F64.emax (Zpos mx) ex (Zpos my) ey) as [[mz ez] lz].
  pose proof (binary_round_aux_sign F64.prec F64.emax true mz ez lz) as S.
  destruct (binary_round_aux F64.prec F64.emax true mz ez lz); cbn [not_above_zero];
    try exact I; exact S.
Qed.

Lemma F64_ceil_not_above (x : spec_float) :
  not_above_zero x -> not_above_zero (F64.ceil x).
Proof.
  destruct x as [s | s | | s m e]; cbn [not_above_zero F64.ceil]; intros H; try exact H.
  subst s. destruct (0 <=? e) eqn:E; [reflexivity | ]. apply Z.leb_gt in E.
  cbn [cond_Zopp]. rewrite Z.opp_involutive.
  assert (Q : 0 <= Zpos m / 2 ^ (- e)).
  { apply Z.div_pos; [lia | apply Z.pow_pos_nonneg; lia]. }
  destruct (Zpos m / 2 ^ (- e)) as [ | q | q]; try lia; [exact I | ].
  cbn [Z.opp binary_normalize].
  pose proof (binary_round_sign F64.prec F64.emax F64_prec_pos true q 0) as S.
  destruct (binary_round F64.prec F64.emax true q 0); cbn [not_above_zero];
    try exact I; exact S.
Qed.

Lemma F32_of_f64_not_above (x : spec_float) :
  not_above_zero x -> not_above_zero (F32.of_f64 x).
Proof.
  destruct x as [s | s | | s m e]; cbn [not_above_zero F32.of_f64]; intros H; try exact H.
  subst s.
  pose proof (binary_round_sign F32.prec F32.emax F32_prec_pos true m e) as S.
  destruct (binary_round F32.prec F32.emax true m e); cbn [not_above_zero];
    try exact I; exact S.
Qed.

Lemma shape_entry_not_above (n s : Z) :
  n <= 0 -> 1 <= s ->
  not_above_zero (F32.of_f64 (F64.ceil (F64.div (F64.of_int n) (F64.of_int s)))).
Proof.
  intros Hn Hs. apply F32_of_f64_not_above, F64_ceil_not_above, F64_div_not_above.
  - apply F64_of_int_not_above. exact Hn.
  - apply F64_of_int_positive. exact Hs.
Qed.

Lemma pyramidLoop_no_rows (fuel : nat) (ratios : list spec_float) (anchorStride : Z)
    (b : Rectangle) (scales : list Z) :
  (3 <= length ratios)%nat -> Dy b <= 0 ->
  forall strides anchors,
    Forall (fun s => 1 <= s) strides -> (length scales <= length strides)%nat ->
    pyramidLoop (S fuel) scales ratios (computeBackboneShapes b strides) strides anchorStride
      anchors = Ret anchors.
Proof.
  intros Hr Hy. induction scales as [ | scale scales IH]; intros strides anchors Hs Hl;
    [reflexivity | ].
  destruct strides as [ | stride strides]; [cbn [length] in Hl; lia | ].
  inversion Hs as [ | ? ? H1 Hrest]; subst.
  unfold computeBackboneShapes. cbn [map pyramidLoop index nth_error bind tl].
  rewrite generateAnchors_no_rows;
    [ | exact Hr | apply SFltb_zero_not_above, shape_entry_not_above; assumption].
  cbn [bind]. rewrite app_nil_r. apply IH; [exact Hrest | cbn [length] in Hl; lia].
Qed.

Lemma rowCells_no_cols (rows : Z) (s1 : spec_float) (rest : list spec_float) :
  not_above_zero s1 -> 0 <= rows <= 2 ^ 24 ->
  forall (n : nat) k fuel cells,
    k = rows - Z.of_nat n -> 0 <= k -> (n + 1 < fuel)%nat ->
    rowCells fuel (F32.of_int rows :: s1 :: rest) 1 (F32.of_int k) cells = Ret cells.
Proof.
  intros H1 Hrows. induction n as [ | n IH]; intros k fuel cells Hk Hk0 Hfuel.
  - destruct fuel as [ | fuel]; [lia | ].
    rewrite rowCells_S. cbn [index nth_error bind].
    rewrite F32_ltb_counter_false by lia. reflexivity.
  - destruct fuel as [ | [ | fuel]]; try lia.
    rewrite rowCells_S. cbn [index nth_error bind].
    rewrite F32_ltb_counter by lia.
    rewrite colCells_S. cbn [index nth_error bind].
    rewrite (SFltb_zero_not_above s1 H1). cbn [bind].
    rewrite F32_add_counter by lia. apply IH; lia.
Qed.

Lemma level_no_cols (fuel : nat) (scale : Z) (ratios : list spec_float) (b : Rectangle)
    (s k featureStride : Z) :
  (3 <= length ratios)%nat -> Dx b <= 0 -> 0 <= Dy b <= 2 ^ 24 * s ->
  1 <= k <= 28 -> F64.of_int s = S754_finite false 4503599627370496 (k - 52) -> s = 2 ^ k ->
  (Z.to_nat (2 ^ 24) + 1 < fuel)%nat ->
  generateAnchors fuel scale ratios
    [F32.of_f64 (F64.ceil (F64.div (F64.of_int (Dy b)) (F64.of_int s)));
     F32.of_f64 (F64.ceil (F64.div (F64.of_int (Dx b)) (F64.of_int s)))] featureStride 1
  = Ret [].
Proof.
  intros Hr Hx Hy Hk Hs Hs2 Hfuel.
  assert (P : 0 < s) by (subst s; apply Z.pow_pos_nonneg; lia).
  assert (B : 2 ^ 24 * s < 2 ^ 53).
  { subst s. rewrite <- Z.pow_add_r by lia. apply Z.pow_lt_mono_r; lia. }
  rewrite (shape_entry (Dy b) s k) by (try assumption; lia).
  destruct ratios as [ | r0 [ | r1 [ | r2 more]]]; cbn [length] in Hr; try lia.
  rewrite generateAnchors_cells. unfold visitedCells.
  assert (R : 0 <= ceil_div (Dy b) s <= 2 ^ 24).
  { split; [apply ceil_div_nonneg; lia | apply ceil_div_le; lia]. }
  change F32.zero with (F32.of_int 0).
  rewrite (rowCells_no_cols (ceil_div (Dy b) s) _ [] (shape_entry_not_above (Dx b) s Hx ltac:(lia))
             R (Z.to_nat (ceil_div (Dy b) s))) by lia.
  reflexivity.
Qed.

(** X15. A rectangle without height or without width gives no anchors:
    when its height is zero or negative (an inverted rectangle), getAnchors
    returns the empty list at once, whatever the width; when its width is
    zero or negative and its height is between 0 and 2^26, it returns the
    empty list once the rows have been counted. *)
Theorem getAnchors_empty_bounds (b : Rectangle) :
  (Dy b <= 0 -> forall fuel, getAnchors (S fuel) b = Ret []) /\
  (Dx b <= 0 -> 0 <= Dy b <= 2 ^ 26 ->
   forall fuel, (Z.to_nat (2 ^ 24) + 1 < fuel)%nat -> getAnchors fuel b = Ret []).
Proof.
  split.
  - intros Hy fuel. unfold getAnchors, generatePyramidAnchors.
    apply pyramidLoop_no_rows; try assumption.
    + cbn. lia.
    + unfold backboneStrides. repeat constructor; lia.
    + cbn. lia.
  - intros Hx Hy fuel Hfuel.
    unfold getAnchors, generatePyramidAnchors, computeBackboneShapes, backboneStrides,
      anchorScales.
    cbn [map pyramidLoop index nth_error bind tl].
    rewrite (level_no_cols fuel 32 anchorRatios b 4 2), (level_no_cols fuel 64 anchorRatios b 8 3),
      (level_no_cols fuel 128 anchorRatios b 16 4), (level_no_cols fuel 256 anchorRatios b 32 5),
      (level_no_cols fuel 512 anchorRatios b 64 6);
      try reflexivity; try assumption; try (cbn [length anchorRatios]; lia); lia.
Qed.

Lemma getAnchors_empty_bounds_witness :
  getAnchors 1 (Build_Rectangle (Build_Point 0 10) (Build_Point 800 3)) = Ret [].
Proof.
  apply (proj1 (getAnchors_empty_bounds
                  (Build_Rectangle (Build_Point 0 10) (Build_Point 800 3)))).
  vm_compute. discriminate.
Defined.

(** * Strides that are powers of two, and the stride zero *)

Lemma F64_of_int_pow2_nat (n : nat) :
  (n < 62)%nat ->
  F64.of_int (2 ^ (Z.of_nat n + 1)) =
  S754_finite false 4503599627370496 (Z.of_nat n + 1 - 52).
Proof.
  intros H.
  do 62 (destruct n as [ | n]; [vm_compute; reflexivity | ]).
  lia.
Qed.

Lemma F64_of_int_pow2 (k : Z) :
  1 <= k <= 62 -> F64.of_int (2 ^ k) = S754_finite false 4503599627370496 (k - 52).
Proof.
  intros H. replace k with (Z.of_nat (Z.to_nat (k - 1)) + 1) by lia.
  apply F64_of_int_pow2_nat. lia.
Qed.

(** X16. For strides that are powers of two, 2^k with k from 1 to 62, and a
    height and a width from 0 to below 2^53, the shapes of
    computeBackboneShapes are the exact ceilings of height / stride and
    width / stride, converted to float32: the float64 division and
    math.Ceil lose nothing. *)
Theorem computeBackboneShapes_pow2 (b : Rectangle) (ks : list Z) :
  0 <= Dy b < 2 ^ 53 -> 0 <= Dx b < 2 ^ 53 -> Forall (fun k => 1 <= k <= 62) ks ->
  computeBackboneShapes b (map (Z.pow 2) ks) =
  map (fun k => [F32.of_int (ceil_div (Dy b) (2 ^ k)); F32.of_int (ceil_div (Dx b) (2 ^ k))]) ks.
Proof.
  intros Hy Hx Hk. unfold computeBackboneShapes. rewrite map_map.
  apply map_ext_in. intros k Hin.
  pose proof (proj1 (Forall_forall _ _) Hk k Hin) as K. cbv beta in K.
  rewrite !(shape_entry _ (2 ^ k) k); try reflexivity; try assumption;
    apply F64_of_int_pow2; exact K.
Qed.

Lemma computeBackboneShapes_pow2_witness :
  computeBackboneShapes (Rect0 1000 37) (map (Z.pow 2) [1; 3; 10]) =
  map (fun k => [F32.of_int (ceil_div (Dy (Rect0 1000 37)) (2 ^ k));
                 F32.of_int (ceil_div (Dx (Rect0 1000 37)) (2 ^ k))]) [1; 3; 10].
Proof.
  apply (computeBackboneShapes_pow2 (Rect0 1000 37) [1; 3; 10]).
  - vm_compute. split; [discriminate | reflexivity].
  - vm_compute. split; [discriminate | reflexivity].
  - repeat constructor; lia.
Defined.

Lemma colCells_stuck (s0 s1 : spec_float) (rest : list spec_float) (anchorStride : Z)
    (j i : spec_float) :
  SFltb i s1 = true -> F32.add i (F32.of_int anchorStride) = i ->
  forall fuel cells, colCells fuel (s0 :: s1 :: rest) anchorStride j i cells = OutOfFuel.
Proof.
  intros Hlt Hadd. induction fuel as [ | fuel IH]; intros cells; [reflexivity | ].
  rewrite colCells_S. cbn [index nth_error bind]. rewrite Hlt, Hadd. apply IH.
Qed.

Lemma colCells_unbounded (s0 : spec_float) (rest : list spec_float) (j : spec_float)
    (n : nat) :
  forall k, k = 2 ^ 24 - Z.of_nat n -> 0 <= k ->
  forall fuel cells,
    colCells fuel (s0 :: S754_infinity false :: rest) 1 j (F32.of_int k) cells = OutOfFuel.
Proof.
  induction n as [ | n IH]; intros k Hk Hk0.
  - replace k with (2 ^ 24) by lia. apply colCells_stuck; reflexivity.
  - intros [ | fuel] cells; [reflexivity | ].
    rewrite colCells_S. cbn [index nth_error bind].
    assert (Hlt : SFltb (F32.of_int k) (S754_infinity false) = true).
    { destruct (Z.eq_dec k 0) as [-> | Nz]; [reflexivity | ].
      destruct (F32_of_int_pos_finite k ltac:(lia)) as [m [e [-> Hle]]]. reflexivity. }
    rewrite Hlt. rewrite F32_add_counter by lia. apply IH; lia.
Qed.

Lemma generateAnchors_unbounded (fuel : nat) (scales : Z) (ratios : list spec_float)
    (s0 : spec_float) (rest : list spec_float) (featureStride : Z) :
  (3 <= length ratios)%nat -> SFltb F32.zero s0 = true ->
  generateAnchors fuel scales ratios (s0 :: S754_infinity false :: rest) featureStride 1
  = OutOfFuel.
Proof.
  intros Hr H0. destruct ratios as [ | r0 [ | r1 [ | r2 more]]]; cbn [length] in Hr; try lia.
  rewrite generateAnchors_cells. unfold visitedCells.
  destruct fuel as [ | fuel]; [reflexivity | ].
  rewrite rowCells_S. cbn [index nth_error bind]. rewrite H0.
  change F32.zero with (F32.of_int 0) at 2.
  rewrite (colCells_unbounded s0 rest _ (Z.to_nat (2 ^ 24)) 0) by lia.
  reflexivity.
Qed.

Lemma shape_entry_zero_stride (n : Z) :
  1 <= n ->
  F32.of_f64 (F64.ceil (F64.div (F64.of_int n) (F64.of_int 0))) = S754_infinity false.
Proof.
  intros H. pose proof (F64_of_int_positive n H) as P.
  change (F64.of_int 0) with (S754_zero false).
  destruct (F64.of_int n) as [s | s | | s m e]; cbn [positive_value] in P;
    try contradiction; subst s; reflexivity.
Qed.

(** X17. A stride of zero is not rejected: for a rectangle with a height and
    a width above zero, computeBackboneShapes divides by zero in float64 and
    gives the shape [+Inf, +Inf] for that stride, and the generation of the
    anchors of that level never ends (the column counter stays below +Inf),
    so generatePyramidAnchors never returns. *)
Theorem zero_stride_never_returns (b : Rectangle) (strides : list Z) :
  0 < Dy b -> 0 < Dx b ->
  computeBackboneShapes b (0 :: strides) =
  [S754_infinity false; S754_infinity false] :: computeBackboneShapes b strides /\
  (forall fuel scale scales ratios,
     (3 <= length ratios)%nat ->
     generatePyramidAnchors fuel (scale :: scales) ratios
       (computeBackboneShapes b (0 :: strides)) (0 :: strides) 1 = OutOfFuel).
Proof.
  intros Hy Hx.
  assert (E : computeBackboneShapes b (0 :: strides) =
              [S754_infinity false; S754_infinity false] :: computeBackboneShapes b strides).
  { unfold computeBackboneShapes. cbn [map].
    rewrite !shape_entry_zero_stride by lia. reflexivity. }
  split; [exact E | ].
  intros fuel scale scales ratios Hr. rewrite E.
  unfold generatePyramidAnchors. cbn [pyramidLoop index nth_error bind].
  rewrite generateAnchors_unbounded by (assumption || reflexivity). reflexivity.
Qed.

Lemma zero_stride_never_returns_witness :
  generatePyramidAnchors 1000 [32] anchorRatios
    (computeBackboneShapes (Rect0 800 800) [0]) [0] 1 = OutOfFuel.
Proof.
  apply (proj2 (zero_stride_never_returns (Rect0 800 800) [] ltac:(vm_compute; reflexivity)
                  ltac:(vm_compute; reflexivity))).
  simpl. lia.
Defined.

(** * calculateClusters *)

Section ClusterProofs.
Variable Descriptors : Type.
Variable zeroDescriptors : Descriptors.
Variable DistanceTo : Descriptors -> Descriptors -> option spec_float.


Lemma memberLoop_true (descrs : list (String.string * Descriptors))
    (threshold : spec_float) (descr : Descriptors) (cc : list String.string) :
  memberLoop Descriptors zeroDescriptors DistanceTo descrs threshold descr cc = true <->
  exists c, In c cc /\ close_to Descriptors zeroDescriptors DistanceTo descrs threshold descr c.
Proof.
  induction cc as [ | a cc IH]; cbn [memberLoop].
  - split; [discriminate | intros [c [[] _]]].
  - destruct (DistanceTo descr (mapIndex Descriptors zeroDescriptors descrs a)) as [distance | ] eqn:D.
    + destruct (SFltb distance threshold) eqn:L.
      * split; [ | reflexivity]. intros _. exists a. split; [left; reflexivity | ].
        exists distance. split; assumption.
      * rewrite IH. split; intros [c [Hin Hc]].
        -- exists c. split; [right; exact Hin | exact Hc].
        -- destruct Hin as [<- | Hin]; [ | exists c; split; assumption].
           destruct Hc as [d' [D' L']]. rewrite D in D'. injection D' as <-. congruence.
    + rewrite IH. split; intros [c [Hin Hc]].
      * exists c. split; [right; exact Hin | exact Hc].
      * destruct Hin as [<- | Hin]; [ | exists c; split; assumption].
        destruct Hc as [d' [D' L']]. rewrite D in D'. discriminate.
Qed.

Lemma memberLoop_false (descrs : list (String.string * Descriptors))
    (threshold : spec_float) (descr : Descriptors) (cc : list String.string) :
  memberLoop Descriptors zeroDescriptors DistanceTo descrs threshold descr cc = false ->
  forall c, In c cc -> ~ close_to Descriptors zeroDescriptors DistanceTo descrs threshold descr c.
Proof.
  intros H c Hin Hc.
  assert (T : memberLoop Descriptors zeroDescriptors DistanceTo descrs threshold descr cc = true).
  { apply memberLoop_true. exists c. split; assumption. }
  congruence.
Qed.

Lemma clusterLoop_Some (descrs : list (String.string * Descriptors))
    (threshold : spec_float) (name : String.string) (descr : Descriptors)
    (clusters : list (list String.string)) :
  forall clusters',
    clusterLoop Descriptors zeroDescriptors DistanceTo descrs threshold name descr clusters = Some clusters' ->
    exists pre cc post,
      clusters = pre ++ cc :: post /\ clusters' = pre ++ (cc ++ [name]) :: post /\
      memberLoop Descriptors zeroDescriptors DistanceTo descrs threshold descr cc = true /\
      Forall (fun c => memberLoop Descriptors zeroDescriptors DistanceTo descrs threshold descr c = false) pre.
Proof.
  induction clusters as [ | cc clusters IH]; intros clusters'; cbn [clusterLoop];
    [discriminate | ].
  destruct (memberLoop Descriptors zeroDescriptors DistanceTo descrs threshold descr cc) eqn:M.
  - intros [= <-]. exists [], cc, clusters. repeat split; try assumption. constructor.
  - destruct (clusterLoop Descriptors zeroDescriptors DistanceTo descrs threshold name descr clusters) as [clusters'' | ];
      [ | discriminate].
    intros [= <-]. destruct (IH clusters'' eq_refl) as [pre [c0 [post [E [E' [M' F]]]]]].
    exists (cc :: pre), c0, post. subst. repeat split; try assumption.
    constructor; assumption.
Qed.

Lemma clusterLoop_None (descrs : list (String.string * Descriptors))
    (threshold : spec_float) (name : String.string) (descr : Descriptors)
    (clusters : list (list String.string)) :
  clusterLoop Descriptors zeroDescriptors DistanceTo descrs threshold name descr clusters = None ->
  Forall (fun cc => memberLoop Descriptors zeroDescriptors DistanceTo descrs threshold descr cc = false) clusters.
Proof.
  induction clusters as [ | cc clusters IH]; cbn [clusterLoop]; [constructor | ].
  destruct (memberLoop Descriptors zeroDescriptors DistanceTo descrs threshold descr cc) eqn:M; [discriminate | ].
  destruct (clusterLoop Descriptors zeroDescriptors DistanceTo descrs threshold name descr clusters); [discriminate | ].
  intros _. constructor; [exact M | apply IH; reflexivity].
Qed.

Lemma concat_insert (pre post : list (list String.string)) (cc : list String.string)
    (name : String.string) :
  Permutation (concat (pre ++ (cc ++ [name]) :: post)) (concat (pre ++ cc :: post) ++ [name]).
Proof.
  rewrite !concat_app. cbn [concat]. rewrite <- !app_assoc.
  apply Permutation_app_head. apply Permutation_app_head.
  apply Permutation_app_comm.
Qed.

(** What one iteration of the loop on the entries does to the clusters. *)
Lemma step_cases (descrs : list (String.string * Descriptors)) (threshold : spec_float)
    (name : String.string) (descr : Descriptors) (clusters : list (list String.string)) :
  let clusters' := match clusterLoop Descriptors zeroDescriptors DistanceTo descrs threshold name descr clusters with
                   | Some clusters' => clusters'
                   | None => clusters ++ [[name]]
                   end in
  (exists pre cc post,
     clusters = pre ++ cc :: post /\ clusters' = pre ++ (cc ++ [name]) :: post /\
     memberLoop Descriptors zeroDescriptors DistanceTo descrs threshold descr cc = true /\
     Forall (fun c => memberLoop Descriptors zeroDescriptors DistanceTo descrs threshold descr c = false) pre) \/
  (clusters' = clusters ++ [[name]] /\
   Forall (fun cc => memberLoop Descriptors zeroDescriptors DistanceTo descrs threshold descr cc = false) clusters).
Proof.
  cbv zeta.
  destruct (clusterLoop Descriptors zeroDescriptors DistanceTo descrs threshold name descr clusters) as [clusters' | ] eqn:C.
  - left. apply clusterLoop_Some. exact C.
  - right. split; [reflexivity | apply (clusterLoop_None _ _ name); exact C].
Qed.

Lemma step_partition (descrs : list (String.string * Descriptors))
    (threshold : spec_float) (name : String.string) (descr : Descriptors)
    (clusters : list (list String.string)) :
  Forall (fun cc => cc <> []) clusters ->
  Permutation
    (concat match clusterLoop Descriptors zeroDescriptors DistanceTo descrs threshold name descr clusters with
            | Some clusters' => clusters'
            | None => clusters ++ [[name]]
            end)
    (concat clusters ++ [name]) /\
  Forall (fun cc => cc <> [])
    match clusterLoop Descriptors zeroDescriptors DistanceTo descrs threshold name descr clusters with
    | Some clusters' => clusters'
    | None => clusters ++ [[name]]
    end.
Proof.
  intros Hne.
  destruct (step_cases descrs threshold name descr clusters)
    as [[pre [cc [post [E [E' [M F]]]]]] | [E' F]]; rewrite E'.
  - split.
    + rewrite concat_insert, <- E. reflexivity.
    + subst clusters. apply Forall_app in Hne. destruct Hne as [Hp Hq].
      apply Forall_app. split; [exact Hp | ].
      inversion Hq; subst. constructor; [ | assumption].
      destruct cc; discriminate.
  - split.
    + rewrite concat_app. cbn [concat]. rewrite app_nil_r. reflexivity.
    + apply Forall_app. split; [exact Hne | ]. constructor; [discriminate | constructor].
Qed.

Lemma descrsLoop_partition (descrs : list (String.string * Descriptors))
    (threshold : spec_float) (todo : list (String.string * Descriptors)) :
  forall clusters,
    Forall (fun cc => cc <> []) clusters ->
    Permutation (concat (descrsLoop Descriptors zeroDescriptors DistanceTo descrs threshold todo clusters))
      (concat clusters ++ map fst todo) /\
    Forall (fun cc => cc <> []) (descrsLoop Descriptors zeroDescriptors DistanceTo descrs threshold todo clusters).
Proof.
  induction todo as [ | [name descr] todo IH]; intros clusters Hne; cbn [descrsLoop map fst].
  - rewrite app_nil_r. split; [reflexivity | exact Hne].
  - destruct (step_partition descrs threshold name descr clusters Hne) as [P' N'].
    destruct (IH _ N') as [P N]. split; [ | exact N].
    rewrite P, P', <- app_assoc. reflexivity.
Qed.

(** X18. calculateClusters partitions the names: every key of the map is
    in exactly one place of the clusters (the clusters, put end to end,
    are a permutation of the keys in the order of iteration), no cluster
    is empty, and there are at most as many clusters as keys. *)
Theorem calculateClusters_partition (descrs : list (String.string * Descriptors))
    (threshold : spec_float) :
  Permutation (concat (calculateClusters Descriptors zeroDescriptors DistanceTo descrs threshold)) (map fst descrs) /\
  Forall (fun cc => cc <> []) (calculateClusters Descriptors zeroDescriptors DistanceTo descrs threshold) /\
  (length (calculateClusters Descriptors zeroDescriptors DistanceTo descrs threshold) <= length descrs)%nat.
Proof.
  unfold calculateClusters.
  destruct (descrsLoop_partition descrs threshold descrs [] (Forall_nil _)) as [P N].
  cbn [concat app] in P. split; [exact P | ]. split; [exact N | ].
  apply Permutation_length in P. rewrite length_map in P. rewrite <- P.
  clear P. induction N as [ | cc l Hcc N IH]; cbn [concat length]; [lia | ].
  rewrite length_app. destruct cc as [ | c cc]; [contradiction | cbn [length]; lia].
Qed.

Lemma app_tail_split (cc pre post : list String.string) (name n : String.string) :
  cc ++ [name] = pre ++ n :: post ->
  (post = [] /\ pre = cc /\ n = name) \/
  (exists post', post = post' ++ [name] /\ cc = pre ++ n :: post').
Proof.
  intros E. induction post as [ | a post' _] using rev_ind.
  - left. apply app_inj_tail in E. destruct E as [-> ->]. repeat split.
  - right. exists post'.
    change (pre ++ n :: post' ++ [a]) with (pre ++ (n :: post') ++ [a]) in E.
    rewrite app_assoc in E. apply app_inj_tail in E. destruct E as [-> ->].
    split; reflexivity.
Qed.

Lemma linked_more (descrs : list (String.string * Descriptors)) (threshold : spec_float)
    (processed more : list (String.string * Descriptors)) (cc : list String.string) :
  linked Descriptors zeroDescriptors DistanceTo descrs threshold processed cc ->
  linked Descriptors zeroDescriptors DistanceTo descrs threshold (processed ++ more) cc.
Proof.
  intros L pre name post E Hpre.
  destruct (L pre name post E Hpre) as [descr [c [Hin [Hc Hclose]]]].
  exists descr, c. split; [apply in_or_app; left; exact Hin | ]. split; assumption.
Qed.

Lemma descrsLoop_linked (descrs : list (String.string * Descriptors))
    (threshold : spec_float) (todo : list (String.string * Descriptors)) :
  forall processed clusters,
    Forall (linked Descriptors zeroDescriptors DistanceTo descrs threshold processed) clusters ->
    Forall (linked Descriptors zeroDescriptors DistanceTo descrs threshold (processed ++ todo))
      (descrsLoop Descriptors zeroDescriptors DistanceTo descrs threshold todo clusters).
Proof.
  induction todo as [ | [name descr] todo IH]; intros processed clusters HL;
    cbn [descrsLoop].
  - rewrite app_nil_r. exact HL.
  - replace (processed ++ (name, descr) :: todo)
      with ((processed ++ [(name, descr)]) ++ todo) by (rewrite <- app_assoc; reflexivity).
    apply IH.
    assert (HL' : Forall (linked Descriptors zeroDescriptors DistanceTo descrs threshold (processed ++ [(name, descr)])) clusters).
    { eapply Forall_impl; [ | exact HL]. intros cc. apply linked_more. }
    destruct (step_cases descrs threshold name descr clusters)
      as [[pre [cc [post [E [E' [M F]]]]]] | [E' F]]; rewrite E'.
    + subst clusters. apply Forall_app in HL'. destruct HL' as [Hp Hq].
      apply Forall_app. split; [exact Hp | ].
      inversion Hq as [ | ? ? Hcc Hpost]; subst. constructor; [ | exact Hpost].
      intros pre0 n post0 E0 Hpre0.
      destruct (app_tail_split cc pre0 post0 name n E0) as [[-> [-> ->]] | [post' [-> ->]]].
      * apply memberLoop_true in M. destruct M as [c [Hc Hclose]].
        exists descr, c. split; [apply in_or_app; right; left; reflexivity | ].
        split; assumption.
      * apply (Hcc pre0 n post' eq_refl Hpre0).
    + apply Forall_app. split; [exact HL' | ]. constructor; [ | constructor].
      intros pre0 n post0 E0 Hpre0. destruct pre0 as [ | a [ | a' pre0]];
        [contradiction | discriminate | discriminate].
Qed.

(** X19. In every cluster that calculateClusters returns, every member
    after the first was put there because it is closer than the threshold
    to a member already in that cluster: it is the key of an entry whose
    descriptor has a distance below the threshold to the descriptor of a
    member before it. *)
Theorem calculateClusters_linked (descrs : list (String.string * Descriptors))
    (threshold : spec_float) :
  Forall (linked Descriptors zeroDescriptors DistanceTo descrs threshold descrs) (calculateClusters Descriptors zeroDescriptors DistanceTo descrs threshold).
Proof.
  unfold calculateClusters.
  apply (descrsLoop_linked descrs threshold descrs [] []). constructor.
Qed.

Lemma head_apart_more (descrs : list (String.string * Descriptors))
    (threshold : spec_float) (processed more : list (String.string * Descriptors))
    (cc : list String.string) :
  head_apart Descriptors zeroDescriptors DistanceTo descrs threshold processed cc ->
  head_apart Descriptors zeroDescriptors DistanceTo descrs threshold (processed ++ more) cc.
Proof.
  intros A h rest E. destruct (A h rest E) as [pre [descr [post [-> Hfar]]]].
  exists pre, descr, (post ++ more). split; [ | exact Hfar].
  rewrite <- app_assoc. reflexivity.
Qed.

Lemma descrsLoop_heads (descrs : list (String.string * Descriptors))
    (threshold : spec_float) (todo : list (String.string * Descriptors)) :
  forall processed clusters,
    Permutation (concat clusters) (map fst processed) ->
    Forall (fun cc => cc <> []) clusters ->
    Forall (head_apart Descriptors zeroDescriptors DistanceTo descrs threshold processed) clusters ->
    Forall (head_apart Descriptors zeroDescriptors DistanceTo descrs threshold (processed ++ todo))
      (descrsLoop Descriptors zeroDescriptors DistanceTo descrs threshold todo clusters).
Proof.
  induction todo as [ | [name descr] todo IH]; intros processed clusters HP Hne HA;
    cbn [descrsLoop].
  - rewrite app_nil_r. exact HA.
  - replace (processed ++ (name, descr) :: todo)
      with ((processed ++ [(name, descr)]) ++ todo) by (rewrite <- app_assoc; reflexivity).
    destruct (step_partition descrs threshold name descr clusters Hne) as [P' N'].
    apply IH; [ | exact N' | ].
    { rewrite P', map_app. cbn [map fst]. apply Permutation_app_tail. exact HP. }
    assert (HA' : Forall (head_apart Descriptors zeroDescriptors DistanceTo descrs threshold (processed ++ [(name, descr)]))
                    clusters).
    { eapply Forall_impl; [ | exact HA]. intros cc. apply head_apart_more. }
    destruct (step_cases descrs threshold name descr clusters)
      as [[pre [cc [post [E [E' [M F]]]]]] | [E' F]]; rewrite E'.
    + subst clusters. apply Forall_app in HA'. destruct HA' as [Hp Hq].
      apply Forall_app. split; [exact Hp | ].
      inversion Hq as [ | ? ? Hcc Hpost]; subst. constructor; [ | exact Hpost].
      intros h rest E0. destruct cc as [ | c0 cc].
      * cbn [memberLoop] in M. discriminate.
      * cbn [app] in E0. injection E0 as <- <-. apply (Hcc c0 cc eq_refl).
    + apply Forall_app. split; [exact HA' | ]. constructor; [ | constructor].
      intros h rest [= <- <-]. exists processed, descr, []. split; [reflexivity | ].
      intros c Hc. apply (Permutation_in c (Permutation_sym HP)) in Hc.
      apply in_concat in Hc. destruct Hc as [cc [Hcc Hin]].
      apply (memberLoop_false descrs threshold descr cc); [ | exact Hin].
      apply (proj1 (Forall_forall _ _) F cc Hcc).
Qed.

(** X20. A name starts a cluster of its own only when it is close to no
    name placed before it: the first member of every cluster that
    calculateClusters returns is the key of an entry whose descriptor is
    closer than the threshold to none of the keys that come before that
    entry in the order of iteration. *)
Theorem calculateClusters_heads (descrs : list (String.string * Descriptors))
    (threshold : spec_float) :
  Forall (head_apart Descriptors zeroDescriptors DistanceTo descrs threshold descrs) (calculateClusters Descriptors zeroDescriptors DistanceTo descrs threshold).
Proof.
  unfold calculateClusters.
  apply (descrsLoop_heads descrs threshold descrs [] []); constructor.
Qed.

Lemma mapIndex_entry (descrs : list (String.string * Descriptors)) (name : String.string)
    (descr : Descriptors) :
  NoDup (map fst descrs) -> In (name, descr) descrs -> mapIndex Descriptors zeroDescriptors descrs name = descr.
Proof.
  induction descrs as [ | [k d] descrs IH]; cbn [map fst mapIndex]; intros ND Hin;
    [contradiction | ].
  inversion ND as [ | ? ? Hk ND']; subst.
  destruct (String.eqb k name) eqn:E.
  - apply String.eqb_eq in E. subst k.
    destruct Hin as [[= <-] | Hin]; [reflexivity | ].
    exfalso. apply Hk. apply (in_map fst) in Hin. exact Hin.
  - apply String.eqb_neq in E.
    destruct Hin as [[= <- <-] | Hin]; [contradiction | ]. apply IH; assumption.
Qed.

Lemma NoDup_keys_middle (processed todo : list (String.string * Descriptors))
    (name : String.string) (descr : Descriptors) :
  NoDup (map fst (processed ++ (name, descr) :: todo)) -> ~ In name (map fst processed).
Proof.
  rewrite map_app. cbn [map fst]. intros ND Hin.
  apply NoDup_remove_2 in ND. apply ND. apply in_or_app. left. exact Hin.
Qed.

Lemma memberLoop_all_far (descrs : list (String.string * Descriptors))
    (threshold : spec_float) (name : String.string) (cc : list String.string) :
  (forall n1 n2 distance,
     In n1 (map fst descrs) -> In n2 (map fst descrs) -> n1 <> n2 ->
     DistanceTo (mapIndex Descriptors zeroDescriptors descrs n1) (mapIndex Descriptors zeroDescriptors descrs n2) = Some distance ->
     SFltb distance threshold = false) ->
  In name (map fst descrs) ->
  (forall c, In c cc -> In c (map fst descrs) /\ c <> name) ->
  memberLoop Descriptors zeroDescriptors DistanceTo descrs threshold (mapIndex Descriptors zeroDescriptors descrs name) cc = false.
Proof.
  intros Hfar Hname. induction cc as [ | c cc IH]; intros Hcc; cbn [memberLoop];
    [reflexivity | ].
  assert (Hrec : memberLoop Descriptors zeroDescriptors DistanceTo descrs threshold (mapIndex Descriptors zeroDescriptors descrs name) cc = false).
  { apply IH. intros x Hx. apply Hcc. right. exact Hx. }
  destruct (Hcc c (or_introl eq_refl)) as [Hc Hne].
  destruct (DistanceTo (mapIndex Descriptors zeroDescriptors descrs name) (mapIndex Descriptors zeroDescriptors descrs c)) as [distance | ] eqn:D;
    [ | exact Hrec].
  rewrite (Hfar name c distance Hname Hc (not_eq_sym Hne) D). exact Hrec.
Qed.

Lemma descrsLoop_all_far (descrs : list (String.string * Descriptors))
    (threshold : spec_float) (todo : list (String.string * Descriptors)) :
  NoDup (map fst descrs) ->
  (forall n1 n2 distance,
     In n1 (map fst descrs) -> In n2 (map fst descrs) -> n1 <> n2 ->
     DistanceTo (mapIndex Descriptors zeroDescriptors descrs n1) (mapIndex Descriptors zeroDescriptors descrs n2) = Some distance ->
     SFltb distance threshold = false) ->
  forall processed clusters,
    descrs = processed ++ todo ->
    Forall (fun cc => incl cc (map fst processed)) clusters ->
    descrsLoop Descriptors zeroDescriptors DistanceTo descrs threshold todo clusters =
    clusters ++ map (fun entry => [fst entry]) todo.
Proof.
  intros ND Hfar. induction todo as [ | [name descr] todo IH]; intros processed clusters E Hcl;
    cbn [descrsLoop map fst].
  - rewrite app_nil_r. reflexivity.
  - assert (Hin : In (name, descr) descrs).
    { rewrite E. apply in_or_app. right. left. reflexivity. }
    assert (Hname : In name (map fst descrs)) by (apply (in_map fst) in Hin; exact Hin).
    assert (Hnew : ~ In name (map fst processed)).
    { apply (NoDup_keys_middle processed todo name descr). rewrite <- E. exact ND. }
    assert (C : clusterLoop Descriptors zeroDescriptors DistanceTo descrs threshold name descr clusters = None).
    { clear IH. induction clusters as [ | cc clusters IHc]; cbn [clusterLoop];
        [reflexivity | ].
      inversion Hcl as [ | ? ? Hcc Hrest]; subst clusters.
      rewrite <- (mapIndex_entry descrs name descr ND Hin) at 1.
      rewrite memberLoop_all_far; try assumption.
      - rewrite (IHc Hrest). reflexivity.
      - intros c Hc. apply Hcc in Hc. split.
        + rewrite E, map_app. apply in_or_app. left. exact Hc.
        + intros ->. contradiction. }
    rewrite C. rewrite (IH (processed ++ [(name, descr)])).
    + rewrite <- app_assoc. reflexivity.
    + rewrite <- app_assoc. exact E.
    + apply Forall_app. split.
      * eapply Forall_impl; [ | exact Hcl]. intros cc Hcc x Hx.
        rewrite map_app. apply in_or_app. left. apply Hcc. exact Hx.
      * constructor; [ | constructor]. intros x [<- | []].
        rewrite map_app. apply in_or_app. right. left. reflexivity.
Qed.

Lemma descrsLoop_all_close (descrs : list (String.string * Descriptors))
    (threshold : spec_float) (todo : list (String.string * Descriptors)) :
  NoDup (map fst descrs) ->
  (forall n1 n2,
     In n1 (map fst descrs) -> In n2 (map fst descrs) -> n1 <> n2 ->
     exists distance,
       DistanceTo (mapIndex Descriptors zeroDescriptors descrs n1) (mapIndex Descriptors zeroDescriptors descrs n2) = Some distance /\
       SFltb distance threshold = true) ->
  forall processed c cc,
    descrs = processed ++ todo -> In c (map fst processed) ->
    descrsLoop Descriptors zeroDescriptors DistanceTo descrs threshold todo [c :: cc] = [(c :: cc) ++ map fst todo].
Proof.
  intros ND Hclose. induction todo as [ | [name descr] todo IH]; intros processed c cc E Hc;
    cbn [descrsLoop map fst].
  - rewrite app_nil_r. reflexivity.
  - assert (Hin : In (name, descr) descrs).
    { rewrite E. apply in_or_app. right. left. reflexivity. }
    assert (Hname : In name (map fst descrs)) by (apply (in_map fst) in Hin; exact Hin).
    assert (Hnew : ~ In name (map fst processed)).
    { apply (NoDup_keys_middle processed todo name descr). rewrite <- E. exact ND. }
    assert (Hc' : In c (map fst descrs)).
    { rewrite E, map_app. apply in_or_app. left. exact Hc. }
    assert (Hne : name <> c) by (intros ->; contradiction).
    cbn [clusterLoop memberLoop].
    rewrite <- (mapIndex_entry descrs name descr ND Hin) at 1.
    destruct (Hclose name c Hname Hc' Hne) as [distance [-> ->]].
    change ((c :: cc) ++ [name]) with (c :: (cc ++ [name])).
    rewrite (IH (processed ++ [(name, descr)])).
    + cbn [app]. rewrite <- app_assoc. reflexivity.
    + rewrite <- app_assoc. exact E.
    + rewrite map_app. apply in_or_app. left. exact Hc.
Qed.

(** X21. When no two entries of the map are closer than the threshold
    (every distance between the descriptors of two different keys that is
    computed without error is not below it, as when every call of
    DistanceTo fails or the threshold is NaN), every name is a cluster of
    its own, in the order of iteration. *)
Theorem calculateClusters_all_far (descrs : list (String.string * Descriptors))
    (threshold : spec_float) :
  NoDup (map fst descrs) ->
  (forall n1 n2 distance,
     In n1 (map fst descrs) -> In n2 (map fst descrs) -> n1 <> n2 ->
     DistanceTo (mapIndex Descriptors zeroDescriptors descrs n1) (mapIndex Descriptors zeroDescriptors descrs n2) = Some distance ->
     SFltb distance threshold = false) ->
  calculateClusters Descriptors zeroDescriptors DistanceTo descrs threshold = map (fun entry => [fst entry]) descrs.
Proof.
  intros ND Hfar. unfold calculateClusters.
  rewrite (descrsLoop_all_far descrs threshold descrs ND Hfar [] []);
    [reflexivity | reflexivity | constructor].
Qed.

(** X22. When every two entries of the map with different keys have a
    distance below the threshold, calculateClusters returns one cluster
    with all the names, in the order of iteration. *)
Theorem calculateClusters_all_close (descrs : list (String.string * Descriptors))
    (threshold : spec_float) :
  NoDup (map fst descrs) ->
  (forall n1 n2,
     In n1 (map fst descrs) -> In n2 (map fst descrs) -> n1 <> n2 ->
     exists distance,
       DistanceTo (mapIndex Descriptors zeroDescriptors descrs n1) (mapIndex Descriptors zeroDescriptors descrs n2) = Some distance /\
       SFltb distance threshold = true) ->
  descrs <> [] ->
  calculateClusters Descriptors zeroDescriptors DistanceTo descrs threshold = [map fst descrs].
Proof.
  intros ND Hclose Hne. unfold calculateClusters.
  destruct descrs as [ | [name descr] rest] eqn:E; [contradiction | ].
  rewrite <- E in *. rewrite E at 2. cbn [descrsLoop clusterLoop app].
  rewrite (descrsLoop_all_close descrs threshold rest ND Hclose [(name, descr)]).
  - rewrite E. reflexivity.
  - rewrite E. reflexivity.
  - left. reflexivity.
Qed.
End ClusterProofs.

Lemma calculateClusters_all_far_witness :
  calculateClusters Z 0 sampleDistanceTo sampleDescrs (F32.of_int 5) =
  map (fun entry => [fst entry]) sampleDescrs.
Proof.
  apply (calculateClusters_all_far Z 0 sampleDistanceTo sampleDescrs (F32.of_int 5)).
  - repeat constructor; simpl; intuition discriminate.
  - intros n1 n2 distance H1 H2 Hne HD. simpl in H1, H2.
    destruct H1 as [<- | [<- | [<- | []]]], H2 as [<- | [<- | [<- | []]]];
      try contradiction; vm_compute in HD; injection HD as <-; reflexivity.
Defined.

Lemma calculateClusters_all_close_witness :
  calculateClusters Z 0 sampleDistanceTo sampleDescrs (F32.of_int 25) =
  [map fst sampleDescrs].
Proof.
  apply (calculateClusters_all_close Z 0 sampleDistanceTo sampleDescrs (F32.of_int 25)).
  - repeat constructor; simpl; intuition discriminate.
  - intros n1 n2 H1 H2 Hne. simpl in H1, H2.
    destruct H1 as [<- | [<- | [<- | []]]], H2 as [<- | [<- | [<- | []]]];
      try contradiction; (eexists; split; [reflexivity | vm_compute; reflexivity]).
  - discriminate.
Defined.
